(** * s3gof3r: the ranged-GET pipeline, its helpers and the async controllers

    A shallow embedding of the Go package [s3gof3r] (getter.go, s3gof3r.go,
    util.go) and the properties of it that the specification states.

    Conventions.
    - Go's [int], [int64] and [uint] are [Z]; arithmetic that can leave the
      64-bit range is written with its wrap-around ([Int64.wrap64]).
    - A Go [error] is [option error]; [None] is [nil].
    - A call that may block for ever, panic, or (in a fuel-indexed loop)
      need more steps returns an [outcome].
    - Byte slices are [list byte]; a slice expression that Go would refuse
      at run time is a [Panic].
    - Channels are modelled by what the reading goroutine observes: the
      sequence of values it will receive. *)

From Stdlib Require Import ZArith Lia List Ascii String Floats Uint63 DecimalString.
From Stdlib.Strings Require Import Byte.
From stdpp Require Import base tactics option list gmap strings.

Local Open Scope Z_scope.

(** ** Outcomes of a call *)

Inductive outcome (A : Type) : Type :=
| Ret (a : A)            (* the call returned [a] *)
| Blocked                (* the goroutine waits for ever *)
| Panic (msg : string)   (* a run-time panic *)
| OutOfFuel.             (* the fuel given to a loop did not suffice *)
Arguments Ret {A} a.
Arguments Blocked {A}.
Arguments Panic {A} msg.
Arguments OutOfFuel {A}.

(** ** 64-bit integers *)

Module Int64.

Definition min_int64 : Z := - 2 ^ 63.
Definition max_int64 : Z := 2 ^ 63 - 1.

Definition in_range (z : Z) : Prop := min_int64 <= z <= max_int64.

(* two's complement wrap-around of a mathematical integer *)
Definition wrap64 (z : Z) : Z := (z + 2 ^ 63) mod 2 ^ 64 - 2 ^ 63.

Definition add64 (a b : Z) : Z := wrap64 (a + b).
Definition sub64 (a b : Z) : Z := wrap64 (a - b).
(* Go's [/] on integers truncates towards zero *)
Definition div64 (a b : Z) : Z := wrap64 (Z.quot a b).

(* [uint] on a 64-bit platform *)
Definition wrapu64 (z : Z) : Z := z mod 2 ^ 64.

End Int64.

(** ** Errors *)

Module Err.

(* fmt's [%d] *)
Definition dec (z : Z) : string := NilZero.string_of_int (Z.to_int z).

Inductive error : Type :=
| EINVAL                                   (* syscall.EINVAL *)
| EOF                                      (* io.EOF *)
| ErrUnexpectedEOF                         (* io.ErrUnexpectedEOF *)
| ErrStopped                               (* var ErrStopped = errors.New("Stopped") *)
| ErrTooManyBytes (contentLen bytesRead : Z)
| ErrNoMoreChunks (contentLen bytesRead chunkID chunkTotal : Z)
| ErrShortRead (bytesRead contentLen : Z)
| ErrUndefinedLength
| RespError (StatusCode : Z) (Message : string)
| NumError (Func Num Msg : string)         (* *strconv.NumError *)
| ErrorString (msg : string).              (* any other errors.New / fmt.Errorf *)

Definition quote (s : string) : string :=
  (String (ascii_of_nat 34) s ++ String (ascii_of_nat 34) EmptyString)%string.

(* the [Error()] method *)
Definition Error (e : error) : string :=
  match e with
  | EINVAL => "invalid argument"
  | EOF => "EOF"
  | ErrUnexpectedEOF => "unexpected EOF"
  | ErrStopped => "Stopped"
  | ErrTooManyBytes cl br =>
      "Expected " ++ dec cl ++ " bytes, received " ++ dec br ++ " (too many bytes)"
  | ErrNoMoreChunks cl br cid ct =>
      "Expected " ++ dec cl ++ " bytes, received " ++ dec br ++ " and chunkID "
        ++ dec cid ++ " >= chunkTotal " ++ dec ct ++ " (no more chunks remaining)"
  | ErrShortRead br cl =>
      "read error: " ++ dec br ++ " bytes read. expected: " ++ dec cl
  | ErrUndefinedLength =>
      "Retrieving objects with undefined content-length " ++
      " responses (chunked transfer encoding / EOF close) is not supported"
  | RespError sc m => dec sc ++ ": " ++ quote m
  | NumError f n m => "strconv." ++ f ++ ": parsing " ++ quote n ++ ": " ++ m
  | ErrorString m => m
  end%string.

End Err.
Export Err.

(** ** util.go *)

Module Util.
Import Int64.

Definition min64 (a b : Z) : Z := if a <? b then a else b.
Definition min (a b : Z) : Z := if a <? b then a else b.
Definition max (a b : Z) : Z := if a >? b then a else b.
Definition max64 (a b : Z) : Z := if a >? b then a else b.

(** *** Byte sources *)

(* io.Reader: [Read(p)] is given the length of [p] and yields the bytes it
   stored, with the source's next state *)
Class Reader (R : Type) : Type :=
  { rd : R -> Z -> R * list byte * option error }.

(* io.ReadSeeker *)
Class ReadSeeker (R : Type) : Type :=
  { rs_Reader :: Reader R;
    sk : R -> Z -> Z -> R * Z * option error }.

(* bytes.Reader, the source the part readers wrap: the slice and the
   reading index *)
Record BytesReader : Type := mkBytesReader
  { br_s : list byte;
    br_i : Z }.

Definition BytesReader_Read (r : BytesReader) (lenp : Z)
  : BytesReader * list byte * option error :=
  if br_i r >=? Z.of_nat (length (br_s r)) then (r, [], Some EOF)
  else
    let bs := take (Z.to_nat lenp) (drop (Z.to_nat (br_i r)) (br_s r)) in
    (mkBytesReader (br_s r) (br_i r + Z.of_nat (length bs)), bs, None).

(* whence: io.SeekStart = 0, io.SeekCurrent = 1, io.SeekEnd = 2 *)
Definition BytesReader_Seek (r : BytesReader) (offset whence : Z)
  : BytesReader * Z * option error :=
  let target :=
    if whence =? 0 then Some offset
    else if whence =? 1 then Some (add64 (br_i r) offset)
    else if whence =? 2 then Some (add64 (Z.of_nat (length (br_s r))) offset)
    else None in
  match target with
  | None => (r, 0, Some (ErrorString "bytes.Reader.Seek: invalid whence"))
  | Some abs =>
      if abs <? 0 then (r, 0, Some (ErrorString "bytes.Reader.Seek: negative position"))
      else (mkBytesReader (br_s r) abs, abs, None)
  end.

#[export] Instance BytesReader_Reader : Reader BytesReader :=
  {| rd := BytesReader_Read |}.

#[export] Instance BytesReader_ReadSeeker : ReadSeeker BytesReader :=
  {| rs_Reader := BytesReader_Reader; sk := BytesReader_Seek |}.

(** *** readerWrapper

    [closed] and [bytesdone] are pointers shared by every copy of the
    wrapper; the record holds what they point to. *)

Record readerWrapper (R : Type) : Type := mkReaderWrapper
  { rw_Reader : R;
    rw_closed : bool;
    rw_bytesdone : Z }.
Arguments mkReaderWrapper {R} _ _ _.
Arguments rw_Reader {R} _.
Arguments rw_closed {R} _.
Arguments rw_bytesdone {R} _.

Definition newReaderWrapper {R : Type} (r : R) : readerWrapper R :=
  mkReaderWrapper r false 0.

Definition rw_ForceClose {R : Type} (r : readerWrapper R) : readerWrapper R :=
  mkReaderWrapper (rw_Reader r) true (rw_bytesdone r).

Definition rw_BytesDone {R : Type} (r : readerWrapper R) : Z := rw_bytesdone r.

(* func (r readerWrapper) Seek(offset, whence):
       abs, err = r.Seek(offset, whence)
       *r.bytesdone = abs
   The embedded field is an io.Reader, which has no Seek: the selector
   [r.Seek] is this very method.  Each call therefore starts with a call of
   itself; [fuel] bounds the depth of calls explored and [None] says that
   the depth did not suffice for the call to return. *)
Fixpoint rw_Seek {R : Type} (fuel : nat) (r : readerWrapper R) (offset whence : Z)
  : option (readerWrapper R * Z * option error) :=
  match fuel with
  | O => None
  | S fuel' =>
      match rw_Seek fuel' r offset whence with
      | None => None
      | Some (r', abs, err) =>
          Some (mkReaderWrapper (rw_Reader r') (rw_closed r') abs, abs, err)
      end
  end.

Definition rw_Read {R : Type} `{Reader R} (r : readerWrapper R) (lenp : Z)
  : readerWrapper R * list byte * option error :=
  if rw_closed r then (r, [], Some ErrUnexpectedEOF)
  else
    let '(src, bs, err) := rd (rw_Reader r) lenp in
    (mkReaderWrapper src (rw_closed r)
       (add64 (rw_bytesdone r) (Z.of_nat (length bs))), bs, err).

(** *** seekReaderWrapper *)

Record seekReaderWrapper (R : Type) : Type := mkSeekReaderWrapper
  { srw_ReadSeeker : R;
    srw_closed : bool;
    srw_bytesdone : Z }.
Arguments mkSeekReaderWrapper {R} _ _ _.
Arguments srw_ReadSeeker {R} _.
Arguments srw_closed {R} _.
Arguments srw_bytesdone {R} _.

Definition newSeekReaderWrapper {R : Type} (r : R) : seekReaderWrapper R :=
  mkSeekReaderWrapper r false 0.

(* abs, err = r.ReadSeeker.Seek(offset, whence); *r.bytesdone = abs *)
Definition srw_Seek {R : Type} `{ReadSeeker R} (r : seekReaderWrapper R)
    (offset whence : Z) : seekReaderWrapper R * Z * option error :=
  let '(src, abs, err) := sk (srw_ReadSeeker r) offset whence in
  (mkSeekReaderWrapper src (srw_closed r) abs, abs, err).

(** *** float64

    Go's float64 is IEEE 754 binary64, the kernel's primitive [float]. *)

(* float64(x) for an int64 x: the nearest binary64 *)
Definition float64_of_int64 (z : Z) : float :=
  if z =? min_int64 then (-9223372036854775808)%float
  else if z <? 0 then PrimFloat.opp (PrimFloat.of_uint63 (Uint63.of_Z (- z)))
  else PrimFloat.of_uint63 (Uint63.of_Z z).

(* int64(f): the fraction is discarded.  Where the value does not fit
   (also for NaN and the infinities) the Go specification leaves the
   result to the implementation; amd64's CVTTSD2SQ yields the smallest
   int64 *)
Definition int64_of_float64 (f : float) : Z :=
  match Prim2SF f with
  | S754_zero _ => 0
  | S754_finite s m e =>
      let mag := if 0 <=? e then Z.pos m * 2 ^ e else Z.pos m / 2 ^ (- e) in
      let v := if s then - mag else mag in
      if (min_int64 <=? v) && (v <=? max_int64) then v else min_int64
  | S754_infinity _ => min_int64
  | S754_nan => min_int64
  end.

(** *** time

    A [time.Time] is its reading of the monotonic clock in nanoseconds; a
    [time.Duration] is an int64 count of nanoseconds. *)

Definition Second : Z := 1000000000.

(* Time.Sub saturates at the largest and smallest Duration *)
Definition time_Sub (t u : Z) : Z :=
  let d := t - u in
  if d <? min_int64 then min_int64
  else if d >? max_int64 then max_int64 else d.

(* func (d Duration) Seconds() float64:
     sec := d / Second; nsec := d % Second
     return float64(sec) + float64(nsec)/1e9 *)
Definition Seconds (d : Z) : float :=
  let sec := Z.quot d Second in
  let nsec := Z.rem d Second in
  (float64_of_int64 sec + float64_of_int64 nsec / 1e9)%float.

(** *** speedTracker *)

Record speedTracker : Type := mkSpeedTracker
  { Speed : Z;
    lastTime : Z;
    lastDone : Z }.

(* &speedTracker{lastTime: time.Now()} *)
Definition newSpeedTracker (now : Z) : speedTracker :=
  mkSpeedTracker 0 now 0.

(* smoothingFactor := 0.05, that is the binary64 nearest to 0.05 *)
Definition smoothingFactor : float := 0x1.999999999999ap-5%float.

Definition rollingAvg (existing new : Z) : Z :=
  int64_of_float64
    (smoothingFactor * float64_of_int64 new
     + (1 - smoothingFactor) * float64_of_int64 existing)%float.

(* [timeNow] is what time.Now() returns inside the call.  The method
   assigns s.Speed and nothing else. *)
Definition update (s : speedTracker) (bytesNow timeNow : Z) : speedTracker * Z :=
  let newBytes := sub64 bytesNow (lastDone s) in
  let elapsed := time_Sub timeNow (lastTime s) in
  let elapsedSeconds := Seconds elapsed in
  let newSpeed := int64_of_float64 (float64_of_int64 newBytes / elapsedSeconds)%float in
  let s' := mkSpeedTracker (rollingAvg (Speed s) newSpeed) (lastTime s) (lastDone s) in
  (s', Speed s').

(* The tracker as the specification words it: the rate of a tick is the
   byte delta since the preceding tick over the time since that tick, and
   the tick becomes the new reference. *)
Definition update_spec (s : speedTracker) (bytesNow timeNow : Z) : speedTracker * Z :=
  let newBytes := sub64 bytesNow (lastDone s) in
  let elapsedSeconds := Seconds (time_Sub timeNow (lastTime s)) in
  let newSpeed := int64_of_float64 (float64_of_int64 newBytes / elapsedSeconds)%float in
  let s' := mkSpeedTracker (rollingAvg (Speed s) newSpeed) timeNow bytesNow in
  (s', Speed s').

End Util.

(** ** getter.go *)

Module Getter.
Import Int64 Util.

Definition qWaitMax : Z := 2.

(* [header] is the http.Header of the chunk's request; [b] is the buffer
   (nil is the empty list, and a buffer's capacity is its length).  The
   [rwrapper] field serves progress reports only and is left out. *)
Record chunk : Type := mkChunk
  { id : Z;
    header : gmap string (list string);
    start : Z;
    size : Z;
    b : list byte }.

(* The fields of the getter that Read, Close, nextChunk and initChunks use.
   The channels are not fields here: what arrives on readCh is an argument
   of the functions that receive from it, and a closed quit channel is the
   [closed] flag, since Close alone closes it, in the call that sets the
   flag. *)
Record getter : Type := mkGetter
  { bufsz : Z;
    err : option error;
    chunkID : Z;
    rChunk : option chunk;
    contentLen : Z;
    bytesRead : Z;
    chunkTotal : Z;
    qWait : gmap Z chunk;
    qWaitLen : Z; (* uint *)
    activeChunks : gmap Z chunk;
    sp_give : list (list byte); (* the buffers sent on g.sp.give, latest first *)
    closed : bool; (* also: g.quit and g.sp.quit are closed *)
    c_NTry : Z; (* g.c.NTry *)
    c_Concurrency : Z; (* g.c.Concurrency *)
    c_Md5Check : bool; (* g.c.Md5Check *)
    md5 : list byte; (* the bytes written to g.md5 so far *)
    cIdx : Z }.

Definition set_err (v : option error) (g : getter) : getter :=
  mkGetter (bufsz g) v (chunkID g) (rChunk g) (contentLen g) (bytesRead g)
    (chunkTotal g) (qWait g) (qWaitLen g) (activeChunks g) (sp_give g)
    (closed g) (c_NTry g) (c_Concurrency g) (c_Md5Check g) (md5 g) (cIdx g).
Definition set_chunkID (v : Z) (g : getter) : getter :=
  mkGetter (bufsz g) (err g) v (rChunk g) (contentLen g) (bytesRead g)
    (chunkTotal g) (qWait g) (qWaitLen g) (activeChunks g) (sp_give g)
    (closed g) (c_NTry g) (c_Concurrency g) (c_Md5Check g) (md5 g) (cIdx g).
Definition set_rChunk (v : option chunk) (g : getter) : getter :=
  mkGetter (bufsz g) (err g) (chunkID g) v (contentLen g) (bytesRead g)
    (chunkTotal g) (qWait g) (qWaitLen g) (activeChunks g) (sp_give g)
    (closed g) (c_NTry g) (c_Concurrency g) (c_Md5Check g) (md5 g) (cIdx g).
Definition set_bytesRead (v : Z) (g : getter) : getter :=
  mkGetter (bufsz g) (err g) (chunkID g) (rChunk g) (contentLen g) v
    (chunkTotal g) (qWait g) (qWaitLen g) (activeChunks g) (sp_give g)
    (closed g) (c_NTry g) (c_Concurrency g) (c_Md5Check g) (md5 g) (cIdx g).
Definition set_qWait (v : gmap Z chunk) (g : getter) : getter :=
  mkGetter (bufsz g) (err g) (chunkID g) (rChunk g) (contentLen g)
    (bytesRead g) (chunkTotal g) v (qWaitLen g) (activeChunks g) (sp_give g)
    (closed g) (c_NTry g) (c_Concurrency g) (c_Md5Check g) (md5 g) (cIdx g).
Definition set_qWaitLen (v : Z) (g : getter) : getter :=
  mkGetter (bufsz g) (err g) (chunkID g) (rChunk g) (contentLen g)
    (bytesRead g) (chunkTotal g) (qWait g) v (activeChunks g) (sp_give g)
    (closed g) (c_NTry g) (c_Concurrency g) (c_Md5Check g) (md5 g) (cIdx g).
Definition set_activeChunks (v : gmap Z chunk) (g : getter) : getter :=
  mkGetter (bufsz g) (err g) (chunkID g) (rChunk g) (contentLen g)
    (bytesRead g) (chunkTotal g) (qWait g) (qWaitLen g) v (sp_give g)
    (closed g) (c_NTry g) (c_Concurrency g) (c_Md5Check g) (md5 g) (cIdx g).
Definition set_sp_give (v : list (list byte)) (g : getter) : getter :=
  mkGetter (bufsz g) (err g) (chunkID g) (rChunk g) (contentLen g) (bytesRead g)
    (chunkTotal g) (qWait g) (qWaitLen g) (activeChunks g) v
    (closed g) (c_NTry g) (c_Concurrency g) (c_Md5Check g) (md5 g) (cIdx g).
Definition set_closed (v : bool) (g : getter) : getter :=
  mkGetter (bufsz g) (err g) (chunkID g) (rChunk g) (contentLen g)
    (bytesRead g) (chunkTotal g) (qWait g) (qWaitLen g) (activeChunks g)
    (sp_give g) v (c_NTry g) (c_Concurrency g) (c_Md5Check g) (md5 g)
    (cIdx g).
Definition set_md5 (v : list byte) (g : getter) : getter :=
  mkGetter (bufsz g) (err g) (chunkID g) (rChunk g) (contentLen g)
    (bytesRead g) (chunkTotal g) (qWait g) (qWaitLen g) (activeChunks g)
    (sp_give g) (closed g) (c_NTry g) (c_Concurrency g) (c_Md5Check g) v
    (cIdx g).
Definition set_cIdx (v : Z) (g : getter) : getter :=
  mkGetter (bufsz g) (err g) (chunkID g) (rChunk g) (contentLen g)
    (bytesRead g) (chunkTotal g) (qWait g) (qWaitLen g) (activeChunks g)
    (sp_give g) (closed g) (c_NTry g) (c_Concurrency g) (c_Md5Check g) (md5 g)
    v.

(** *** newGetter: what it computes from the configuration and the response *)

(* Config (s3gof3r.go); its embedded *http.Client is the transport, which
   is modelled apart *)
Record Config : Type := mkConfig
  { Concurrency : Z;
    PartSize : Z;
    NTry : Z;
    Md5Check : bool;
    Scheme : string;
    PathStyle : bool }.

(* g.chunkTotal = int((g.contentLen + g.bufsz - 1) / g.bufsz) *)
Definition chunkTotal_of (contentLen bufsz : Z) : Z :=
  div64 (sub64 (add64 contentLen bufsz) 1) bufsz.

(* the getter newGetter returns for a response with the given
   Content-Length *)
Definition newGetter_state (c : Config) (ContentLength : Z) : getter :=
  let bufsz := max64 (PartSize c) 1 in
  mkGetter bufsz None 0 None ContentLength 0 (chunkTotal_of ContentLength bufsz)
    ∅ 0 ∅ [] false (max (NTry c) 1) (max (Concurrency c) 1) (Md5Check c) [] 0.

(** *** initChunks: the chunks sent on getCh, in order

    One unit of fuel per iteration of the loop; [None] when the fuel runs
    out before [i] reaches the content length. *)

Definition range_header (i size : Z) : gmap string (list string) :=
  {[ "Range"%string :=
       [("bytes=" ++ dec i ++ "-" ++ dec (sub64 (add64 i size) 1))%string] ]}.

Fixpoint initChunks_loop (fuel : nat) (g : getter) (i id : Z) : option (list chunk) :=
  if i <? contentLen g then
    match fuel with
    | O => None
    | S fuel' =>
        let size := min64 (bufsz g) (sub64 (contentLen g) i) in
        let c := mkChunk id (range_header i size) i size [] in
        match initChunks_loop fuel' g (add64 i size) (add64 id 1) with
        | Some cs => Some (c :: cs)
        | None => None
        end
    end
  else Some [].

Definition initChunks (fuel : nat) (g : getter) : option (list chunk) :=
  initChunks_loop fuel g 0 0.

(** *** Slices *)

Definition len {A : Type} (l : list A) : Z := Z.of_nat (length l).

(* s[lo:hi]; [None] where Go panics *)
Definition slice {A : Type} (s : list A) (lo hi : Z) : option (list A) :=
  if (0 <=? lo) && (lo <=? hi) && (hi <=? len s)
  then Some (take (Z.to_nat (hi - lo)) (drop (Z.to_nat lo) s))
  else None.

(* copy(dst, src): the new contents of dst and the number of elements
   copied *)
Definition copy {A : Type} (dst src : list A) : list A * Z :=
  let n := Nat.min (length dst) (length src) in
  (take n src ++ drop n dst, Z.of_nat n).

(** *** nextChunk

    [readCh] lists the chunks the workers will send, in the order in which
    the reader receives them; an empty list means that no worker will send
    again.  The select has a second case, the closed quit channel; when both
    cases are ready Go takes either, and here the receive is taken.  Read
    reaches nextChunk only with the quit channel open, where the choice does
    not arise. *)

Fixpoint nextChunk (readCh : list chunk) (g : getter)
  : outcome (getter * list chunk * option chunk * option error) :=
  match qWait g !! chunkID g with
  | Some c =>
      let g1 := set_qWait (delete (chunkID g) (qWait g)) g in
      let g2 := set_qWaitLen (wrapu64 (qWaitLen g1 - 1)) g1 in
      if c_Md5Check g2 then
        match slice (b c) 0 (size c) with
        | Some bs => Ret (set_md5 (md5 g2 ++ bs) g2, readCh, Some c, None)
        | None => Panic "slice bounds out of range"
        end
      else Ret (g2, readCh, Some c, None)
  | None =>
      match readCh with
      | c :: rest =>
          let g1 := set_qWait (<[id c := c]> (qWait g)) g in
          nextChunk rest (set_qWaitLen (wrapu64 (qWaitLen g1 + 1)) g1)
      | [] => if closed g then Ret (g, [], None, err g) else Blocked
      end
  end.

(** *** Read

    The result holds the getter after the call, what is left of [readCh],
    the contents of [p] after the call, and the two values Read returns.
    One unit of fuel per iteration of the loop. *)

Definition read_result : Type := getter * list chunk * list byte * Z * option error.

(* the body of [if g.cIdx >= g.rChunk.size] *)
Definition chunk_complete (c : chunk) (g : getter) : getter :=
  let g1 := set_activeChunks (delete (id c) (activeChunks g)) g in
  let g2 := set_sp_give (b c :: sp_give g1) g1 in
  let g3 := set_chunkID (add64 (chunkID g2) 1) g2 in
  set_rChunk None g3.

(* if g.rChunk == nil { g.rChunk, err = g.nextChunk(); if err != nil
   { return 0, err }; g.cIdx = 0 }: the getter and the channel afterwards,
   with the error to return or the chunk to copy from; a nil chunk with a
   nil error goes on to dereference it *)
Definition ensure_rChunk (g : getter) (readCh : list chunk)
  : outcome (getter * list chunk * (error + chunk)) :=
  match rChunk g with
  | Some c => Ret (g, readCh, inr c)
  | None =>
      match nextChunk readCh g with
      | Ret (g1, readCh1, c, Some e) => Ret (set_rChunk c g1, readCh1, inl e)
      | Ret (g1, readCh1, Some c, None) =>
          Ret (set_cIdx 0 (set_rChunk (Some c) g1), readCh1, inr c)
      | Ret (g1, readCh1, None, None) => Panic "nil pointer dereference"
      | Blocked => Blocked
      | Panic m => Panic m
      | OutOfFuel => OutOfFuel
      end
  end.

(* one iteration of [for nw < len(p)], entered with nw < len(p): either
   Read returns ([inl]) or the loop goes on with a new getter, channel,
   buffer and nw ([inr]) *)
Definition Read_iter (g : getter) (readCh : list chunk) (p : list byte) (nw : Z)
  : outcome (read_result + getter * list chunk * list byte * Z) :=
  if bytesRead g =? contentLen g then Ret (inl (g, readCh, p, nw, Some EOF))
  else if bytesRead g >? contentLen g then
    Ret (inl (g, readCh, p, nw, Some (ErrTooManyBytes (contentLen g) (bytesRead g))))
  else if chunkID g >=? chunkTotal g then
    Ret (inl (g, readCh, p, nw,
              Some (ErrNoMoreChunks (contentLen g) (bytesRead g) (chunkID g) (chunkTotal g))))
  else
    match ensure_rChunk g readCh with
    | Ret (g1, readCh1, inl e) => Ret (inl (g1, readCh1, p, 0, Some e))
    | Ret (g1, readCh1, inr c) =>
        (* n := copy(p[nw:], g.rChunk.b[g.cIdx:g.rChunk.size]) *)
        match slice (b c) (cIdx g1) (size c) with
        | None => Panic "slice bounds out of range"
        | Some src =>
            let '(tail, n) := copy (drop (Z.to_nat nw) p) src in
            let p1 := take (Z.to_nat nw) p ++ tail in
            let g2 := set_cIdx (add64 (cIdx g1) n) g1 in
            let g3 := set_bytesRead (add64 (bytesRead g2) n) g2 in
            let g4 := if cIdx g3 >=? size c then chunk_complete c g3 else g3 in
            Ret (inr (g4, readCh1, p1, nw + n))
        end
    | Blocked => Blocked
    | Panic m => Panic m
    | OutOfFuel => OutOfFuel
    end.

Fixpoint Read_loop (fuel : nat) (g : getter) (readCh : list chunk)
    (p : list byte) (nw : Z) : outcome read_result :=
  if nw <? len p then
    match fuel with
    | O => OutOfFuel
    | S fuel' =>
        match Read_iter g readCh p nw with
        | Ret (inl r) => Ret r
        | Ret (inr (g1, readCh1, p1, nw1)) => Read_loop fuel' g1 readCh1 p1 nw1
        | Blocked => Blocked
        | Panic m => Panic m
        | OutOfFuel => OutOfFuel
        end
    end
  else Ret (g, readCh, p, nw, None).

Definition Read (fuel : nat) (g : getter) (readCh : list chunk) (p : list byte)
  : outcome read_result :=
  if closed g then Ret (g, readCh, p, 0, Some EINVAL)
  else
    match err g with
    | Some e => Ret (g, readCh, p, 0, Some e)
    | None => Read_loop fuel g readCh p 0
    end.

(** *** Close

    [checkMd5] stands for the method of that name: it fetches the MD5
    sidecar over HTTP and compares it with the digest of [md5 g]. *)

Definition Close (checkMd5 : getter -> option error) (g : getter)
  : getter * option error :=
  if closed g then (g, Some EINVAL)
  else
    (* g.closed = true; close(g.sp.quit); close(g.quit); g.cond.Broadcast() *)
    let g1 := set_closed true g in
    match err g1 with
    | Some e => (g1, Some e)
    | None =>
        if negb (bytesRead g1 =? contentLen g1) then
          (g1, Some (ErrShortRead (bytesRead g1) (contentLen g1)))
        else if c_Md5Check g1 then (g1, checkMd5 g1)
        else (g1, None)
    end.

End Getter.

(** ** Library models: regexp and tomb *)

Module Regexp.

(* Regular expressions of the shape s3gof3r.go compiles: a sequence of
   single-character matchers, greedy repetitions of one, and the marks of
   capture groups (groups do not nest).  Matching follows the regexp
   package: the leftmost match, and among the matches that start there the
   one a backtracking search finds first, a repetition trying its longest
   run first.  Characters are bytes, which is exact on ASCII input. *)
Inductive atom : Type :=
| Chr (c : ascii)
| Dot                         (* any character but a newline *)
| Cls (f : ascii -> bool).    (* a bracket expression *)

Inductive item : Type :=
| One (a : atom)
| Rep (least : nat) (a : atom)    (* a* is Rep 0 a, a+ is Rep 1 a *)
| GOpen
| GClose.

Definition atom_matches (a : atom) (c : ascii) : bool :=
  match a with
  | Chr c' => Ascii.eqb c' c
  | Dot => negb (Ascii.eqb c "010"%char)
  | Cls f => f c
  end.

Fixpoint run_length (a : atom) (s : list ascii) : nat :=
  match s with
  | c :: s' => if atom_matches a c then S (run_length a s') else O
  | [] => O
  end.

(* f n, else f (n-1), ..., else f 0 *)
Fixpoint first_down {A : Type} (f : nat -> option A) (n : nat) : option A :=
  match f n with
  | Some r => Some r
  | None => match n with O => None | S m => first_down f m end
  end.

(* a match of [its] at the head of [s], which stands at offset [pos]: the
   offset where the match ends and the groups' bounds, last group first *)
Fixpoint match_here (its : list item) (s : list ascii) (pos : nat)
    (opens : list nat) (caps : list (nat * nat)) : option (nat * list (nat * nat)) :=
  match its with
  | [] => Some (pos, caps)
  | One a :: r =>
      match s with
      | c :: s' => if atom_matches a c then match_here r s' (S pos) opens caps else None
      | [] => None
      end
  | Rep least a :: r =>
      first_down
        (fun n => if (least <=? n)%nat
                  then match_here r (drop n s) (pos + n)%nat opens caps
                  else None)
        (run_length a s)
  | GOpen :: r => match_here r s pos (pos :: opens) caps
  | GClose :: r =>
      match opens with
      | o :: os => match_here r s pos os ((o, pos) :: caps)
      | [] => None
      end
  end.

Definition substring_of (s : list ascii) (lo hi : nat) : string :=
  string_of_list_ascii (take (hi - lo) (drop lo s)).

(* the leftmost start, from [pos] on, at which [its] matches *)
Fixpoint find_from (its : list item) (whole : list ascii) (s : list ascii) (pos : nat)
  : list string :=
  match match_here its s pos [] [] with
  | Some (e, caps) =>
      substring_of whole pos e
        :: map (fun c => substring_of whole (fst c) (snd c)) (rev caps)
  | None =>
      match s with
      | _ :: s' => find_from its whole s' (S pos)
      | [] => []
      end
  end.

(* the method FindStringSubmatch of a compiled expression: the match and
   its groups, nil without a match *)
Definition FindStringSubmatch (its : list item) (s : string) : list string :=
  let l := list_ascii_of_string s in find_from its l l O.

Definition lit (s : string) : list item := map (fun c => One (Chr c)) (list_ascii_of_string s).

Definition between (lo hi c : ascii) : bool :=
  (nat_of_ascii lo <=? nat_of_ascii c)%nat && (nat_of_ascii c <=? nat_of_ascii hi)%nat.

End Regexp.

Module Tomb.

(* gopkg.in/tomb.v2, as its documentation describes it.  A tomb tracks the
   goroutines started with Go; it is dying from the first Kill on and dead
   once the last tracked goroutine has returned.  The reason of the death
   is the first non-nil error given to Kill (or returned by a tracked
   goroutine), nil when there is none. *)
Inductive reason : Type :=
| StillAlive                     (* tomb.ErrStillAlive *)
| Because (e : option error).

Record Tomb : Type := mkTomb
  { alive : Z;          (* tracked goroutines still running *)
    why : reason;
    dead : bool }.      (* the channel Dead() is closed *)

Definition zero : Tomb := mkTomb 0 StillAlive false.

(* the channel Dying() is closed *)
Definition dying (t : Tomb) : bool :=
  match why t with StillAlive => false | Because _ => true end.

Definition Kill (r : option error) (t : Tomb) : Tomb :=
  match why t with
  | StillAlive => mkTomb (alive t) (Because r) (dead t)
  | Because None => mkTomb (alive t) (Because r) (dead t)
  | Because (Some _) => t
  end.

Definition Err (t : Tomb) : reason := why t.

(* t.Go(f): one more tracked goroutine *)
Definition Go (t : Tomb) : Tomb := mkTomb (alive t + 1) (why t) (dead t).

(* a tracked goroutine returns [r] *)
Definition returned (r : option error) (t : Tomb) : Tomb :=
  let n := alive t - 1 in
  let t1 := mkTomb n (why t) (dead t) in
  if (n =? 0) || (match r with Some _ => true | None => false end) then
    let t2 := Kill r t1 in
    mkTomb (alive t2) (why t2) (dead t2 || (n =? 0))
  else t1.

(* Wait blocks until the tomb is dead and returns the reason *)
Definition Wait (t : Tomb) : outcome (option error) :=
  if dead t then
    match why t with
    | Because e => Ret e
    | StillAlive => Panic "tomb: dead while still alive"
    end
  else Blocked.

End Tomb.

(** ** s3gof3r.go

    The sources hold this file in two revisions.  They agree on GetReader
    and on the guard that opens GetAsync; they differ in Region, in the
    controllers' loops and in PutController.Stop.  [RevB] is the revision
    that stands with getter.go: it has MultiDelete, and the methods Stop
    and Size of GetterController, all of which the tests call.  [RevA] is
    the file named s3gof3r.go, which has none of them.  What the two
    share is stated once. *)

Module S3gof3r.
Import Int64 Util Getter Regexp.

Record S3 : Type := mkS3
  { Domain : string }.    (* the embedded Keys play no part here *)

Record Bucket : Type := mkBucket
  { B_S3 : S3;
    Name : string;
    B_Config : option Config }.

Definition mb : Z := 2 ^ 20.

Definition DefaultConfig : Config :=
  mkConfig 10 (20 * mb) 10 true "https" false.

Definition conf (b : Bucket) : Config :=
  match B_Config b with
  | Some c => c
  | None => DefaultConfig
  end.

(** *** HTTP and goroutines as effects *)

Record response : Type := mkResponse
  { StatusCode : Z;
    ContentLength : Z;
    Header : gmap string (list string);
    ErrMessage : string }.   (* <Message> of the error document in the body *)

(* what one attempt to send a request yields *)
Inductive attempt : Type :=
| BadRequest (e : error)     (* http.NewRequest failed *)
| DoFailed (e : error)       (* Client.Do failed *)
| DoOk (r : response).

Inductive effect : Type :=
| HttpDo (method url : string)      (* a signed request handed to Client.Do *)
| BufferPool (bufsz : Z)            (* bufferPool(bufsz) *)
| GoWorker                          (* go g.worker() *)
| GoInitChunks                      (* go g.initChunks() *)
| GoLoop                            (* controller.t.Go(controller.loop) *)
| GoCopy.                           (* the goroutine that runs io.Copy *)

(* the attempts made so far and the effects so far, latest first *)
Record world : Type := mkWorld
  { attempts : nat;
    effects : list effect }.

Definition emit (e : effect) (w : world) : world :=
  mkWorld (attempts w) (e :: effects w).

Definition newRespError (r : response) : error :=
  RespError (StatusCode r) (ErrMessage r).

(* strconv.ParseInt(s, 10, 64) *)
Definition ParseInt (s : string) : error + Z :=
  let parsed :=
    match s with
    | String "+"%char s' => option_map Z.of_uint (NilZero.uint_of_string s')
    | _ => option_map Z.of_int (NilZero.int_of_string s)
    end in
  match parsed with
  | None => inl (NumError "ParseInt" s "invalid syntax")
  | Some z =>
      if (min_int64 <=? z) && (z <=? max_int64) then inr z
      else inl (NumError "ParseInt" s "value out of range")
  end.

Record GetterController : Type := mkGetterController
  { gc_t : Tomb.Tomb;
    gc_st : option speedTracker;
    gc_size : Z;
    gc_getter : getter;
    gc_State : string;
    gc_Reason : string;
    gc_headers : gmap string (list string) }.

Section Transport.

(* the network: what the n-th attempt to send a request yields *)
Variable transport : nat -> attempt.
(* (b *Bucket).url, which rests on net/url and path: the URL or an error *)
Variable url : Bucket -> string -> Config -> error + string.

(* (g *getter).retryRequest with a nil body: up to [n] attempts *)
Fixpoint retryRequest (n : nat) (method urlStr : string) (resp : option response)
    (err : option error) (w : world) : option response * option error * world :=
  match n with
  | O => (resp, err, w)
  | S n' =>
      match transport (attempts w) with
      | BadRequest e => (resp, Some e, mkWorld (S (attempts w)) (effects w))
      | DoFailed e =>
          retryRequest n' method urlStr None (Some e)
            (mkWorld (S (attempts w)) (HttpDo method urlStr :: effects w))
      | DoOk r =>
          (Some r, None, mkWorld (S (attempts w)) (HttpDo method urlStr :: effects w))
      end
  end.

Fixpoint spawn_workers (n : nat) (w : world) : world :=
  match n with
  | O => w
  | S n' => spawn_workers n' (emit GoWorker w)
  end.

Definition newGetter (getURL : string) (c : Config) (w : world)
  : outcome ((error + getter * gmap string (list string)) * world) :=
  let ntry := max (NTry c) 1 in
  match retryRequest (Z.to_nat ntry) "GET" getURL None None w with
  | (_, Some e, w1) => Ret (inl e, w1)
  | (None, None, w1) => Panic "nil pointer dereference"
  | (Some resp, None, w1) =>
      if negb (StatusCode resp =? 200) then Ret (inl (newRespError resp), w1)
      else if ContentLength resp =? -1 then Ret (inl ErrUndefinedLength, w1)
      else
        let g := newGetter_state c (ContentLength resp) in
        let w2 := emit (BufferPool (bufsz g)) w1 in
        let w3 := spawn_workers (Z.to_nat (c_Concurrency g)) w2 in
        Ret (inr (g, Header resp), emit GoInitChunks w3)
  end.

Definition GetReader (b : Bucket) (path : string) (c : option Config) (w : world)
  : outcome ((error + getter * gmap string (list string)) * world) :=
  if String.eqb path "" then Ret (inl (ErrorString "empty path requested"), w)
  else
    let c := match c with Some c => c | None => conf b end in
    match url b path c with
    | inl e => Ret (inl e, w)
    | inr u => newGetter u c w
    end.

End Transport.

(** *** The put controller

    putter.go is not among the sources; of the putter, s3gof3r.go reads
    and writes the sticky error, the retry count of the configuration and
    the tracked readers of the parts listed in [xml.Part]. *)

Record putter : Type := mkPutter
  { p_err : option error;
    p_NTry : Z;                      (* p.c.NTry *)
    p_parts_closed : list bool;      (* part.rwrapper.closed, for each part of p.xml.Part *)
    p_BytesDone : Z }.

Record PutController : Type := mkPutController
  { pc_t : Tomb.Tomb;
    pc_putter : putter;
    pc_st : option speedTracker;
    pc_State : string;
    pc_Reason : string }.

Definition set_State (v : string) (p : PutController) : PutController :=
  mkPutController (pc_t p) (pc_putter p) (pc_st p) v (pc_Reason p).
Definition set_Reason (v : string) (p : PutController) : PutController :=
  mkPutController (pc_t p) (pc_putter p) (pc_st p) (pc_State p) v.
Definition set_t (v : Tomb.Tomb) (p : PutController) : PutController :=
  mkPutController v (pc_putter p) (pc_st p) (pc_State p) (pc_Reason p).
Definition set_putter (v : putter) (p : PutController) : PutController :=
  mkPutController (pc_t p) v (pc_st p) (pc_State p) (pc_Reason p).
Definition set_st (v : option speedTracker) (p : PutController) : PutController :=
  mkPutController (pc_t p) (pc_putter p) v (pc_State p) (pc_Reason p).

(* the controller PutAsync builds, once t.Go(pc.loop) has run *)
Definition newPutController (pt : putter) (now : Z) : PutController :=
  mkPutController (Tomb.Go Tomb.zero) pt (Some (newSpeedTracker now)) "Ready" "".

(* the timer case of the loop's select: p.st.update(p.BytesDone()) *)
Definition loop_tick (now : Z) (p : PutController) : outcome PutController :=
  match pc_st p with
  | Some s => Ret (set_st (Some (fst (update s (p_BytesDone (pc_putter p)) now))) p)
  | None => Panic "nil pointer dereference"
  end.

Fixpoint loop_ticks (ticks : list Z) (p : PutController) : outcome PutController :=
  match ticks with
  | [] => Ret p
  | now :: rest =>
      match loop_tick now p with
      | Ret p1 => loop_ticks rest p1
      | o => o
      end
  end.

(* The upload is in progress: the loop goroutine is the one goroutine the
   tomb tracks, and nothing has killed the tomb. *)
Definition in_progress (p : PutController) : Prop :=
  Tomb.alive (pc_t p) = 1 /\ Tomb.why (pc_t p) = Tomb.StillAlive
  /\ Tomb.dead (pc_t p) = false.


Module RevB.

Section Transport.
Variable transport : nat -> attempt.
Variable url : Bucket -> string -> Config -> error + string.

(* [now] is the clock reading newSpeedTracker takes *)
Definition GetAsync (b : Bucket) (path : string) (c : option Config) (now : Z)
    (w : world) : outcome ((error + GetterController) * world) :=
  if String.eqb path "" then Ret (inl (ErrorString "empty path requested"), w)
  else
    let c := match c with Some c => c | None => conf b end in
    match url b path c with
    | inl e => Ret (inl e, w)
    | inr u =>
        match newGetter transport u c w with
        | Ret (inl e, w1) => Ret (inl e, w1)
        | Ret (inr (getReader, headers), w1) =>
            match headers !! "Content-Length"%string with
            | Some (sizeStr :: _) =>
                match ParseInt sizeStr with
                | inl e => Ret (inl e, w1)
                | inr size =>
                    let controller :=
                      mkGetterController (Tomb.Go Tomb.zero) (Some (newSpeedTracker now))
                        size getReader "Ready" "" headers in
                    Ret (inr controller, emit GoCopy (emit GoLoop w1))
                end
            | _ => Panic "index out of range"
            end
        | Blocked => Blocked
        | Panic m => Panic m
        | OutOfFuel => OutOfFuel
        end
    end.

End Transport.


(** Region *)

(* the expression given to regexp.MustCompile, and its reading *)
Definition regionMatcher_source : string :=
  "s3[-.]([a-z0-9-]+).amazonaws.com([.a-z0-9]*)".

Definition regionMatcher : list item :=
  lit "s3"
  ++ [One (Cls (fun c => Ascii.eqb c "-" || Ascii.eqb c "."));
      GOpen;
      Rep 1 (Cls (fun c => between "a" "z" c || between "0" "9" c || Ascii.eqb c "-"));
      GClose;
      One Dot]
  ++ lit "amazonaws" ++ [One Dot] ++ lit "com"
  ++ [GOpen;
      Rep 0 (Cls (fun c => Ascii.eqb c "." || between "a" "z" c || between "0" "9" c));
      GClose].

(* [AWS_REGION] is os.Getenv("AWS_REGION") *)
Definition Region (AWS_REGION : string) (s : S3) : outcome string :=
  let region := AWS_REGION in
  if String.eqb (Domain s) "s3.amazonaws.com"
     || String.eqb (Domain s) "s3-external-1.amazonaws.com"
  then Ret "us-east-1"%string
  else if String.eqb (Domain s) "s3-accelerate.amazonaws.com" then
    if String.eqb region "" then Panic "can't find endpoint region"
    else Ret region
  else
    let regions := FindStringSubmatch regionMatcher (Domain s) in
    if (length regions <? 2)%nat then
      if String.eqb region "" then Panic "can't find endpoint region"
      else Ret region
    else Ret (nth 1 regions ""%string).

(** PutController *)

(* the Dying case of the loop's select, up to the goroutine's return *)
Definition loop_dying (p : PutController) : PutController :=
  let pt := pc_putter p in
  let pt1 :=
    match p_parts_closed pt with
    | [] => pt
    | _ => mkPutter (p_err pt) 0 (map (fun _ => true) (p_parts_closed pt)) (p_BytesDone pt)
    end in
  let p1 := set_putter pt1 p in
  let killReason := Tomb.Err (pc_t p1) in
  let p2 :=
    match killReason with
    | Tomb.Because (Some ErrStopped) => set_State "Stopped" p1
    | _ => p1
    end in
  set_t (Tomb.returned None (pc_t p2)) p2.

(* The loop goroutine from where it stands to its return, the tomb being
   killed: [started] says whether it has already set the State to
   Uploading, [ticks] are the clock readings of the rounds in which the
   select takes the timer before it takes Dying. *)
Definition loop_finish (started : bool) (ticks : list Z) (p : PutController)
  : outcome PutController :=
  let p0 := if started then p else set_State "Uploading" p in
  match loop_ticks ticks p0 with
  | Ret p1 => Ret (loop_dying p1)
  | o => o
  end.

(* func (p *PutController) Stop() (err error):
     p.putter.err = ErrStopped
     p.t.Kill(ErrStopped)
     err = p.t.Wait()
     //p.Reason = err.Error()
     return err
   Wait returns once the loop goroutine has returned. *)
Definition Stop (started : bool) (ticks : list Z) (p : PutController)
  : outcome (PutController * option error) :=
  let pt := pc_putter p in
  let p1 := set_putter (mkPutter (Some ErrStopped) (p_NTry pt) (p_parts_closed pt)
                          (p_BytesDone pt)) p in
  let p2 := set_t (Tomb.Kill (Some ErrStopped) (pc_t p1)) p1 in
  let waited :=
    if Tomb.dead (pc_t p2) then Ret p2
    else if Tomb.alive (pc_t p2) =? 1 then loop_finish started ticks p2
    else Blocked in
  match waited with
  | Ret p3 =>
      match Tomb.Wait (pc_t p3) with
      | Ret err => Ret (p3, err)
      | Blocked => Blocked
      | Panic m => Panic m
      | OutOfFuel => OutOfFuel
      end
  | Blocked => Blocked
  | Panic m => Panic m
  | OutOfFuel => OutOfFuel
  end.

End RevB.

Module RevA.

Section Transport.
Variable transport : nat -> attempt.
Variable url : Bucket -> string -> Config -> error + string.

Definition GetAsync (b : Bucket) (path : string) (c : option Config) (now : Z)
    (w : world) : outcome ((error + GetterController) * world) :=
  if String.eqb path "" then Ret (inl (ErrorString "empty path requested"), w)
  else
    let c := match c with Some c => c | None => conf b end in
    match url b path c with
    | inl e => Ret (inl e, w)
    | inr u =>
        match newGetter transport u c w with
        | Ret (inl e, w1) => Ret (inl e, w1)
        | Ret (inr (getReader, _), w1) =>
            (* this revision's controller has no size and no headers *)
            let controller :=
              mkGetterController (Tomb.Go Tomb.zero) (Some (newSpeedTracker now))
                0 getReader "Ready" "" ∅ in
            Ret (inr controller, emit GoCopy (emit GoLoop w1))
        | Blocked => Blocked
        | Panic m => Panic m
        | OutOfFuel => OutOfFuel
        end
    end.

End Transport.


(** Region *)

(* the expression given to regexp.MustCompile, and its reading *)
Definition regionMatcher_source : string :=
  "s3-([a-z0-9-]+).amazonaws.com".

Definition regionMatcher : list item :=
  lit "s3-"
  ++ [GOpen;
      Rep 1 (Cls (fun c => between "a" "z" c || between "0" "9" c || Ascii.eqb c "-"));
      GClose;
      One Dot]
  ++ lit "amazonaws" ++ [One Dot] ++ lit "com".

Definition Region (AWS_REGION : string) (s : S3) : outcome string :=
  if String.eqb (Domain s) "s3.amazonaws.com"
     || String.eqb (Domain s) "s3-external-1.amazonaws.com"
  then Ret "us-east-1"%string
  else
    let regions := FindStringSubmatch regionMatcher (Domain s) in
    if (length regions <? 2)%nat then
      if negb (String.eqb AWS_REGION "") then Ret AWS_REGION
      else Panic "can't find endpoint region"
    else Ret (nth 1 regions ""%string).

(** PutController *)

Definition loop_dying (p : PutController) : PutController :=
  let p1 := set_st None p in
  let pt := pc_putter p1 in
  let p2 := set_putter (mkPutter (p_err pt) (p_NTry pt)
                          (map (fun _ => true) (p_parts_closed pt)) (p_BytesDone pt)) p1 in
  set_t (Tomb.returned None (pc_t p2)) p2.

Definition loop_finish (started : bool) (ticks : list Z) (p : PutController)
  : outcome PutController :=
  let p0 := if started then p else set_State "Uploading" p in
  match loop_ticks ticks p0 with
  | Ret p1 => Ret (loop_dying p1)
  | o => o
  end.

(* func (p *PutController) Stop() (err error):
     p.t.Kill(ErrStopped)
     err = p.t.Wait()
     p.State = "Failed"
     p.Reason = err.Error()
     return *)
Definition Stop (started : bool) (ticks : list Z) (p : PutController)
  : outcome (PutController * option error) :=
  let p2 := set_t (Tomb.Kill (Some ErrStopped) (pc_t p)) p in
  let waited :=
    if Tomb.dead (pc_t p2) then Ret p2
    else if Tomb.alive (pc_t p2) =? 1 then loop_finish started ticks p2
    else Blocked in
  match waited with
  | Ret p3 =>
      match Tomb.Wait (pc_t p3) with
      | Ret err =>
          let p4 := set_State "Failed" p3 in
          match err with
          | Some e => Ret (set_Reason (Error e) p4, err)
          | None => Panic "nil pointer dereference"
          end
      | Blocked => Blocked
      | Panic m => Panic m
      | OutOfFuel => OutOfFuel
      end
  | Blocked => Blocked
  | Panic m => Panic m
  | OutOfFuel => OutOfFuel
  end.

End RevA.

End S3gof3r.

(** ** The getter's goroutines as a transition system

    The dispatcher (initChunks), the workers (worker, retryGetChunk,
    getChunk) and the reader (Read, nextChunk) run concurrently.  A state
    records where each goroutine stands and the shared fields that decide
    what it may do next; a label names the goroutine that moves.

    - A send and its receive on the unbuffered channels getCh and readCh
      are one step, taken by the two parties together.
    - g.qWait is touched by the reader alone, so the reader's receive and
      its [g.qWait[c.id] = c] are one step, and so are its lookup, delete
      and [g.qWaitLen--].
    - g.qWaitLen is read by the workers, under the mutex of g.cond.  After
      a receive the reader has yet to take the mutex for [g.qWaitLen++],
      and the worker that sent may take it first: the increment is a step
      of its own.
    - A worker that leaves the gate because the getter is closed returns
      with the mutex held; the system below lets the others go on, which
      only adds behaviours.  A parked worker may leave as soon as the test
      allows it, signal or not, which only adds behaviours as well.
    - The buffer pool hands out a buffer whenever asked, allocating when
      it has none. *)

Module Pipeline.
Import Int64.

Definition qWaitMax : Z := Getter.qWaitMax.

Inductive wstate : Type :=
| WIdle               (* at [for c := range g.getCh] *)
| WFetching (c : Z)   (* in retryGetChunk, before the chunk is sent *)
| WSending (c : Z)    (* at [g.readCh <- c] *)
| WParked             (* past the send, at [for g.qWaitLen >= qWaitMax] *)
| WDone.              (* getCh is closed and drained: worker has returned *)

Inductive rstate : Type :=
| RNeed      (* rChunk is nil: the reader's next step is in nextChunk *)
| RCount     (* in nextChunk, a chunk received and stored, before [g.qWaitLen++] *)
| RHave.     (* rChunk is set: the reader copies out of it *)

Record state : Type := mkState
  { next : Z;              (* id of the chunk initChunks sends next *)
    chunkTotal : Z;
    workers : list wstate;
    qWait : gset Z;        (* the ids that are keys of g.qWait *)
    qWaitLen : Z;          (* uint *)
    chunkID : Z;
    reader : rstate;
    closed : bool }.

Inductive label : Type :=
| Dispatch (i : nat)   (* initChunks sends the next chunk, worker i receives it *)
| Fetched (i : nat)    (* worker i has read the body in full *)
| Failed (i : nat)     (* worker i has used up its attempts *)
| Publish (i : nat)    (* worker i sends on readCh; nextChunk receives and stores *)
| Count                (* nextChunk: g.qWaitLen++ *)
| Take                 (* nextChunk finds g.qWait[g.chunkID]: delete, g.qWaitLen-- *)
| ChunkDone            (* Read has copied the last byte of rChunk *)
| Gate (i : nat)       (* worker i leaves [for g.qWaitLen >= qWaitMax] *)
| Exit (i : nat)       (* worker i finds getCh closed *)
| DoClose.             (* Close sets g.closed *)

Definition set_worker (i : nat) (w : wstate) (s : state) : state :=
  mkState (next s) (chunkTotal s) (<[i := w]> (workers s)) (qWait s) (qWaitLen s)
    (chunkID s) (reader s) (closed s).

(* the reader is at the top of nextChunk's loop (Read calls nextChunk only
   while chunkID < chunkTotal) *)
Definition in_nextChunk (s : state) : bool :=
  match reader s with
  | RNeed => chunkID s <? chunkTotal s
  | _ => false
  end.

Definition step (l : label) (s : state) : option state :=
  match l with
  | Dispatch i =>
      match workers s !! i with
      | Some WIdle =>
          if next s <? chunkTotal s then
            Some (mkState (next s + 1) (chunkTotal s) (<[i := WFetching (next s)]> (workers s))
                    (qWait s) (qWaitLen s) (chunkID s) (reader s) (closed s))
          else None
      | _ => None
      end
  | Fetched i =>
      match workers s !! i with
      | Some (WFetching c) => Some (set_worker i (WSending c) s)
      | _ => None
      end
  | Failed i =>
      match workers s !! i with
      | Some (WFetching c) => Some (set_worker i WIdle s)
      | _ => None
      end
  | Publish i =>
      match workers s !! i with
      | Some (WSending c) =>
          if in_nextChunk s && negb (bool_decide (chunkID s ∈ qWait s)) then
            Some (mkState (next s) (chunkTotal s) (<[i := WParked]> (workers s))
                    ({[c]} ∪ qWait s) (qWaitLen s) (chunkID s) RCount (closed s))
          else None
      | _ => None
      end
  | Count =>
      match reader s with
      | RCount =>
          Some (mkState (next s) (chunkTotal s) (workers s) (qWait s)
                  (wrapu64 (qWaitLen s + 1)) (chunkID s) RNeed (closed s))
      | _ => None
      end
  | Take =>
      if in_nextChunk s && bool_decide (chunkID s ∈ qWait s) then
        Some (mkState (next s) (chunkTotal s) (workers s)
                (qWait s ∖ {[chunkID s]}) (wrapu64 (qWaitLen s - 1))
                (chunkID s) RHave (closed s))
      else None
  | ChunkDone =>
      match reader s with
      | RHave =>
          Some (mkState (next s) (chunkTotal s) (workers s) (qWait s) (qWaitLen s)
                  (chunkID s + 1) RNeed (closed s))
      | _ => None
      end
  | Gate i =>
      match workers s !! i with
      | Some WParked =>
          if (qWaitLen s <? qWaitMax) || closed s then Some (set_worker i WIdle s)
          else None
      | _ => None
      end
  | Exit i =>
      match workers s !! i with
      | Some WIdle =>
          if next s <? chunkTotal s then None else Some (set_worker i WDone s)
      | _ => None
      end
  | DoClose =>
      if closed s then None
      else Some (mkState (next s) (chunkTotal s) (workers s) (qWait s) (qWaitLen s)
                   (chunkID s) (reader s) true)
  end.

Fixpoint run (ls : list label) (s : state) : option state :=
  match ls with
  | [] => Some s
  | l :: ls' =>
      match step l s with
      | Some s' => run ls' s'
      | None => None
      end
  end.

(* newGetter has returned: [concurrency] workers wait for chunks, nothing
   is dispatched, the reader has no chunk *)
Definition init (concurrency : nat) (total : Z) : state :=
  mkState 0 total (replicate concurrency WIdle) ∅ 0 0 RNeed false.

Definition reachable (concurrency : nat) (total : Z) (s : state) : Prop :=
  exists ls, run ls (init concurrency total) = Some s.

Definition is_parked (w : wstate) : bool :=
  match w with WParked => true | _ => false end.

Fixpoint parked (ws : list wstate) : Z :=
  match ws with
  | [] => 0
  | w :: ws' => (if is_parked w then 1 else 0) + parked ws'
  end.

(* 1 while the reader owes a [g.qWaitLen++] *)
Definition pending (s : state) : Z :=
  match reader s with RCount => 1 | _ => 0 end.

End Pipeline.

(** ** The vocabulary of the properties, and the inputs of the examples *)

Module GetterSpec.
Import Int64 Util Getter.

(* A getter in use: it is the one newGetter made for a response of
   content length [L], or it comes from such a getter by a Read that
   returned; the second index adds up the byte counts the Reads gave back
   to the consumer.  No buffer is so large that the count could pass the
   int64 range. *)
Inductive session (c : Config) (L : Z) : getter -> Z -> Prop :=
| session_new : session c L (newGetter_state c L) 0
| session_Read (g : getter) (d : Z) (fuel : nat) (readCh : list chunk) (p : list byte)
    (g' : getter) (ch' : list chunk) (p' : list byte) (n : Z) (e : option error) :
    session c L g d ->
    d + len p <= max_int64 ->
    Read fuel g readCh p = Ret (g', ch', p', n, e) ->
    session c L g' (d + n).

(* every chunk the reader holds or will receive has a size that is an
   int64 *)
Definition sizes_ok (g : getter) (readCh : list chunk) : Prop :=
  (forall c, rChunk g = Some c -> in_range (size c))
  /\ (forall k c, qWait g !! k = Some c -> in_range (size c))
  /\ Forall (fun c => in_range (size c)) readCh.

(* the call came to an end: it returned, or it blocks, or it panicked *)
Definition ends {A : Type} (o : outcome A) : Prop :=
  match o with
  | OutOfFuel => False
  | _ => True
  end.

(* chunk [k] of an object of [L] bytes cut into parts of [P] bytes *)
Definition chunk_at (L P k : Z) : chunk :=
  let sz := Z.min P (L - k * P) in
  mkChunk k
    {[ "Range"%string := [("bytes=" ++ dec (k * P) ++ "-" ++ dec (k * P + sz - 1))%string] ]}
    (k * P) sz [].

(* a getter in the middle of a download whose sticky error is ErrStopped:
   4 of 10 bytes read, MD5 check on *)
Definition stopped_getter : getter :=
  set_err (Some ErrStopped)
    (set_bytesRead 4 (newGetter_state (mkConfig 2 5 1 true "https" false) 10)).

(* the getter of a one-chunk object of three bytes and that chunk; the
   getter of an empty object *)
Definition three_bytes : list byte := [x61; x62; x63]%byte.
Definition getter3 : getter := newGetter_state (mkConfig 1 5 1 false "https" false) 3.
Definition chunk3 : chunk := mkChunk 0 (range_header 0 3) 0 3 three_bytes.
Definition getter0 : getter := newGetter_state (mkConfig 1 5 1 false "https" false) 0.

End GetterSpec.

Module PipelineSpec.
Import Int64 Pipeline.

(* while the getter is open: qWaitLen, with the increment the reader owes,
   counts at least the keys of qWait, and exceeds the number of parked
   workers by two at most *)
Definition inv (s : state) : Prop :=
  closed s = false ->
  Z.of_nat (size (qWait s)) <= qWaitLen s + pending s
  /\ 0 <= qWaitLen s
  /\ qWaitLen s + pending s <= 2 + parked (workers s).

(* three workers, four chunks; chunk 0 is slow: its worker is still
   fetching while the other two publish chunks 1, 2 and 3 *)
Definition slow_first_chunk : list label :=
  [Dispatch 0; Dispatch 1; Dispatch 2;
   Fetched 1; Publish 1; Count; Gate 1; Dispatch 1;
   Fetched 2; Publish 2; Count;
   Fetched 1; Publish 1; Count]%nat.

Definition three_waiting : state :=
  mkState 4 4 [WFetching 0; WParked; WParked] {[1; 2; 3]} 3 0 RNeed false.

End PipelineSpec.

Module S3gof3rSpec.
Import Int64 Util Getter Regexp S3gof3r.

Definition us_east_1_endpoint (d : string) : Prop :=
  d = "s3.amazonaws.com"%string \/ d = "s3-external-1.amazonaws.com"%string.

Definition accelerate_endpoint : string := "s3-accelerate.amazonaws.com".

Definition panic_message : string := "can't find endpoint region".

(* the domains for which the revision [RevB] turns to AWS_REGION *)
Definition needs_AWS_REGION (d : string) : Prop :=
  ~ us_east_1_endpoint d
  /\ (d = accelerate_endpoint
      \/ (length (FindStringSubmatch RevB.regionMatcher d) < 2)%nat).

(* a PutAsync of 1 MiB with 200 KiB sent, one part in flight *)
Definition upload_in_progress : PutController :=
  set_State "Uploading" (newPutController (mkPutter None 10 [false] (200 * 2 ^ 10)) 0).

End S3gof3rSpec.

(** ** Reassembly: the vocabulary *)

Module ReassemblySpec.
Import Int64 Util Getter GetterSpec.

(* the data of a chunk: c.b[:c.size] *)
Definition payload (c : chunk) : list byte := take (Z.to_nat (size c)) (b c).

(* The chunks of an object, in id order: the k-th has id k, and its buffer
   holds its [size] bytes. *)
Definition object_chunks (cs : list chunk) : Prop :=
  forall (k : nat) (c : chunk),
    cs !! k = Some c ->
    id c = Z.of_nat k /\ 0 <= size c <= len (b c) /\ size c <= max_int64.

(* the id of the first chunk the reader has not taken out of qWait yet *)
Definition next_id (g : getter) : Z :=
  match rChunk g with
  | Some _ => chunkID g + 1
  | None => chunkID g
  end.

(* the bytes the consumer has not been given yet *)
Definition remaining (cs : list chunk) (g : getter) : list byte :=
  match rChunk g with
  | Some c => drop (Z.to_nat (cIdx g)) (payload c)
  | None => []
  end ++ concat (map payload (drop (Z.to_nat (next_id g)) cs)).

(* A getter in the middle of the download of the object whose chunks are
   [cs], with [readCh] what the workers will send: whatever waits in qWait
   or will arrive is a chunk of the object, and every chunk from [next_id]
   on waits or will arrive, in any order. *)
Record reassembling (check : bool) (L : Z) (cs : list chunk) (g : getter)
    (readCh : list chunk) : Prop :=
  { ra_open : closed g = false;
    ra_err : err g = None;
    ra_total : chunkTotal g = len cs;
    ra_fits : len cs <= max_int64;
    ra_id : 0 <= chunkID g <= len cs;
    ra_len : contentLen g = L /\ L <= max_int64;
    ra_count : bytesRead g + len (remaining cs g) = contentLen g;
    ra_read : 0 <= bytesRead g;
    ra_rChunk : forall c, rChunk g = Some c ->
                  cs !! Z.to_nat (chunkID g) = Some c /\ 0 <= cIdx g <= size c;
    ra_qWait : forall k c, qWait g !! k = Some c -> 0 <= k /\ cs !! Z.to_nat k = Some c;
    ra_readCh : Forall (fun c => 0 <= id c /\ cs !! Z.to_nat (id c) = Some c) readCh;
    ra_avail : forall k, next_id g <= k < len cs ->
                 is_Some (qWait g !! k) \/ Exists (fun c => id c = k) readCh;
    ra_check : c_Md5Check g = check;
    ra_md5 : check = true ->
             md5 g = concat (map payload (take (Z.to_nat (next_id g)) cs)) }.

(* A consumer in the manner of io.Copy: it calls Read with a buffer of each
   of the given lengths in turn, keeps what each call delivered, p[:n], and
   stops at the first error. *)
Fixpoint consume (fuel : nat) (g : getter) (readCh : list chunk) (bufs : list nat)
  : outcome (getter * list chunk * list byte * option error) :=
  match bufs with
  | [] => Ret (g, readCh, [], None)
  | m :: bufs' =>
      match Read fuel g readCh (replicate m x00%byte) with
      | Ret (g1, ch1, p1, n, None) =>
          match consume fuel g1 ch1 bufs' with
          | Ret (g2, ch2, out, e) => Ret (g2, ch2, take (Z.to_nat n) p1 ++ out, e)
          | o => o
          end
      | Ret (g1, ch1, p1, n, Some e) => Ret (g1, ch1, take (Z.to_nat n) p1, Some e)
      | Blocked => Blocked
      | Panic msg => Panic msg
      | OutOfFuel => OutOfFuel
      end
  end.

(* retryGetChunk gives the chunk a buffer of the pool, c.b = <-g.sp.get,
   and getChunk reads the body into it *)
Definition fill (c : chunk) (buf : list byte) : chunk :=
  mkChunk (id c) (header c) (start c) (size c) buf.

(* A download of the object of [L] bytes under the configuration [c]:
   [cs] are the chunks initChunks sends, each with a buffer of the pool
   (bufsz bytes) that holds its data, and [readCh] is the order in which
   the workers get to send them. *)
Definition download (c : Config) (L : Z) (cs readCh : list chunk) : Prop :=
  exists (fuel : nat) (sent : list chunk) (bufs : list (list byte)),
    initChunks fuel (newGetter_state c L) = Some sent
    /\ Forall (fun buf => len buf = bufsz (newGetter_state c L)) bufs
    /\ length bufs = length sent
    /\ cs = zip_with fill sent bufs
    /\ readCh ≡ₚ cs.

(* an object of five bytes in parts of two: three chunks, of which the
   last arrives first *)
Definition config5 : Config := mkConfig 2 2 1 true "https" false.
Definition getter5 : getter := newGetter_state config5 5.
Definition sent5 : list chunk := [chunk_at 5 2 0; chunk_at 5 2 1; chunk_at 5 2 2].
Definition bufs5 : list (list byte) := [[x61; x62]; [x63; x64]; [x65; x00]]%byte.
Definition chunks5 : list chunk := zip_with fill sent5 bufs5.
Definition arrival5 : list chunk :=
  [fill (chunk_at 5 2 2) [x65; x00]%byte] ++ [fill (chunk_at 5 2 0) [x61; x62]%byte;
                                             fill (chunk_at 5 2 1) [x63; x64]%byte].

End ReassemblySpec.

(** ** getter.go: listing a bucket *)

Module Listing.
Import Int64 Util S3gof3r.

(* [LastModified] is a time.Time, kept as its clock reading *)
Record KeyContent : Type := mkKeyContent
  { Key : string;
    LastModified : Z;
    kc_Size : Z;
    StorageClass : string }.

(* the XMLName field, which names the element to decode, is left to the
   decoder; CommonPrefixes is a []struct{ Prefix string } *)
Record ListBucketResult : Type := mkListBucketResult
  { lbr_Name : string;
    Prefix : string;
    Contents : list KeyContent;
    CommonPrefixes : list string;
    IsTruncated : bool;
    ContinuationToken : string;
    NextContinuationToken : string }.

Record ListBucketContainer : Type := mkListBucketContainer
  { results : list ListBucketResult }.

(* for _, container := range r.results {
     for _, keycontent := range container.Contents {
       keys = append(keys, keycontent.Key) } } *)
Definition ListKeys (r : ListBucketContainer) : list string :=
  fold_left
    (fun keys container =>
       fold_left (fun keys keycontent => keys ++ [Key keycontent]) (Contents container) keys)
    (results r) [].

Definition ListKeyContents (r : ListBucketContainer) : list KeyContent :=
  fold_left
    (fun keys container => fold_left (fun keys kc => keys ++ [kc]) (Contents container) keys)
    (results r) [].

Definition Dirs (r : ListBucketContainer) : list string :=
  fold_left
    (fun dirs container =>
       fold_left (fun dirs commonPrefix => dirs ++ [commonPrefix])
         (CommonPrefixes container) dirs)
    (results r) [].

(** *** listObjectsGeneric *)

(* url.Values, and its method Add *)
Definition Values : Type := gmap string (list string).

Definition Add (key value : string) (v : Values) : Values :=
  <[key := default [] (v !! key) ++ [value]]> v.

(* a request handed to client.Do: the URL it was made for and the query
   that replaced the URL's own, before its encoding *)
Record list_request : Type := mkListRequest
  { lr_url : string;
    lr_query : Values }.

(* what the request of one iteration meets *)
Inductive page_attempt : Type :=
| NewRequestFails (e : error)       (* http.NewRequest returns an error *)
| DoFails (e : error)               (* client.Do returns an error *)
| DoReturns (body : list byte).     (* a response, of any status, with this body *)

Definition maxIters : nat := 100.

(* q := req.URL.Query(); q.Add("prefix", prefix); ...: the query of the
   URL is list-type=2 *)
Definition page_query (prefix delimiter continuationToken : string) : Values :=
  let q : Values := {[ "list-type"%string := ["2"%string] ]} in
  let q := Add "prefix" prefix q in
  let q := if String.eqb delimiter "" then q else Add "delimiter" delimiter q in
  if String.eqb continuationToken "" then q
  else Add "continuation-token" continuationToken q.

(* url := "https://" + b.Name + ".s3.amazonaws.com/?list-type=2" *)
Definition list_url (b : Bucket) : string :=
  ("https://" ++ Name b ++ ".s3.amazonaws.com/?list-type=2")%string.

Section ListObjects.

(* the network, by the number [i] of the iteration, and xml.Unmarshal
   into a ListBucketResult *)
Variable transport : nat -> page_attempt.
Variable Unmarshal : list byte -> error + ListBucketResult.

(* for i := 1; i <= maxIters; i = i + 1 { ... }: [left] counts the
   iterations from [i] to maxIters; [sent] lists the requests handed to
   client.Do, in order *)
Fixpoint listObjects_loop (left i : nat) (prefix delimiter : string) (b : Bucket)
    (continuationToken : string) (container : list ListBucketResult)
    (sent : list list_request) : (error + ListBucketContainer) * list list_request :=
  match left with
  | O =>
      (inl (ErrorString ("List results exceeded maximum number of pages: "
                           ++ dec (Z.of_nat maxIters))), sent)
  | S left' =>
      let url := list_url b in
      match transport i with
      | NewRequestFails e => (inl e, sent)
      | DoFails e =>
          (inl e, sent ++ [mkListRequest url (page_query prefix delimiter continuationToken)])
      | DoReturns body =>
          let sent1 :=
            sent ++ [mkListRequest url (page_query prefix delimiter continuationToken)] in
          match Unmarshal body with
          | inl e => (inl e, sent1)
          | inr myResult =>
              let container1 := container ++ [myResult] in
              if negb (String.eqb (NextContinuationToken myResult) "") then
                listObjects_loop left' (S i) prefix delimiter b
                  (NextContinuationToken myResult) container1 sent1
              else (inr (mkListBucketContainer container1), sent1)
          end
      end
  end.

Definition listObjectsGeneric (prefix delimiter : string) (b : Bucket)
  : (error + ListBucketContainer) * list list_request :=
  listObjects_loop maxIters 1 prefix delimiter b "" [] [].



End ListObjects.

End Listing.

Module ListingSpec.
Import Listing.

(* a listing of three keys in two pages, and a listing that never ends *)
Definition page1 : ListBucketResult :=
  mkListBucketResult "bucket" "logs/"
    [mkKeyContent "logs/a" 0 1 "STANDARD"; mkKeyContent "logs/b" 0 2 "STANDARD"]
    [] true "" "token-1".
Definition page2 : ListBucketResult :=
  mkListBucketResult "bucket" "logs/" [mkKeyContent "logs/c" 0 3 "STANDARD"]
    [] false "token-1" "".


Definition decode (body : list byte) : error + ListBucketResult :=
  match body with
  | [x01%byte] => inr page1
  | [x02%byte] => inr page2
  | _ => inl (ErrorString "EOF")
  end.

Definition endless (_ : nat) : page_attempt := DoReturns [x01%byte].

End ListingSpec.

(** ** s3gof3r.go: deleting keys *)

Module Deletion.
Import Int64 Util Getter S3gof3r Listing.

(* what b.conf().Do(&r) returns *)
Inductive do_result : Type :=
| DoError (e : error)
| DoResponse (r : response).

(* the requests handed to the client: a DELETE of a URL, or the POST of a
   MultiDeleteRequest to a URL whose query was set from [RawQuery] (the
   url.Values before their encoding) *)
Inductive request : Type :=
| DELETE (u : string)
| POST (u : string) (RawQuery : Values) (Quiet : bool) (Objects : list string).

(* the calls of Do so far, and the requests they were given, in order *)
Record net : Type := mkNet
  { calls : nat;
    sent : list request }.

(* resp, err := b.conf().Do(&r); if err != nil { return err }
   if resp.StatusCode != want { return newRespError(resp) }; return nil *)
Definition answer (r : do_result) (want : Z) : option error :=
  match r with
  | DoError e => Some e
  | DoResponse resp =>
      if negb (StatusCode resp =? want) then Some (newRespError resp) else None
  end.

Definition chunkSize : Z := 1000.

Section Transport.

(* the network: what the n-th call of Do returns *)
Variable transport : nat -> do_result.
Variable url : Bucket -> string -> Config -> error + string.

Definition delete (b : Bucket) (path : string) (w : net) : option error * net :=
  match url b path (conf b) with
  | inl e => (Some e, w)
  | inr u => (answer (transport (calls w)) 204, mkNet (S (calls w)) (sent w ++ [DELETE u]))
  end.

Definition Delete (b : Bucket) (path : string) (w : net) : option error * net :=
  match delete b path w with
  | (Some e, w1) => (Some e, w1)
  | (None, w1) =>
      (* try to delete md5 file *)
      match delete b ("/.md5/" ++ path ++ ".md5")%string w1 with
      | (Some e, w2) => (Some e, w2)
      | (None, w2) => (None, w2)
      end
  end.

(* u, err := b.url("", b.conf()); u.RawQuery = vals.Encode() comes before
   the test of err, and url returns a nil URL with an error *)
Definition multiDelete (b : Bucket) (paths : list string) (w : net)
  : outcome (option error * net) :=
  if len paths >? 1000 then Panic "Can only delete 1000 keys at a time"
  else
    let deleteObjects := fold_left (fun objs path => objs ++ [path]) paths [] in
    match url b "" (conf b) with
    | inl _ => Panic "nil pointer dereference"
    | inr u =>
        let vals : Values := Add "delete" "" ∅ in
        Ret (answer (transport (calls w)) 200,
             mkNet (S (calls w)) (sent w ++ [POST u vals true deleteObjects]))
    end.

(* for i < len(paths) { ...; i += chunkSize }, one unit of fuel per
   iteration *)
Fixpoint MultiDelete_loop (fuel : nat) (b : Bucket) (paths : list string) (i : Z) (w : net)
  : outcome (option error * net) :=
  if i <? len paths then
    match fuel with
    | O => OutOfFuel
    | S fuel' =>
        let upperBound := min (len paths) (add64 i chunkSize) in
        match slice paths i upperBound with
        | None => Panic "slice bounds out of range"
        | Some paths_slice =>
            match multiDelete b paths_slice w with
            | Ret (Some e, w1) => Ret (Some e, w1)
            | Ret (None, w1) => MultiDelete_loop fuel' b paths (add64 i chunkSize) w1
            | Blocked => Blocked
            | Panic m => Panic m
            | OutOfFuel => OutOfFuel
            end
        end
    end
  else Ret (None, w).

Definition MultiDelete (fuel : nat) (b : Bucket) (paths : list string) (w : net)
  : outcome (option error * net) :=
  MultiDelete_loop fuel b paths 0 w.

End Transport.

End Deletion.

Module DeletionSpec.
Import Int64 Util Getter S3gof3r Listing Deletion.

Definition bucket : Bucket := mkBucket (mkS3 "s3.amazonaws.com") "bucket" None.

(* a url that puts the path behind the host of the bucket *)
Definition host_url (b : Bucket) (path : string) (_ : Config) : error + string :=
  inr ("https://" ++ Name b ++ "." ++ Domain (B_S3 b) ++ "/" ++ path)%string.

Definition always (status : Z) (_ : nat) : do_result :=
  DoResponse (mkResponse status 0 ∅ "").

(* the second request is refused *)
Definition second_refused (n : nat) : do_result :=
  match n with
  | 1%nat => DoResponse (mkResponse 403 0 ∅ "AccessDenied")
  | _ => DoResponse (mkResponse 200 0 ∅ "")
  end.

(* 2500 keys *)
Definition keys2500 : list string := replicate 2500 "key"%string.

End DeletionSpec.

(** ** getter.go: the metadata of an object *)

Module Metadata.
Import Int64 Util Getter S3gof3r.

(* var ObjectNotExist = errors.New("Object does not exist") *)
Definition ObjectNotExist : error := ErrorString "Object does not exist".

Section Transport.
Variable transport : nat -> attempt.
Variable url : Bucket -> string -> Config -> error + string.

(* getURL, err := b.url(path, c) is followed by g.url = *getURL with no
   look at err, and url returns a nil URL with its error; url reads the
   fields of c, and *c is read next, so that a nil c does not get past
   these lines either.  The line printed on an error of retryRequest is
   left out. *)
Definition ObjectMetaData (path : string) (c : option Config) (b : Bucket) (w : world)
  : outcome ((error + gmap string (list string)) * world) :=
  match c with
  | None => Panic "nil pointer dereference"
  | Some c =>
      match url b path c with
      | inl _ => Panic "nil pointer dereference"
      | inr getURL =>
          let ntry := max (NTry c) 1 in
          match retryRequest transport (Z.to_nat ntry) "HEAD" getURL None None w with
          | (_, Some e, w1) => Ret (inl e, w1)
          | (None, None, w1) => Panic "nil pointer dereference"
          | (Some resp, None, w1) =>
              if StatusCode resp =? 200 then Ret (inr (Header resp), w1)
              else if StatusCode resp =? 404 then Ret (inl ObjectNotExist, w1)
              else Ret (inl (newRespError resp), w1)
          end
      end
  end.

End Transport.

End Metadata.

Module MetadataSpec.
Import Int64 Util Getter S3gof3r.

(* a network that refuses two connections and then answers *)
Definition third_time (r : response) (n : nat) : attempt :=
  match n with
  | 0%nat | 1%nat => DoFailed (ErrorString "connection refused")
  | _ => DoOk r
  end.

Definition plain_url (b : Bucket) (path : string) (_ : Config) : error + string :=
  inr ("https://" ++ Name b ++ "." ++ Domain (B_S3 b) ++ "/" ++ path)%string.

Definition no_url (_ : Bucket) (path : string) (_ : Config) : error + string :=
  inl (ErrorString ("parse " ++ path ++ ": invalid URL escape")).

End MetadataSpec.

(** ** Regional endpoints *)

Module RegionSpec.
Import Regexp S3gof3r.

(* a character of a region name: [a-z0-9-] *)
Definition region_char (c : ascii) : bool :=
  between "a" "z" c || between "0" "9" c || Ascii.eqb c "-".

(* the endpoints of a region: s3-<region>.amazonaws.com and
   s3.<region>.amazonaws.com, with anything behind, as in
   s3.cn-north-1.amazonaws.com.cn *)
Definition regional_endpoint (sep : ascii) (region suffix : string) : string :=
  ("s3" ++ String sep (region ++ ".amazonaws.com" ++ suffix))%string.

End RegionSpec.

(** ** util.go: the tracked readers, continued *)

Module Wrappers.
Import Int64 Util.

Definition srw_ForceClose {R : Type} (r : seekReaderWrapper R) : seekReaderWrapper R :=
  mkSeekReaderWrapper (srw_ReadSeeker r) true (srw_bytesdone r).

Definition srw_BytesDone {R : Type} (r : seekReaderWrapper R) : Z := srw_bytesdone r.

Definition srw_Read {R : Type} `{ReadSeeker R} (r : seekReaderWrapper R) (lenp : Z)
  : seekReaderWrapper R * list byte * option error :=
  if srw_closed r then (r, [], Some ErrUnexpectedEOF)
  else
    let '(src, bs, err) := rd (srw_ReadSeeker r) lenp in
    (mkSeekReaderWrapper src (srw_closed r)
       (add64 (srw_bytesdone r) (Z.of_nat (length bs))), bs, err).

(* a caller that reads with a buffer of each of the given lengths in turn,
   whatever the calls return, and keeps what each call delivered *)
Fixpoint rw_Reads {R : Type} `{Reader R} (r : readerWrapper R) (lens : list Z)
  : readerWrapper R * list (list byte) :=
  match lens with
  | [] => (r, [])
  | lenp :: rest =>
      let '(r1, bs, _) := rw_Read r lenp in
      let '(r2, out) := rw_Reads r1 rest in
      (r2, bs :: out)
  end.

(* the calls a part reader gets from the putter: reads and seeks *)
Inductive srw_op : Type :=
| OpRead (lenp : Z)
| OpSeek (offset whence : Z).

Definition srw_step {R : Type} `{ReadSeeker R} (op : srw_op) (r : seekReaderWrapper R)
  : seekReaderWrapper R * option error :=
  match op with
  | OpRead lenp => let '(r1, _, e) := srw_Read r lenp in (r1, e)
  | OpSeek offset whence => let '(r1, _, e) := srw_Seek r offset whence in (r1, e)
  end.

(* the wrapper after the calls, and the error of each *)
Fixpoint srw_run {R : Type} `{ReadSeeker R} (ops : list srw_op) (r : seekReaderWrapper R)
  : seekReaderWrapper R * list (option error) :=
  match ops with
  | [] => (r, [])
  | op :: rest =>
      let '(r1, e) := srw_step op r in
      let '(r2, es) := srw_run rest r1 in
      (r2, e :: es)
  end.

(* the offset of a seek is an int64, and the seek returned a nil error *)
Definition seek_succeeded (op : srw_op) (e : option error) : Prop :=
  match op with
  | OpRead _ => True
  | OpSeek offset _ => in_range offset /\ e = None
  end.

(* the wrapper's count is the position of the bytes.Reader it wraps *)
Definition tracks (r : seekReaderWrapper BytesReader) : Prop :=
  srw_bytesdone r = br_i (srw_ReadSeeker r)
  /\ 0 <= br_i (srw_ReadSeeker r) <= max_int64.

End Wrappers.

(** * Properties *)

(** ** 64-bit arithmetic *)

Module Int64Facts.
Import Int64.

(* linear arithmetic with the bounds of int64 written out *)
Ltac int64_lia := unfold in_range, min_int64, max_int64 in *; lia.

Lemma wrap64_id (z : Z) : in_range z -> wrap64 z = z.
Proof.
  unfold in_range, wrap64, min_int64, max_int64. intros [Hlo Hhi].
  rewrite Z.mod_small by lia. lia.
Qed.

Lemma wrapu64_id (z : Z) : 0 <= z < 2 ^ 64 -> wrapu64 z = z.
Proof. unfold wrapu64. intros H. now apply Z.mod_small. Qed.

Lemma add64_id (a b : Z) : in_range (a + b) -> add64 a b = a + b.
Proof. apply wrap64_id. Qed.

Lemma sub64_id (a b : Z) : in_range (a - b) -> sub64 a b = a - b.
Proof. apply wrap64_id. Qed.

Lemma wrap64_range (z : Z) : in_range (wrap64 z).
Proof.
  unfold in_range, wrap64, min_int64, max_int64.
  pose proof (Z.mod_pos_bound (z + 2 ^ 63) (2 ^ 64) ltac:(lia)). lia.
Qed.

End Int64Facts.

(** ** util.go: the tracked readers *)

Module UtilFacts.
Import Int64 Util.

(** C8.  readerWrapper.Seek never returns: whatever depth of calls is
    allowed, the call has not come back, so it neither delegates to the
    wrapped source, nor yields an offset, nor records one. *)
Theorem readerWrapper_Seek_never_returns :
  forall (R : Type) (fuel : nat) (r : readerWrapper R) (offset whence : Z),
    rw_Seek fuel r offset whence = None.
Proof.
  intros R fuel. induction fuel as [|fuel IH]; intros r offset whence.
  - reflexivity.
  - simpl. now rewrite IH.
Qed.


(* rewinding a part that has been read to its end, as the putter does
   between two attempts *)
Example seekReaderWrapper_rewinds :
  let r := mkSeekReaderWrapper (mkBytesReader [x61; x62; x63]%byte 3) false 3 in
  srw_Seek r 0 0 = (mkSeekReaderWrapper (mkBytesReader [x61; x62; x63]%byte 0) false 0,
                    0, None)
  /\ srw_Seek r (-1) 2
     = (mkSeekReaderWrapper (mkBytesReader [x61; x62; x63]%byte 2) false 2, 2, None).
Proof. split; reflexivity. Qed.

(** ** util.go: the speed tracker *)

(* update never moves the tracker's reference point *)
Lemma update_keeps_reference (s : speedTracker) (bytesNow timeNow : Z) :
  lastDone (fst (update s bytesNow timeNow)) = lastDone s
  /\ lastTime (fst (update s bytesNow timeNow)) = lastTime s.
Proof. now split. Qed.

(** X2.  After any number of ticks the tracker's reference point is the
    one it was made with, 0 bytes at the time of its creation: every tick
    rates the whole transfer, not the time since the tick before. *)
Lemma update_measures_from_creation (now0 : Z) (ticks : list (Z * Z)) :
  let s := fold_left (fun s t => fst (update s (fst t) (snd t))) ticks (newSpeedTracker now0) in
  lastDone s = 0 /\ lastTime s = now0.
Proof.
  cbv zeta.
  assert (H : forall s,
    lastDone (fold_left (fun s t => fst (update s (fst t) (snd t))) ticks s) = lastDone s
    /\ lastTime (fold_left (fun s t => fst (update s (fst t) (snd t))) ticks s) = lastTime s).
  { induction ticks as [|t ticks IH]; intros s; cbn [fold_left]; [now split|].
    destruct (IH (fst (update s (fst t) (snd t)))) as [H1 H2].
    rewrite H1, H2. apply update_keeps_reference. }
  apply (H (newSpeedTracker now0)).
Qed.

(** C7.  A tracker made at time 0 is ticked at 1 s with 1000 bytes done and
    at 2 s with still 1000 bytes done.  The second tick should rate the
    last second at 0 bytes/s and smooth 50 down to 47; update rates it at
    1000 bytes over 2 s, gets 500 bytes/s and moves the speed up to 72,
    and its reference point is still (0 bytes, time 0). *)
Theorem update_second_tick_uses_creation_point :
  let s0 := newSpeedTracker 0 in
  let s1 := fst (update s0 1000 (1 * Second)) in
  let s2 := fst (update s1 1000 (2 * Second)) in
  let t1 := fst (update_spec s0 1000 (1 * Second)) in
  let t2 := fst (update_spec t1 1000 (2 * Second)) in
  Speed s1 = 50 /\ Speed t1 = 50
  /\ Speed s2 = 72 /\ Speed t2 = 47
  /\ lastDone s2 = 0 /\ lastTime s2 = 0
  /\ lastDone t2 = 1000 /\ lastTime t2 = 2 * Second.
Proof. vm_compute. repeat split. Qed.

End UtilFacts.

(** ** getter.go: the sticky error and the closed flag *)

Module GetterFacts.
Import Int64 Int64Facts Util Getter GetterSpec.

Lemma Read_closed (fuel : nat) (g : getter) (readCh : list chunk) (p : list byte) :
  closed g = true -> Read fuel g readCh p = Ret (g, readCh, p, 0, Some EINVAL).
Proof. intros H. unfold Read. now rewrite H. Qed.

Lemma Close_closed (checkMd5 : getter -> option error) (g : getter) :
  closed g = true -> Close checkMd5 g = (g, Some EINVAL).
Proof. intros H. unfold Close. now rewrite H. Qed.

Lemma Close_closes (checkMd5 : getter -> option error) (g : getter) :
  closed (fst (Close checkMd5 g)) = true.
Proof.
  unfold Close. destruct (closed g) eqn:Hc; [exact Hc|].
  cbn [set_closed closed err bytesRead contentLen c_Md5Check].
  destruct (err g); [reflexivity|].
  destruct (negb (bytesRead g =? contentLen g)); [reflexivity|].
  destruct (c_Md5Check g); reflexivity.
Qed.

(** C3.  On a getter that is not closed and whose sticky error is [e],
    Read returns (0, e) and leaves the getter, the channel and the
    caller's buffer as they are, so every later Read does the same; Close
    returns [e] too, whatever the byte count and the MD5 check would
    say. *)
Theorem sticky_error_is_returned :
  forall (g : getter) (e : error),
    closed g = false ->
    err g = Some e ->
    (forall (fuel : nat) (readCh : list chunk) (p : list byte),
        Read fuel g readCh p = Ret (g, readCh, p, 0, Some e))
    /\ (forall checkMd5 : getter -> option error,
           snd (Close checkMd5 g) = Some e
           /\ err (fst (Close checkMd5 g)) = Some e).
Proof.
  intros g e Hc He. split.
  - intros fuel readCh p. unfold Read. now rewrite Hc, He.
  - intros checkMd5. unfold Close. rewrite Hc.
    cbn [set_closed err]. rewrite He. now split.
Qed.

Lemma sticky_error_is_returned_witness :
  (forall (fuel : nat) (readCh : list chunk) (p : list byte),
      Read fuel stopped_getter readCh p = Ret (stopped_getter, readCh, p, 0, Some ErrStopped))
  /\ (forall checkMd5 : getter -> option error,
         snd (Close checkMd5 stopped_getter) = Some ErrStopped
         /\ err (fst (Close checkMd5 stopped_getter)) = Some ErrStopped).
Proof.
  apply (sticky_error_is_returned stopped_getter ErrStopped); reflexivity.
Defined.

(** C4.  Once Close has returned, on any getter and whatever it returned,
    Read returns (0, EINVAL) without touching the buffer, and Close
    returns EINVAL; this is so whatever sticky error the getter held before
    the first Close and whatever error [e'] is stored in it afterwards. *)
Theorem closed_getter_rejects_calls :
  forall (checkMd5 checkMd5' : getter -> option error) (g : getter)
         (e' : option error) (fuel : nat) (readCh : list chunk) (p : list byte),
    let g1 := set_err e' (fst (Close checkMd5 g)) in
    Read fuel g1 readCh p = Ret (g1, readCh, p, 0, Some EINVAL)
    /\ Read fuel (fst (Close checkMd5 g)) readCh p
       = Ret (fst (Close checkMd5 g), readCh, p, 0, Some EINVAL)
    /\ Close checkMd5' g1 = (g1, Some EINVAL)
    /\ Close checkMd5' (fst (Close checkMd5 g)) = (fst (Close checkMd5 g), Some EINVAL).
Proof.
  intros checkMd5 checkMd5' g e' fuel readCh p g1.
  pose proof (Close_closes checkMd5 g) as Hc.
  assert (Hc1 : closed g1 = true) by exact Hc.
  repeat split.
  - now apply Read_closed.
  - now apply Read_closed.
  - now apply Close_closed.
  - now apply Close_closed.
Qed.

End GetterFacts.

(** ** getter.go: Read and the end of the stream *)

Module ReadFacts.
Import Int64 Int64Facts Util Getter.

(* what nextChunk leaves alone, and that with the quit channel open it
   returns a chunk and no error *)
Lemma nextChunk_open (readCh : list chunk) :
  forall (g g' : getter) (ch' : list chunk) (c : option chunk) (e : option error),
    closed g = false ->
    nextChunk readCh g = Ret (g', ch', c, e) ->
    e = None /\ is_Some c /\ closed g' = false /\ err g' = err g
    /\ contentLen g' = contentLen g /\ bytesRead g' = bytesRead g.
Proof.
  assert (Hfound : forall (g g' : getter) (ch ch' : list chunk) (c0 : chunk)
                          (c : option chunk) (e : option error),
    (let g1 := set_qWait (delete (chunkID g) (qWait g)) g in
     let g2 := set_qWaitLen (wrapu64 (qWaitLen g1 - 1)) g1 in
     if c_Md5Check g2 then
       match slice (b c0) 0 (size c0) with
       | Some bs => Ret (set_md5 (md5 g2 ++ bs) g2, ch, Some c0, @None error)
       | None => Panic "slice bounds out of range"
       end
     else Ret (g2, ch, Some c0, @None error)) = Ret (g', ch', c, e) ->
    e = None /\ is_Some c /\ closed g' = closed g /\ err g' = err g
    /\ contentLen g' = contentLen g /\ bytesRead g' = bytesRead g).
  { intros g g' ch ch' c0 c e. cbv zeta.
    cbn [set_qWait set_qWaitLen c_Md5Check qWaitLen md5].
    destruct (c_Md5Check g).
    - destruct (slice (b c0) 0 (size c0)); [|discriminate].
      intros H. injection H as <- <- <- <-. repeat split; eauto.
    - intros H. injection H as <- <- <- <-. repeat split; eauto. }
  induction readCh as [|c0 rest IH]; intros g g' ch' c e Hc H.
  - cbn [nextChunk] in H. destruct (qWait g !! chunkID g) as [c1|] eqn:Hq.
    + apply Hfound in H. rewrite Hc in H. exact H.
    + rewrite Hc in H. discriminate.
  - cbn [nextChunk] in H. destruct (qWait g !! chunkID g) as [c1|] eqn:Hq.
    + apply Hfound in H. rewrite Hc in H. exact H.
    + apply IH in H; [|exact Hc]. exact H.
Qed.

Lemma ensure_rChunk_open (g g1 : getter) (readCh ch1 : list chunk) (r : error + chunk) :
  closed g = false ->
  ensure_rChunk g readCh = Ret (g1, ch1, r) ->
  (exists c, r = inr c) /\ closed g1 = false /\ err g1 = err g
  /\ contentLen g1 = contentLen g /\ bytesRead g1 = bytesRead g.
Proof.
  intros Hc H. unfold ensure_rChunk in H. destruct (rChunk g) as [c|].
  - injection H as <- <- <-. repeat split; eauto.
  - destruct (nextChunk readCh g) as [[[[g2 ch2] c2] e2]| | |] eqn:Hn; try discriminate.
    destruct (nextChunk_open _ _ _ _ _ _ Hc Hn) as (-> & [c ->] & H1 & H2 & H3 & H4).
    injection H as <- <- <-. repeat split; eauto.
Qed.

(* an iteration that makes Read return: nothing has changed, and the error
   is EOF exactly when the byte count has reached the content length *)
Lemma Read_iter_returns (g g' : getter) (readCh ch' : list chunk) (p p' : list byte)
    (nw n : Z) (e : option error) :
  closed g = false ->
  Read_iter g readCh p nw = Ret (inl (g', ch', p', n, e)) ->
  g' = g /\ ch' = readCh /\ p' = p /\ n = nw
  /\ (e = Some EOF <-> bytesRead g = contentLen g).
Proof.
  intros Hc H. unfold Read_iter in H.
  destruct (bytesRead g =? contentLen g) eqn:E1.
  { injection H as <- <- <- <- <-. apply Z.eqb_eq in E1. now repeat split. }
  apply Z.eqb_neq in E1.
  destruct (bytesRead g >? contentLen g).
  { injection H as <- <- <- <- <-. repeat split; try reflexivity; [discriminate|contradiction]. }
  destruct (chunkID g >=? chunkTotal g).
  { injection H as <- <- <- <- <-. repeat split; try reflexivity; [discriminate|contradiction]. }
  destruct (ensure_rChunk g readCh) as [[[g1 ch1] r]| | |] eqn:He; try discriminate.
  destruct (ensure_rChunk_open _ _ _ _ _ Hc He) as ([c ->] & _).
  destruct (slice (b c) (cIdx g1) (size c)); [|discriminate].
  destruct (copy (drop (Z.to_nat nw) p) l) as [tail n0]. discriminate.
Qed.

(* an iteration after which the loop goes on: some [k] bytes were copied
   into p[nw:] and counted *)
Lemma Read_iter_continues (g g1 : getter) (readCh ch1 : list chunk) (p p1 : list byte)
    (nw nw1 : Z) :
  closed g = false ->
  0 <= nw <= len p ->
  Read_iter g readCh p nw = Ret (inr (g1, ch1, p1, nw1)) ->
  closed g1 = false /\ err g1 = err g /\ contentLen g1 = contentLen g
  /\ len p1 = len p
  /\ exists k, 0 <= k <= len p - nw /\ nw1 = nw + k
               /\ bytesRead g1 = add64 (bytesRead g) k.
Proof.
  intros Hc Hnw H. unfold Read_iter in H.
  destruct (bytesRead g =? contentLen g); [discriminate|].
  destruct (bytesRead g >? contentLen g); [discriminate|].
  destruct (chunkID g >=? chunkTotal g); [discriminate|].
  destruct (ensure_rChunk g readCh) as [[[g2 ch2] r]| | |] eqn:He; try discriminate.
  destruct (ensure_rChunk_open _ _ _ _ _ Hc He) as ([c ->] & H1 & H2 & H3 & H4).
  destruct (slice (b c) (cIdx g2) (size c)) as [src|]; [|discriminate].
  unfold copy in H. injection H as <- <- <- <-.
  assert (Hgoal : forall gx : getter,
    closed gx = false -> err gx = err g -> contentLen gx = contentLen g ->
    forall t : bool,
    closed (if t then chunk_complete c gx else gx) = false
    /\ err (if t then chunk_complete c gx else gx) = err g
    /\ contentLen (if t then chunk_complete c gx else gx) = contentLen g
    /\ bytesRead (if t then chunk_complete c gx else gx) = bytesRead gx).
  { intros gx G1 G2 G3 t. destruct t; now repeat split. }
  match goal with |- context [if ?t then chunk_complete c ?gx else _] =>
    destruct (Hgoal gx H1 H2 H3 t) as (F1 & F2 & F3 & F4) end.
  rewrite F1, F2, F3, F4. cbn [set_bytesRead set_cIdx bytesRead].
  unfold len in *.
  repeat split; try assumption.
  - rewrite !length_app, length_take, length_take, !length_drop. lia.
  - exists (Z.of_nat (Nat.min (length (drop (Z.to_nat nw) p)) (length src))).
    rewrite length_drop. rewrite H4. repeat split; try lia.
Qed.

(* the whole loop *)
Lemma Read_loop_returns (fuel : nat) :
  forall (g g' : getter) (readCh ch' : list chunk) (p p' : list byte)
         (nw n : Z) (e : option error),
    closed g = false ->
    0 <= nw <= len p ->
    Read_loop fuel g readCh p nw = Ret (g', ch', p', n, e) ->
    closed g' = false /\ err g' = err g /\ contentLen g' = contentLen g
    /\ len p' = len p /\ nw <= n <= len p
    /\ (e = Some EOF -> bytesRead g' = contentLen g')
    /\ (in_range (bytesRead g - nw) -> in_range (bytesRead g - nw + len p) ->
        bytesRead g' = bytesRead g + (n - nw)).
Proof.
  induction fuel as [|fuel IH]; intros g g' readCh ch' p p' nw n e Hc Hnw H.
  - cbn [Read_loop] in H. destruct (nw <? len p) eqn:E; [discriminate|].
    apply Z.ltb_ge in E. injection H as <- <- <- <- <-.
    repeat split; intros; try lia; try reflexivity; congruence.
  - cbn [Read_loop] in H. destruct (nw <? len p) eqn:E.
    2:{ apply Z.ltb_ge in E. injection H as <- <- <- <- <-.
        repeat split; intros; try lia; try reflexivity; congruence. }
    apply Z.ltb_lt in E.
    destruct (Read_iter g readCh p nw) as [[r|[[[g1 ch1] p1] nw1]]| | |] eqn:Hi;
      try discriminate.
    + injection H as ->.
      destruct (Read_iter_returns _ _ _ _ _ _ _ _ _ Hc Hi) as (-> & -> & -> & -> & Heof).
      repeat split; intros; try lia; try reflexivity; try assumption. now apply Heof.
    + destruct (Read_iter_continues _ _ _ _ _ _ _ _ Hc Hnw Hi)
        as (Hc1 & He1 & Hl1 & Hp1 & k & Hk & -> & Hb1).
      assert (Hnw1 : 0 <= nw + k <= len p1) by lia.
      destruct (IH _ _ _ _ _ _ _ _ _ Hc1 Hnw1 H) as (J1 & J2 & J3 & J4 & J5 & J6 & J7).
      repeat split; try congruence; try lia; [exact J6|].
      intros R1 R2.
      assert (Hadd : bytesRead g1 = bytesRead g + k).
      { rewrite Hb1. apply add64_id. unfold in_range in *. lia. }
      rewrite J7; unfold in_range in *; lia.
Qed.

(* what Read returns does not depend on the fuel, once there is enough *)
Lemma Read_loop_more_fuel (fuel : nat) :
  forall (g : getter) (readCh : list chunk) (p : list byte) (nw : Z) (r : read_result),
    Read_loop fuel g readCh p nw = Ret r ->
    Read_loop (S fuel) g readCh p nw = Ret r.
Proof.
  induction fuel as [|fuel IH]; intros g readCh p nw r H.
  - cbn [Read_loop] in H. cbn [Read_loop].
    destruct (nw <? len p); [discriminate | exact H].
  - cbn [Read_loop] in H. change (Read_loop (S (S fuel)) g readCh p nw)
      with (if nw <? len p then
              match Read_iter g readCh p nw with
              | Ret (inl r) => Ret r
              | Ret (inr (g1, readCh1, p1, nw1)) => Read_loop (S fuel) g1 readCh1 p1 nw1
              | Blocked => Blocked
              | Panic m => Panic m
              | OutOfFuel => OutOfFuel
              end
            else Ret (g, readCh, p, nw, None)).
    destruct (nw <? len p); [|exact H].
    destruct (Read_iter g readCh p nw) as [[r0|[[[g1 ch1] p1] nw1]]| | |];
      try discriminate; [exact H|].
    now apply IH.
Qed.

End ReadFacts.

(** ** getter.go: Read comes to an end *)

Module ReadTermination.
Import Int64 Int64Facts Util Getter GetterSpec ReadFacts.

Lemma nextChunk_sizes (readCh : list chunk) :
  forall (g g' : getter) (ch' : list chunk) (co : option chunk) (e : option error),
    (forall k c, qWait g !! k = Some c -> in_range (size c)) ->
    Forall (fun c => in_range (size c)) readCh ->
    nextChunk readCh g = Ret (g', ch', co, e) ->
    (forall k c, qWait g' !! k = Some c -> in_range (size c))
    /\ Forall (fun c => in_range (size c)) ch'
    /\ (forall c, co = Some c -> in_range (size c))
    /\ chunkID g' = chunkID g /\ chunkTotal g' = chunkTotal g.
Proof.
  assert (Hfound : forall (g g' : getter) (ch ch' : list chunk) (c0 : chunk)
                          (co : option chunk) (e : option error),
    (forall k c, qWait g !! k = Some c -> in_range (size c)) ->
    Forall (fun c => in_range (size c)) ch ->
    qWait g !! chunkID g = Some c0 ->
    (let g1 := set_qWait (delete (chunkID g) (qWait g)) g in
     let g2 := set_qWaitLen (wrapu64 (qWaitLen g1 - 1)) g1 in
     if c_Md5Check g2 then
       match slice (b c0) 0 (size c0) with
       | Some bs => Ret (set_md5 (md5 g2 ++ bs) g2, ch, Some c0, @None error)
       | None => Panic "slice bounds out of range"
       end
     else Ret (g2, ch, Some c0, @None error)) = Ret (g', ch', co, e) ->
    (forall k c, qWait g' !! k = Some c -> in_range (size c))
    /\ Forall (fun c => in_range (size c)) ch'
    /\ (forall c, co = Some c -> in_range (size c))
    /\ chunkID g' = chunkID g /\ chunkTotal g' = chunkTotal g).
  { intros g g' ch ch' c0 co e Hq Hch Hc0. cbv zeta.
    cbn [set_qWait set_qWaitLen c_Md5Check qWaitLen md5].
    assert (Hdel : forall k c, delete (chunkID g) (qWait g) !! k = Some c -> in_range (size c)).
    { intros k c Hk. apply lookup_delete_Some in Hk. destruct Hk as [_ Hk]. eauto. }
    destruct (c_Md5Check g).
    - destruct (slice (b c0) 0 (size c0)); [|discriminate].
      intros H. injection H as <- <- <- <-. cbn.
      split; [exact Hdel|]. split; [exact Hch|].
      split; [intros cx [= <-]; eauto|]. split; reflexivity.
    - intros H. injection H as <- <- <- <-. cbn.
      split; [exact Hdel|]. split; [exact Hch|].
      split; [intros cx [= <-]; eauto|]. split; reflexivity. }
  induction readCh as [|c0 rest IH]; intros g g' ch' co e Hq Hch H.
  - cbn [nextChunk] in H. destruct (qWait g !! chunkID g) as [c1|] eqn:Hl.
    + exact (Hfound _ _ _ _ _ _ _ Hq Hch Hl H).
    + destruct (closed g); [|discriminate]. injection H as <- <- <- <-.
      split; [exact Hq|]. split; [constructor|].
      split; [intros cx Hcx; discriminate|]. split; reflexivity.
  - cbn [nextChunk] in H. destruct (qWait g !! chunkID g) as [c1|] eqn:Hl.
    + exact (Hfound _ _ _ _ _ _ _ Hq Hch Hl H).
    + apply Forall_cons in Hch. destruct Hch as [Hc0 Hrest].
      apply IH in H; [exact H| |exact Hrest].
      cbn. intros k c Hk. apply lookup_insert_Some in Hk.
      destruct Hk as [[_ <-]|[_ Hk]]; eauto.
Qed.

Lemma slice_Some {A : Type} (s src : list A) (lo hi : Z) :
  slice s lo hi = Some src ->
  0 <= lo <= hi /\ hi <= len s /\ len src = hi - lo.
Proof.
  unfold slice, len. intros H.
  destruct ((0 <=? lo) && (lo <=? hi) && (hi <=? Z.of_nat (length s))) eqn:E; [|discriminate].
  apply andb_true_iff in E. destruct E as [E E3]. apply andb_true_iff in E.
  destruct E as [E1 E2]. apply Z.leb_le in E1, E2, E3.
  injection H as <-. rewrite length_take, length_drop. lia.
Qed.

Lemma ensure_rChunk_sizes (g g1 : getter) (readCh ch1 : list chunk) (c : chunk) :
  sizes_ok g readCh ->
  ensure_rChunk g readCh = Ret (g1, ch1, inr c) ->
  in_range (size c)
  /\ (forall k c', qWait g1 !! k = Some c' -> in_range (size c'))
  /\ Forall (fun c' => in_range (size c')) ch1
  /\ chunkID g1 = chunkID g /\ chunkTotal g1 = chunkTotal g.
Proof.
  intros (Hr & Hq & Hch) H. unfold ensure_rChunk in H.
  destruct (rChunk g) as [c0|] eqn:Erc.
  - injection H as <- <- <-.
    split; [exact (Hr c0 eq_refl)|]. split; [exact Hq|]. split; [exact Hch|].
    split; reflexivity.
  - destruct (nextChunk readCh g) as [[[[g2 ch2] co] e]| | |] eqn:Hn; try discriminate.
    destruct (nextChunk_sizes _ _ _ _ _ _ Hq Hch Hn) as (Hq2 & Hch2 & Hco & Hid & Htot).
    destruct co as [c0|], e as [e|]; try discriminate.
    injection H as <- <- <-. cbn.
    split; [exact (Hco c0 eq_refl)|]. split; [exact Hq2|]. split; [exact Hch2|].
    split; assumption.
Qed.

(* an iteration after which the loop goes on has copied a byte or finished
   a chunk *)
Lemma Read_iter_progress (g g1 : getter) (readCh ch1 : list chunk) (p p1 : list byte)
    (nw nw1 : Z) :
  sizes_ok g readCh -> in_range (chunkTotal g) -> min_int64 <= chunkID g ->
  0 <= nw < len p ->
  Read_iter g readCh p nw = Ret (inr (g1, ch1, p1, nw1)) ->
  sizes_ok g1 ch1 /\ chunkTotal g1 = chunkTotal g /\ min_int64 <= chunkID g1
  /\ len p1 = len p /\ 0 <= nw1 <= len p
  /\ (len p - nw1) + Z.max 0 (chunkTotal g - chunkID g1)
     < (len p - nw) + Z.max 0 (chunkTotal g - chunkID g).
Proof.
  intros Hok Htot Hid Hnw H. unfold Read_iter in H.
  destruct (bytesRead g =? contentLen g); [discriminate|].
  destruct (bytesRead g >? contentLen g); [discriminate|].
  destruct (chunkID g >=? chunkTotal g) eqn:Ege; [discriminate|].
  assert (Hlt : chunkID g < chunkTotal g).
  { unfold Z.geb in Ege. destruct (chunkID g ?= chunkTotal g) eqn:Ec; try discriminate.
    now apply Z.compare_lt_iff. }
  destruct (ensure_rChunk g readCh) as [[[g2 ch2] [e|c]]| | |] eqn:He; try discriminate.
  destruct (ensure_rChunk_sizes _ _ _ _ _ Hok He) as (Hc & Hq2 & Hch2 & Hid2 & Htot2).
  destruct (slice (b c) (cIdx g2) (size c)) as [src|] eqn:Hs; [|discriminate].
  destruct (slice_Some _ _ _ _ Hs) as (Hlo & Hhi & Hlen).
  unfold copy in H. injection H as <- <- <- <-.
  set (k := Nat.min (length (drop (Z.to_nat nw) p)) (length src)).
  assert (Hk : 0 <= Z.of_nat k <= len p - nw /\ Z.of_nat k <= size c - cIdx g2
               /\ (Z.of_nat k = 0 -> size c = cIdx g2)).
  { unfold k, len in *. rewrite length_drop. lia. }
  assert (Hc2 : add64 (cIdx g2) (Z.of_nat k) = cIdx g2 + Z.of_nat k).
  { apply add64_id. unfold in_range, min_int64, max_int64 in *. lia. }
  cbn [set_bytesRead set_cIdx cIdx]. rewrite Hc2.
  assert (Hp1 : len (take (Z.to_nat nw) p ++ take k src ++ drop k (drop (Z.to_nat nw) p))
                = len p).
  { unfold k, len in *. rewrite !length_app, !length_take, !length_drop. lia. }
  destruct (cIdx g2 + Z.of_nat k >=? size c) eqn:Edone.
  - (* the chunk is complete *)
    unfold chunk_complete.
    unfold sizes_ok.
    cbn [set_rChunk set_chunkID set_sp_give set_activeChunks set_bytesRead set_cIdx
         chunkID chunkTotal rChunk qWait].
    assert (Hinc : add64 (chunkID g2) 1 = chunkID g2 + 1).
    { apply add64_id. unfold in_range, min_int64, max_int64 in *. lia. }
    rewrite Hinc, Hid2, Htot2.
    split; [|repeat split; try lia; exact Hp1].
    split; [intros c' Hc'; discriminate|]. split; assumption.
  - (* bytes were copied and the chunk goes on *)
    unfold sizes_ok.
    cbn [set_bytesRead set_cIdx chunkID chunkTotal rChunk qWait]. rewrite Hid2, Htot2.
    assert (Hk1 : 1 <= Z.of_nat k).
    { destruct (Z.eq_dec (Z.of_nat k) 0) as [E0|E0]; [|lia].
      destruct Hk as (_ & _ & Hz). specialize (Hz E0).
      unfold Z.geb in Edone. rewrite E0, Z.add_0_r, Hz, Z.compare_refl in Edone.
      discriminate. }
    split; [|repeat split; try lia; exact Hp1].
    split; [|split; assumption].
    unfold ensure_rChunk in He. destruct (rChunk g) as [c0|] eqn:Erc.
    + injection He as <- <- <-. cbn. intros c' Hc'. rewrite Erc in Hc'.
      injection Hc' as <-. exact Hc.
    + destruct (nextChunk readCh g) as [[[[g3 ch3] co] e]| | |]; try discriminate.
      destruct co, e; try discriminate.
      injection He as <- <- <-. cbn. intros c' [= <-]. exact Hc.
Qed.

(* with one unit of fuel for every byte of room in [p], one for every
   chunk still to come and one more, the loop does not run out of fuel *)
Lemma Read_loop_enough_fuel (fuel : nat) :
  forall (g : getter) (readCh : list chunk) (p : list byte) (nw : Z),
    sizes_ok g readCh -> in_range (chunkTotal g) -> min_int64 <= chunkID g ->
    0 <= nw <= len p ->
    (len p - nw) + Z.max 0 (chunkTotal g - chunkID g) < Z.of_nat fuel ->
    Read_loop fuel g readCh p nw <> OutOfFuel.
Proof.
  induction fuel as [|fuel IH]; intros g readCh p nw Hok Htot Hid Hnw Hfuel.
  - lia.
  - cbn [Read_loop]. destruct (nw <? len p) eqn:E; [|discriminate].
    apply Z.ltb_lt in E.
    destruct (Read_iter g readCh p nw) as [[r|[[[g1 ch1] p1] nw1]]| | |] eqn:Hi;
      try discriminate.
    + destruct (Read_iter_progress _ _ _ _ _ _ _ _ Hok Htot Hid (conj (proj1 Hnw) E) Hi)
        as (Hok1 & Htot1 & Hid1 & Hp1 & Hnw1 & Hdec).
      apply IH; try assumption.
      * now rewrite Htot1.
      * now rewrite Hp1.
      * rewrite Hp1, Htot1. lia.
    + exfalso. unfold Read_iter in Hi.
      destruct (bytesRead g =? contentLen g); [discriminate|].
      destruct (bytesRead g >? contentLen g); [discriminate|].
      destruct (chunkID g >=? chunkTotal g); [discriminate|].
      destruct (ensure_rChunk g readCh) as [[[g2 ch2] [e|c]]| | |] eqn:He; try discriminate.
      * destruct (slice (b c) (cIdx g2) (size c)); [|discriminate].
        destruct (copy (drop (Z.to_nat nw) p) l). discriminate.
      * unfold ensure_rChunk in He. destruct (rChunk g); [discriminate|].
        destruct (nextChunk readCh g) as [[[[g3 ch3] co] e']| | |] eqn:Hn; try discriminate.
        -- destruct co, e'; discriminate.
        -- clear -Hn. revert g Hn. induction readCh as [|c0 rest IHr]; intros g Hn;
             cbn [nextChunk] in Hn; destruct (qWait g !! chunkID g);
             try (cbv zeta in Hn; cbn [set_qWait set_qWaitLen c_Md5Check] in Hn;
                  destruct (c_Md5Check g); [destruct (slice _ _ _)|]; discriminate).
           ++ destruct (closed g); discriminate.
           ++ exact (IHr _ Hn).
Qed.

(** X3.  Read comes to an end: given one unit of fuel for every byte of
    room in the buffer, one for every chunk still to come and one more, it
    returns, blocks or panics; it does not loop for ever. *)
Theorem Read_comes_to_an_end :
  forall (fuel : nat) (g : getter) (readCh : list chunk) (p : list byte),
    sizes_ok g readCh -> in_range (chunkTotal g) -> min_int64 <= chunkID g ->
    len p + Z.max 0 (chunkTotal g - chunkID g) < Z.of_nat fuel ->
    ends (Read fuel g readCh p).
Proof.
  intros fuel g readCh p Hok Htot Hid Hfuel.
  assert (H : Read fuel g readCh p <> OutOfFuel).
  { unfold Read. destruct (closed g); [discriminate|]. destruct (err g); [discriminate|].
    apply Read_loop_enough_fuel; try assumption; [unfold len; lia | lia]. }
  destruct (Read fuel g readCh p); try exact I. now contradiction H.
Qed.

Lemma Read_comes_to_an_end_witness :
  ends (Read 5 getter3 [chunk3] [x00; x00; x00]%byte).
Proof.
  apply (Read_comes_to_an_end 5 getter3 [chunk3] [x00; x00; x00]%byte).
  - split; [intros c Hc; discriminate|]. split.
    + intros k c Hk. vm_compute in Hk. discriminate.
    + repeat constructor; vm_compute; discriminate.
  - vm_compute. split; discriminate.
  - vm_compute. discriminate.
  - vm_compute. reflexivity.
Defined.

End ReadTermination.

Module StreamEnd.
Import Int64 Int64Facts Util Getter GetterSpec ReadFacts.

Lemma Read_open (fuel : nat) (g : getter) (readCh : list chunk) (p : list byte) :
  closed g = false -> err g = None ->
  Read fuel g readCh p = Read_loop fuel g readCh p 0.
Proof. intros Hc He. unfold Read. now rewrite Hc, He. Qed.

Lemma len_nonneg {A : Type} (l : list A) : 0 <= len l.
Proof. unfold len. lia. Qed.

(* the getter's own count is the count of bytes given to the consumer *)
Lemma session_invariant (c : Config) (L : Z) (g : getter) (d : Z) :
  session c L g d ->
  closed g = false /\ err g = None /\ contentLen g = L /\ bytesRead g = d /\ 0 <= d.
Proof.
  induction 1 as [|g d fuel readCh p g' ch' p' n e Hs IH Hfit HR].
  - repeat split; first [reflexivity | lia].
  - destruct IH as (Hc & He & HL & Hb & Hd).
    rewrite (Read_open _ _ _ _ Hc He) in HR.
    pose proof (len_nonneg p) as Hp.
    destruct (Read_loop_returns _ _ _ _ _ _ _ _ _ _ Hc (conj (Z.le_refl 0) Hp) HR)
      as (J1 & J2 & J3 & _ & J5 & _ & J7).
    repeat split; try congruence; try lia.
    rewrite J7; int64_lia.
Qed.

(** C1 (as amended).  In a getter in use that has given [d] bytes to the
    consumer: if [d] is the content length, a Read with a non-empty buffer
    returns (0, EOF) and changes nothing; and a Read that returns EOF has
    brought the bytes given to the consumer to exactly the content
    length. *)
Theorem Read_EOF_at_content_length :
  forall (c : Config) (L : Z) (g : getter) (d : Z),
    session c L g d ->
    (forall (fuel : nat) (readCh : list chunk) (p : list byte),
        d = L -> p <> [] ->
        Read (S fuel) g readCh p = Ret (g, readCh, p, 0, Some EOF))
    /\ (forall (fuel : nat) (readCh : list chunk) (p : list byte)
               (g' : getter) (ch' : list chunk) (p' : list byte) (n : Z),
           d + len p <= max_int64 ->
           Read fuel g readCh p = Ret (g', ch', p', n, Some EOF) ->
           d + n = L /\ bytesRead g' = L).
Proof.
  intros c L g d Hs.
  destruct (session_invariant _ _ _ _ Hs) as (Hc & He & HL & Hb & Hd).
  split.
  - intros fuel readCh p HdL Hp. rewrite (Read_open _ _ _ _ Hc He).
    cbn [Read_loop].
    assert (Hlt : (0 <? len p) = true).
    { apply Z.ltb_lt. unfold len. destruct p; [contradiction|]. cbn [length]. lia. }
    rewrite Hlt. unfold Read_iter.
    assert (Heq : (bytesRead g =? contentLen g) = true) by (apply Z.eqb_eq; congruence).
    now rewrite Heq.
  - intros fuel readCh p g' ch' p' n Hfit HR.
    rewrite (Read_open _ _ _ _ Hc He) in HR.
    pose proof (len_nonneg p) as Hp.
    destruct (Read_loop_returns _ _ _ _ _ _ _ _ _ _ Hc (conj (Z.le_refl 0) Hp) HR)
      as (J1 & J2 & J3 & _ & J5 & J6 & J7).
    specialize (J6 eq_refl).
    assert (Hcount : bytesRead g' = bytesRead g + (n - 0)).
    { apply J7; int64_lia. }
    split; [lia | congruence].
Qed.

Lemma Read_EOF_at_content_length_witness :
  Read 1 getter0 [] [x00]%byte = Ret (getter0, [], [x00]%byte, 0, Some EOF)
  /\ (exists (g' : getter) (ch' : list chunk) (p' : list byte) (n : Z),
         Read 4 getter3 [chunk3] [x00; x00; x00; x00]%byte = Ret (g', ch', p', n, Some EOF)
         /\ 0 + n = 3 /\ bytesRead g' = 3).
Proof.
  split.
  - apply (proj1 (Read_EOF_at_content_length _ 0 getter0 0 (session_new _ 0)) 0%nat);
      [reflexivity | discriminate].
  - do 4 eexists. split; [vm_compute; reflexivity|].
    eapply (proj2 (Read_EOF_at_content_length _ 3 getter3 0 (session_new _ 3))
              4%nat [chunk3] [x00; x00; x00; x00]%byte);
      [vm_compute; discriminate | vm_compute; reflexivity].
Defined.

(** C1, the claim as stated, fails on a Read with an empty buffer.  The
    object has three bytes; a first Read with a buffer of three bytes
    delivers them all; a Read with an empty buffer issued then returns
    (0, nil), not EOF; a Read with room for one byte returns (0, EOF). *)
Lemma Read_empty_buffer_returns_nil :
  exists g1 : getter,
    Read 4 getter3 [chunk3] [x00; x00; x00]%byte = Ret (g1, [], three_bytes, 3, None)
    /\ bytesRead g1 = contentLen g1
    /\ closed g1 = false /\ err g1 = None
    /\ Read 4 g1 [] [] = Ret (g1, [], [], 0, None)
    /\ Read 4 g1 [] [x00]%byte = Ret (g1, [], [x00]%byte, 0, Some EOF).
Proof.
  eexists. split; [vm_compute; reflexivity|]. vm_compute. repeat split.
Qed.

End StreamEnd.

(** ** getter.go: the chunks *)

Module ChunkFacts.
Import Int64 Int64Facts Util Getter GetterSpec.

Lemma wrap64_sub_wrap (x y : Z) : wrap64 (wrap64 x - y) = wrap64 (x - y).
Proof.
  unfold wrap64.
  replace ((x + 2 ^ 63) mod 2 ^ 64 - 2 ^ 63 - y + 2 ^ 63)
    with ((x + 2 ^ 63) mod 2 ^ 64 - y) by lia.
  rewrite Zminus_mod_idemp_l. f_equal. f_equal. lia.
Qed.

(* without overflow, chunkTotal is the quotient rounded up *)
Lemma chunkTotal_of_ceil (L P : Z) :
  0 <= L -> 1 <= P -> L + P - 1 <= max_int64 ->
  chunkTotal_of L P = (L + P - 1) / P.
Proof.
  intros HL HP Hfit. unfold chunkTotal_of, div64, sub64, add64.
  rewrite wrap64_sub_wrap.
  rewrite (wrap64_id (L + P - 1)) by int64_lia.
  rewrite Z.quot_div_nonneg by lia.
  apply wrap64_id. unfold in_range, min_int64, max_int64 in *.
  assert (0 <= (L + P - 1) / P) by (apply Z.div_pos; lia).
  assert ((L + P - 1) / P <= L + P - 1) by (apply Z.div_le_upper_bound; nia).
  lia.
Qed.

Lemma ceil_bounds (L P : Z) :
  1 <= P -> ((L + P - 1) / P - 1) * P < L <= (L + P - 1) / P * P.
Proof.
  intros HP.
  pose proof (Z.div_mod (L + P - 1) P ltac:(lia)) as Hdm.
  pose proof (Z.mod_pos_bound (L + P - 1) P ltac:(lia)) as Hr.
  nia.
Qed.

Lemma min64_min (a b : Z) : min64 a b = Z.min a b.
Proof. unfold min64. destruct (Z.ltb_spec a b); lia. Qed.

Lemma max64_ge1 (P : Z) : 1 <= P -> max64 P 1 = P.
Proof. intros H. unfold max64. destruct (P >? 1) eqn:E; [reflexivity|]. lia. Qed.

(* the loop from chunk [k] on, with one unit of fuel per chunk left *)
Lemma initChunks_loop_chunks (g : getter) (L P T : Z) :
  contentLen g = L -> bufsz g = P ->
  1 <= P -> 0 <= L <= max_int64 -> (T - 1) * P < L <= T * P ->
  forall (n : nat) (k i : Z),
    0 <= k -> k + Z.of_nat n = T ->
    (i = k * P \/ (n = O /\ L <= i)) ->
    initChunks_loop n g i k = Some (map (chunk_at L P) (seqZ k (Z.of_nat n))).
Proof.
  intros HgL HgP HP HL HT n.
  induction n as [|n IH]; intros k i Hk Hkn Hi.
  - cbn [initChunks_loop]. rewrite HgL.
    assert (Hge : (i <? L) = false).
    { apply Z.ltb_ge. destruct Hi as [-> | [_ Hi]]; [|exact Hi].
      replace k with T by lia. lia. }
    now rewrite Hge.
  - destruct Hi as [-> | [Hn _]]; [|discriminate].
    assert (HkT : k <= T - 1) by lia.
    assert (HkP : k * P < L) by nia.
    cbn [initChunks_loop]. rewrite HgL, HgP.
    assert (Hlt : (k * P <? L) = true) by (apply Z.ltb_lt; exact HkP).
    rewrite Hlt.
    assert (HkP0 : 0 <= k * P) by nia.
    rewrite (sub64_id L (k * P)) by int64_lia.
    rewrite min64_min.
    set (sz := Z.min P (L - k * P)).
    assert (Hsz : 1 <= sz <= L - k * P) by (unfold sz; lia).
    rewrite (add64_id (k * P) sz) by int64_lia.
    rewrite (add64_id k 1) by (unfold in_range, min_int64, max_int64 in *; nia).
    rewrite (IH (k + 1) (k * P + sz)); [|lia|lia|].
    + rewrite (seqZ_cons k (Z.of_nat (S n))) by lia.
      replace (Z.pred (Z.of_nat (S n))) with (Z.of_nat n) by lia.
      replace (Z.succ k) with (k + 1) by lia.
      cbn [map]. do 2 f_equal.
      unfold chunk_at, range_header. fold sz.
      rewrite (add64_id (k * P) sz) by int64_lia.
      rewrite (sub64_id (k * P + sz) 1) by int64_lia.
      reflexivity.
    + destruct n as [|n'].
      * right. split; [reflexivity|]. unfold sz. nia.
      * left. unfold sz. nia.
Qed.

(** C2 (as amended).  For a content length [L >= 1] and a part size
    [P >= 1] with [L + P - 1] within int64: chunkTotal is [L / P] rounded
    up, and initChunks sends exactly the chunks 0, 1, ..., chunkTotal-1 in
    this order, chunk [k] starting at [k*P] with size [min(P, L - k*P)]
    and the Range header "bytes=start-(start+size-1)".  The ranges follow
    one another without gap or overlap from 0 to [L]. *)
Theorem chunks_cover_the_object :
  forall (c : Config) (L : Z),
    1 <= L -> 1 <= PartSize c -> L + PartSize c - 1 <= max_int64 ->
    let P := PartSize c in
    let g := newGetter_state c L in
    let T := chunkTotal g in
    T = (L + P - 1) / P
    /\ (T - 1) * P < L <= T * P
    /\ initChunks (Z.to_nat T) g = Some (map (chunk_at L P) (seqZ 0 T))
    /\ start (chunk_at L P 0) = 0
    /\ (forall k : Z, 0 <= k < T ->
          id (chunk_at L P k) = k
          /\ 1 <= size (chunk_at L P k) <= P
          /\ start (chunk_at L P k) + size (chunk_at L P k)
             = (if k + 1 <? T then start (chunk_at L P (k + 1)) else L)).
Proof.
  intros c L HL HP Hfit P g T.
  assert (HgP : bufsz g = P) by (apply max64_ge1; exact HP).
  assert (HT : T = (L + P - 1) / P).
  { unfold T, g. cbn [newGetter_state chunkTotal]. rewrite (max64_ge1 _ HP).
    apply chunkTotal_of_ceil; fold P; lia. }
  pose proof (ceil_bounds L P HP) as Hb. rewrite <- HT in Hb.
  assert (HT1 : 1 <= T) by nia.
  split; [exact HT|]. split; [exact Hb|]. split; [|split].
  - unfold initChunks.
    rewrite (initChunks_loop_chunks g L P T eq_refl HgP HP ltac:(unfold max_int64 in *; lia) Hb
               (Z.to_nat T) 0 0 ltac:(lia) ltac:(lia) ltac:(left; lia)).
    now rewrite Z2Nat.id by lia.
  - reflexivity.
  - intros k Hk. cbn [chunk_at id size start].
    split; [reflexivity|]. split; [nia|].
    destruct (Z.ltb_spec (k + 1) T); nia.
Qed.

(* a 21-byte object in parts of 5 bytes *)
Lemma chunks_cover_the_object_witness :
  let c := mkConfig 3 5 2 true "https" false in
  let g := newGetter_state c 21 in
  chunkTotal g = (21 + 5 - 1) / 5
  /\ (chunkTotal g - 1) * 5 < 21 <= chunkTotal g * 5
  /\ initChunks (Z.to_nat (chunkTotal g)) g
     = Some (map (chunk_at 21 5) (seqZ 0 (chunkTotal g)))
  /\ start (chunk_at 21 5 0) = 0
  /\ (forall k : Z, 0 <= k < chunkTotal g ->
        id (chunk_at 21 5 k) = k
        /\ 1 <= size (chunk_at 21 5 k) <= 5
        /\ start (chunk_at 21 5 k) + size (chunk_at 21 5 k)
           = (if k + 1 <? chunkTotal g then start (chunk_at 21 5 (k + 1)) else 21)).
Proof.
  apply (chunks_cover_the_object (mkConfig 3 5 2 true "https" false) 21);
    [lia | cbn [PartSize]; lia | vm_compute; discriminate].
Defined.

(** C2, the claim as stated, fails where [L + P - 1] leaves int64: for a
    two-byte object and the largest part size, chunkTotal is -1, not 1,
    while initChunks still sends the one chunk that covers the object. *)
Lemma chunkTotal_wraps_around :
  let P := 2 ^ 63 - 1 in
  let L := 2 in
  let g := newGetter_state (mkConfig 10 P 10 true "https" false) L in
  1 <= L /\ 1 <= P <= max_int64
  /\ (L + P - 1) / P = 1
  /\ chunkTotal g = -1
  /\ option_map (map (fun c => (id c, start c, size c))) (initChunks 1 g) = Some [(0, 0, 2)].
Proof. vm_compute. repeat split; discriminate. Qed.

End ChunkFacts.

(** ** getter.go: how many chunks wait in qWait *)

Module PipelineFacts.
Import Int64 Int64Facts Pipeline PipelineSpec.

Lemma parked_bounds (ws : list wstate) : 0 <= parked ws <= Z.of_nat (length ws).
Proof.
  induction ws as [|w ws IH]; cbn [parked length]; [lia|].
  destruct (is_parked w); lia.
Qed.

Lemma parked_insert (ws : list wstate) (i : nat) (old new : wstate) :
  ws !! i = Some old ->
  parked (<[i := new]> ws)
  = parked ws - (if is_parked old then 1 else 0) + (if is_parked new then 1 else 0).
Proof.
  revert i. induction ws as [|w ws IH]; intros i Hi; [discriminate|].
  destruct i as [|i].
  - injection Hi as ->. cbn [parked]. change (<[0%nat:=new]> (old :: ws)) with (new :: ws).
    cbn [parked]. lia.
  - change (<[S i:=new]> (w :: ws)) with (w :: <[i:=new]> ws).
    cbn [parked]. rewrite (IH i Hi). lia.
Qed.

Lemma size_insert_le (c : Z) (X : gset Z) : (size ({[c]} ∪ X) <= 1 + size X)%nat.
Proof.
  rewrite size_union_alt, size_singleton.
  assert (Hsub : X ∖ {[c]} ⊆ X).
  { intros x Hx. apply elem_of_difference in Hx. tauto. }
  apply subseteq_size in Hsub. lia.
Qed.

Lemma size_remove (c : Z) (X : gset Z) : c ∈ X -> (size (X ∖ {[c]}) = size X - 1)%nat.
Proof.
  intros Hc. rewrite size_difference by set_solver. now rewrite size_singleton.
Qed.

Lemma size_pos_elem (c : Z) (X : gset Z) : c ∈ X -> (1 <= size X)%nat.
Proof.
  intros Hc. destruct (size X) eqn:E; [|lia].
  apply size_empty_inv in E. set_solver.
Qed.

Lemma in_nextChunk_RNeed (s : state) : in_nextChunk s = true -> reader s = RNeed.
Proof. unfold in_nextChunk. destruct (reader s); [reflexivity|discriminate|discriminate]. Qed.

(* a step of a worker that does not take it to or from the gate *)
Lemma worker_step_inv (W : nat) (s : state) (i : nat) (old new : wstate) :
  length (workers s) = W ->
  inv s ->
  workers s !! i = Some old ->
  is_parked old = false -> is_parked new = false ->
  forall nx : Z,
    inv (mkState nx (chunkTotal s) (<[i := new]> (workers s)) (qWait s) (qWaitLen s)
           (chunkID s) (reader s) (closed s))
    /\ length (<[i := new]> (workers s)) = W.
Proof.
  intros Hlen Hinv Hw Ho Hn nx. rewrite length_insert. split; [|exact Hlen].
  intros Hc. cbn in Hc. specialize (Hinv Hc). unfold pending in *.
  cbn [qWait qWaitLen workers reader].
  rewrite (parked_insert _ _ _ _ Hw), Ho, Hn. lia.
Qed.

Lemma step_inv (W : nat) (l : label) (s s' : state) :
  Z.of_nat W + 3 < 2 ^ 64 ->
  length (workers s) = W ->
  inv s ->
  step l s = Some s' ->
  inv s' /\ length (workers s') = W.
Proof.
  intros HW Hlen Hinv Hstep.
  pose proof (parked_bounds (workers s)) as Hpb.
  destruct l as [i|i|i|i| | | |i|i| ]; cbn [step] in Hstep.
  - (* Dispatch *)
    destruct (workers s !! i) as [[| | | |]|] eqn:Hw; try discriminate.
    destruct (next s <? chunkTotal s); [|discriminate].
    injection Hstep as <-. cbn [workers].
    now apply (worker_step_inv W s i WIdle).
  - (* Fetched *)
    destruct (workers s !! i) as [[| c | | |]|] eqn:Hw; try discriminate.
    injection Hstep as <-. unfold set_worker. cbn [workers].
    now apply (worker_step_inv W s i (WFetching c)).
  - (* Failed *)
    destruct (workers s !! i) as [[| c | | |]|] eqn:Hw; try discriminate.
    injection Hstep as <-. unfold set_worker. cbn [workers].
    now apply (worker_step_inv W s i (WFetching c)).
  - (* Publish *)
    destruct (workers s !! i) as [[| c | c | |]|] eqn:Hw; try discriminate.
    destruct (in_nextChunk s) eqn:Hn; cbn [andb] in Hstep; [|discriminate].
    destruct (negb (bool_decide (chunkID s ∈ qWait s))); [|discriminate].
    apply in_nextChunk_RNeed in Hn.
    injection Hstep as <-. cbn [workers]. rewrite length_insert. split; [|exact Hlen].
    intros Hc. cbn in Hc. destruct (Hinv Hc) as (H1 & H0 & H2). unfold pending in *.
    rewrite Hn in H1, H2. cbn [qWait qWaitLen workers reader].
    rewrite (parked_insert _ _ _ _ Hw). cbn [is_parked].
    pose proof (size_insert_le c (qWait s)) as Hsz. lia.
  - (* Count *)
    destruct (reader s) eqn:Hr; try discriminate.
    injection Hstep as <-. cbn [workers]. split; [|exact Hlen].
    intros Hc. cbn in Hc. destruct (Hinv Hc) as (H1 & H0 & H2). unfold pending in *.
    rewrite Hr in H1, H2. cbn [qWait qWaitLen workers reader].
    rewrite wrapu64_id by lia. lia.
  - (* Take *)
    destruct (in_nextChunk s) eqn:Hn; cbn [andb] in Hstep; [|discriminate].
    destruct (bool_decide (chunkID s ∈ qWait s)) eqn:Hin; [|discriminate].
    apply bool_decide_eq_true in Hin. apply in_nextChunk_RNeed in Hn.
    injection Hstep as <-. cbn [workers]. split; [|exact Hlen].
    intros Hc. cbn in Hc. destruct (Hinv Hc) as (H1 & H0 & H2). unfold pending in *.
    rewrite Hn in H1, H2. cbn [qWait qWaitLen workers reader].
    pose proof (size_remove _ _ Hin) as Hsz.
    pose proof (size_pos_elem _ _ Hin) as Hpos.
    rewrite wrapu64_id by lia. lia.
  - (* ChunkDone *)
    destruct (reader s) eqn:Hr; try discriminate.
    injection Hstep as <-. cbn [workers]. split; [|exact Hlen].
    intros Hc. cbn in Hc. destruct (Hinv Hc) as (H1 & H0 & H2). unfold pending in *.
    rewrite Hr in H1, H2. cbn [qWait qWaitLen workers reader]. lia.
  - (* Gate *)
    destruct (workers s !! i) as [[| | | |]|] eqn:Hw; try discriminate.
    destruct ((qWaitLen s <? qWaitMax) || closed s) eqn:Hg; [|discriminate].
    injection Hstep as <-. unfold set_worker. cbn [workers]. rewrite length_insert.
    split; [|exact Hlen].
    intros Hc. cbn in Hc. destruct (Hinv Hc) as (H1 & H0 & H2). unfold pending in *.
    cbn [qWait qWaitLen workers reader].
    rewrite (parked_insert _ _ _ _ Hw). cbn [is_parked].
    rewrite Hc, orb_false_r in Hg. apply Z.ltb_lt in Hg.
    unfold qWaitMax, Getter.qWaitMax in Hg.
    assert (1 <= parked (workers s)).
    { pose proof (parked_insert _ i WParked WIdle Hw) as Hp. cbn [is_parked] in Hp.
      pose proof (parked_bounds (<[i:=WIdle]> (workers s))). lia. }
    destruct (reader s); lia.
  - (* Exit *)
    destruct (workers s !! i) as [[| | | |]|] eqn:Hw; try discriminate.
    destruct (next s <? chunkTotal s); [discriminate|].
    injection Hstep as <-. unfold set_worker. cbn [workers].
    now apply (worker_step_inv W s i WIdle).
  - (* DoClose *)
    destruct (closed s); [discriminate|].
    injection Hstep as <-. cbn [workers]. split; [|exact Hlen].
    intros Hc. discriminate.
Qed.

Lemma run_inv (W : nat) (ls : list label) :
  forall s s' : state,
    Z.of_nat W + 3 < 2 ^ 64 ->
    length (workers s) = W ->
    inv s ->
    run ls s = Some s' ->
    inv s' /\ length (workers s') = W.
Proof.
  induction ls as [|l ls IH]; intros s s' HW Hlen Hinv Hrun; cbn [run] in Hrun.
  - injection Hrun as <-. now split.
  - destruct (step l s) as [s1|] eqn:Hs; [|discriminate].
    destruct (step_inv W l s s1 HW Hlen Hinv Hs) as [Hinv1 Hlen1].
    exact (IH s1 s' HW Hlen1 Hinv1 Hrun).
Qed.

Lemma init_inv (W : nat) (T : Z) : inv (init W T) /\ length (workers (init W T)) = W.
Proof.
  split.
  - intros _. unfold pending. cbn [init qWait qWaitLen workers reader]. rewrite size_empty.
    pose proof (parked_bounds (replicate W WIdle)). lia.
  - cbn [init workers]. apply length_replicate.
Qed.

(* the one step that takes a worker away from the gate is Gate, and it
   needs a short queue or a closed getter *)
Lemma leaves_gate (l : label) (s s' : state) (i : nat) :
  step l s = Some s' ->
  workers s !! i = Some WParked ->
  workers s' !! i <> Some WParked ->
  l = Gate i /\ (qWaitLen s < qWaitMax \/ closed s = true).
Proof.
  intros Hstep Hi Hi'.
  assert (Hother : forall (j : nat) (w : wstate),
            j <> i -> <[j := w]> (workers s) !! i = Some WParked).
  { intros j w Hj. rewrite list_lookup_insert_ne by exact Hj. exact Hi. }
  destruct l as [j|j|j|j| | | |j|j| ]; cbn [step] in Hstep.
  - destruct (workers s !! j) as [[| | | |]|] eqn:Hw; try discriminate.
    destruct (next s <? chunkTotal s); [|discriminate].
    injection Hstep as <-. cbn [workers] in Hi'.
    destruct (decide (j = i)) as [->|Hj]; [congruence|]. now rewrite Hother in Hi'.
  - destruct (workers s !! j) as [[| | | |]|] eqn:Hw; try discriminate.
    injection Hstep as <-. cbn [set_worker workers] in Hi'.
    destruct (decide (j = i)) as [->|Hj]; [congruence|]. now rewrite Hother in Hi'.
  - destruct (workers s !! j) as [[| | | |]|] eqn:Hw; try discriminate.
    injection Hstep as <-. cbn [set_worker workers] in Hi'.
    destruct (decide (j = i)) as [->|Hj]; [congruence|]. now rewrite Hother in Hi'.
  - destruct (workers s !! j) as [[| | | |]|] eqn:Hw; try discriminate.
    destruct (in_nextChunk s && negb (bool_decide (chunkID s ∈ qWait s))); [|discriminate].
    injection Hstep as <-. cbn [workers] in Hi'.
    destruct (decide (j = i)) as [->|Hj]; [congruence|]. now rewrite Hother in Hi'.
  - destruct (reader s); try discriminate.
    injection Hstep as <-. cbn [workers] in Hi'. contradiction.
  - destruct (in_nextChunk s && bool_decide (chunkID s ∈ qWait s)); [|discriminate].
    injection Hstep as <-. cbn [workers] in Hi'. contradiction.
  - destruct (reader s); try discriminate.
    injection Hstep as <-. cbn [workers] in Hi'. contradiction.
  - destruct (workers s !! j) as [[| | | |]|] eqn:Hw; try discriminate.
    destruct ((qWaitLen s <? qWaitMax) || closed s) eqn:Hg; [|discriminate].
    injection Hstep as <-. cbn [set_worker workers] in Hi'.
    destruct (decide (j = i)) as [->|Hj]; [|now rewrite Hother in Hi'].
    split; [reflexivity|].
    apply orb_true_iff in Hg. destruct Hg as [Hg|Hg]; [left; now apply Z.ltb_lt|now right].
  - destruct (workers s !! j) as [[| | | |]|] eqn:Hw; try discriminate.
    destruct (next s <? chunkTotal s); [discriminate|].
    injection Hstep as <-. cbn [set_worker workers] in Hi'.
    destruct (decide (j = i)) as [->|Hj]; [congruence|]. now rewrite Hother in Hi'.
  - destruct (closed s); [discriminate|].
    injection Hstep as <-. cbn [workers] in Hi'. contradiction.
Qed.

(** C5 (as amended).  In every state the goroutines of a getter with
    [W] workers can reach, as long as the getter is not closed: qWait
    holds at most [W + 2] chunks, and qWaitLen is at most [W + 2]; and a
    worker that stands at the gate after publishing its chunk leaves it
    only by a step taken with [qWaitLen < qWaitMax]. *)
Theorem qWait_bounded_by_the_workers :
  forall (W : nat) (T : Z) (s : state),
    Z.of_nat W + 3 < 2 ^ 64 ->
    reachable W T s ->
    closed s = false ->
    Z.of_nat (size (qWait s)) <= Z.of_nat W + 2
    /\ 0 <= qWaitLen s <= Z.of_nat W + 2
    /\ (forall (l : label) (s' : state) (i : nat),
           step l s = Some s' ->
           workers s !! i = Some WParked ->
           workers s' !! i <> Some WParked ->
           l = Gate i /\ qWaitLen s < qWaitMax).
Proof.
  intros W T s HW [ls Hrun] Hc.
  destruct (init_inv W T) as [Hi0 Hl0].
  destruct (run_inv W ls _ _ HW Hl0 Hi0 Hrun) as [Hinv Hlen].
  destruct (Hinv Hc) as (H1 & H0 & H2).
  pose proof (parked_bounds (workers s)) as Hpb. rewrite Hlen in Hpb.
  assert (Hp : 0 <= pending s <= 1) by (unfold pending; destruct (reader s); lia).
  split; [lia|]. split; [lia|].
  intros l s' i Hstep Hi Hi'.
  destruct (leaves_gate l s s' i Hstep Hi Hi') as [Hl [Hq|Hq]]; [now split|congruence].
Qed.

Lemma three_waiting_reachable : reachable 3 4 three_waiting.
Proof. exists slow_first_chunk. vm_compute. reflexivity. Qed.

Lemma qWait_bounded_by_the_workers_witness :
  Z.of_nat (size (qWait three_waiting)) <= Z.of_nat 3 + 2
  /\ 0 <= qWaitLen three_waiting <= Z.of_nat 3 + 2
  /\ (forall (l : label) (s' : state) (i : nat),
         step l three_waiting = Some s' ->
         workers three_waiting !! i = Some WParked ->
         workers s' !! i <> Some WParked ->
         l = Gate i /\ qWaitLen three_waiting < qWaitMax).
Proof.
  apply (qWait_bounded_by_the_workers 3 4 three_waiting);
    [vm_compute; reflexivity | exact three_waiting_reachable | reflexivity].
Defined.

(** C5, the claim as stated, fails: with three workers the open getter
    reaches a state in which qWait holds the three chunks 1, 2 and 3, none
    of them the chunk the reader waits for, and qWaitLen is 3; when the
    slow chunk 0 is published as well, qWait holds four. *)
Lemma qWait_exceeds_qWaitMax :
  exists s s' : state,
    reachable 3 4 s /\ closed s = false
    /\ size (qWait s) = 3%nat /\ qWaitLen s = 3
    /\ bool_decide (chunkID s ∈ qWait s) = false
    /\ qWaitMax = 2
    /\ run [Fetched 0; Publish 0; Count]%nat s = Some s' /\ closed s' = false
    /\ size (qWait s') = 4%nat /\ qWaitLen s' = 4.
Proof.
  exists three_waiting. eexists.
  split; [exact three_waiting_reachable|].
  vm_compute. repeat split.
Qed.

(** X6.  The bound [W + 2] is met: two workers, four chunks.  The worker
    that holds chunks 1, 2 and 3 in turn passes the gate twice before the
    reader has counted the chunk it just received. *)
Example qWait_reaches_the_bound :
  exists s : state,
    run [Dispatch 0; Dispatch 1;
         Fetched 1; Publish 1; Gate 1; Count; Dispatch 1;
         Fetched 1; Publish 1; Gate 1; Count; Dispatch 1;
         Fetched 1; Publish 1; Count;
         Fetched 0; Publish 0; Count]%nat (init 2 4) = Some s
    /\ closed s = false /\ size (qWait s) = 4%nat /\ qWaitLen s = 4.
Proof. eexists. vm_compute. repeat split. Qed.

End PipelineFacts.

(** ** s3gof3r.go *)

Module S3gof3rFacts.
Import Int64 Util Getter Regexp S3gof3r S3gof3rSpec.

(** *** The empty path *)

(** C9.  For the empty path GetReader and GetAsync (in either revision)
    return the error whose message is "empty path requested", and the
    world is as before the call: no request was attempted, and no buffer
    pool, worker or other goroutine was made. *)
Theorem empty_path_is_refused :
  forall (transport : nat -> attempt) (url : Bucket -> string -> Config -> error + string)
         (b : Bucket) (c : option Config) (now : Z) (w : world),
    GetReader transport url b "" c w = Ret (inl (ErrorString "empty path requested"), w)
    /\ RevB.GetAsync transport url b "" c now w
       = Ret (inl (ErrorString "empty path requested"), w)
    /\ RevA.GetAsync transport url b "" c now w
       = Ret (inl (ErrorString "empty path requested"), w)
    /\ Error (ErrorString "empty path requested") = "empty path requested"%string.
Proof. intros. repeat split. Qed.

(* for comparison, a path that is not empty: one request, then the pool,
   the workers and the dispatcher *)
Example nonempty_path_starts_the_pipeline :
  let transport := fun _ : nat => DoOk (mkResponse 200 12 ∅ "") in
  let url := fun (_ : Bucket) (p : string) (_ : Config) =>
               @inr error string ("https://bucket.s3.amazonaws.com/" ++ p)%string in
  let b := mkBucket (mkS3 "s3.amazonaws.com") "bucket" None in
  let c := Some (mkConfig 2 5 3 false "https" false) in
  match GetReader transport url b "key" c (mkWorld 0 []) with
  | Ret (inr (g, _), w) =>
      chunkTotal g = 3 /\ attempts w = 1%nat
      /\ rev (effects w)
         = [HttpDo "GET" "https://bucket.s3.amazonaws.com/key"; BufferPool 5;
            GoWorker; GoWorker; GoInitChunks]
  | _ => False
  end.
Proof. vm_compute. repeat split. Qed.

(** *** Region *)

(** C10 (as amended).  Region panics with "can't find endpoint region"
    exactly when AWS_REGION is empty and the Domain is either the
    accelerate endpoint or a domain that is neither a us-east-1 endpoint
    nor a match of the pattern; in every other case it returns a region. *)
Theorem Region_panics_without_a_region :
  forall (AWS_REGION : string) (s : S3),
    (AWS_REGION = ""%string /\ needs_AWS_REGION (Domain s) ->
     RevB.Region AWS_REGION s = Panic panic_message)
    /\ (~ (AWS_REGION = ""%string /\ needs_AWS_REGION (Domain s)) ->
        exists region : string, RevB.Region AWS_REGION s = Ret region).
Proof.
  intros env [d]. cbn [Domain]. unfold RevB.Region, needs_AWS_REGION, us_east_1_endpoint.
  cbn [Domain].
  destruct (String.eqb_spec d "s3.amazonaws.com") as [E1|E1].
  { cbn [orb]. split; [intros (_ & Hn & _); tauto | eauto]. }
  destruct (String.eqb_spec d "s3-external-1.amazonaws.com") as [E2|E2].
  { cbn [orb]. split; [intros (_ & Hn & _); tauto | eauto]. }
  cbn [orb].
  destruct (String.eqb_spec d "s3-accelerate.amazonaws.com") as [E3|E3].
  { destruct (String.eqb_spec env "") as [E4|E4].
    - split; [reflexivity|]. intros Hn. exfalso. apply Hn.
      split; [exact E4|]. split; [tauto|]. now left.
    - split; [intros [H _]; contradiction | eauto]. }
  destruct (Nat.ltb_spec (length (FindStringSubmatch RevB.regionMatcher d)) 2) as [E5|E5].
  - destruct (String.eqb_spec env "") as [E4|E4].
    + split; [reflexivity|]. intros Hn. exfalso. apply Hn.
      split; [exact E4|]. split; [tauto|]. now right.
    + split; [intros [H _]; contradiction | eauto].
  - split; [|eauto].
    intros (_ & _ & [H|H]); [contradiction | lia].
Qed.

(** C10, the claim as stated, fails on the accelerate endpoint: it is one
    of the endpoints Region recognizes by name, and it matches the pattern
    as well, so the claim has Region return for it; with AWS_REGION empty
    Region panics. *)
Lemma Region_panics_on_accelerate_endpoint :
  RevB.Region "" (mkS3 accelerate_endpoint) = Panic panic_message
  /\ (2 <= length (FindStringSubmatch RevB.regionMatcher accelerate_endpoint))%nat
  /\ RevB.Region "eu-west-1" (mkS3 accelerate_endpoint) = Ret "eu-west-1"%string.
Proof. vm_compute. repeat split; lia. Qed.

(** X5.  The revision [RevA] has no case for the accelerate endpoint:
    there Region panics exactly when AWS_REGION is empty and the Domain is
    neither a us-east-1 endpoint nor a match of the pattern. *)
Lemma RevA_Region_panics_without_a_region (AWS_REGION : string) (s : S3) :
  let unknown := ~ us_east_1_endpoint (Domain s)
                 /\ (length (FindStringSubmatch RevA.regionMatcher (Domain s)) < 2)%nat in
  (AWS_REGION = ""%string /\ unknown -> RevA.Region AWS_REGION s = Panic panic_message)
  /\ (~ (AWS_REGION = ""%string /\ unknown) ->
      exists region : string, RevA.Region AWS_REGION s = Ret region).
Proof.
  destruct s as [d]. cbn [Domain]. unfold RevA.Region, us_east_1_endpoint. cbn [Domain].
  destruct (String.eqb_spec d "s3.amazonaws.com") as [E1|E1].
  { cbn [orb]. split; [intros (_ & Hn & _); tauto | eauto]. }
  destruct (String.eqb_spec d "s3-external-1.amazonaws.com") as [E2|E2].
  { cbn [orb]. split; [intros (_ & Hn & _); tauto | eauto]. }
  cbn [orb].
  destruct (Nat.ltb_spec (length (FindStringSubmatch RevA.regionMatcher d)) 2) as [E5|E5].
  - destruct (String.eqb_spec AWS_REGION "") as [E4|E4]; cbn [negb].
    + split; [reflexivity|]. intros Hn. exfalso. apply Hn. split; [exact E4|]. tauto.
    + split; [intros [H _]; contradiction | eauto].
  - split; [|eauto]. intros (_ & _ & H). lia.
Qed.

(* the domains of TestRegion *)
Example Region_of_the_test_domains :
  RevB.Region "" (mkS3 "s3.amazonaws.com") = Ret "us-east-1"%string
  /\ RevB.Region "" (mkS3 "s3-external-1.amazonaws.com") = Ret "us-east-1"%string
  /\ RevB.Region "" (mkS3 "s3-sa-east-1.amazonaws.com") = Ret "sa-east-1"%string
  /\ RevA.Region "" (mkS3 "s3-sa-east-1.amazonaws.com") = Ret "sa-east-1"%string.
Proof. vm_compute. repeat split. Qed.

(** *** PutController.Stop *)

Lemma loop_ticks_runs (ticks : list Z) :
  forall p : PutController,
    is_Some (pc_st p) ->
    exists st' : speedTracker,
      loop_ticks ticks p = Ret (set_st (Some st') p).
Proof.
  induction ticks as [|now ticks IH]; intros p [st Hst].
  - exists st. cbn [loop_ticks]. destruct p as [t pt st0 State Reason].
    cbn in Hst. subst st0. reflexivity.
  - cbn [loop_ticks]. unfold loop_tick. rewrite Hst.
    destruct (IH (set_st (Some (fst (update st (p_BytesDone (pc_putter p)) now))) p))
      as [st' Hst']; [eexists; reflexivity|].
    exists st'. rewrite Hst'. reflexivity.
Qed.

(* The revision [RevB]: on a controller whose upload is in progress Stop
   returns ErrStopped, and the controller it leaves has the State
   "Stopped", set by the loop, and the Reason it had before. *)
Lemma RevB_Stop_in_progress (started : bool) (ticks : list Z) (p : PutController) :
  in_progress p ->
  is_Some (pc_st p) ->
  exists p' : PutController,
    RevB.Stop started ticks p = Ret (p', Some ErrStopped)
    /\ pc_State p' = "Stopped"%string
    /\ pc_Reason p' = pc_Reason p.
Proof.
  intros (Ha & Hw & Hd) [st0 Hst].
  destruct p as [[alive why dead] [perr ntry parts done] st State Reason].
  cbn in Ha, Hw, Hd, Hst. subst alive why dead st.
  unfold RevB.Stop, RevB.loop_finish.
  cbn [pc_putter pc_t set_putter set_t set_State Tomb.Kill Tomb.why Tomb.dead Tomb.alive
       p_err p_NTry p_parts_closed p_BytesDone pc_st pc_State pc_Reason Z.eqb Pos.eqb].
  match goal with |- context [loop_ticks ticks ?q] =>
    destruct (loop_ticks_runs ticks q ltac:(destruct started; eexists; reflexivity))
      as [st' Hticks]; rewrite Hticks end.
  destruct started, parts; eexists; repeat split.
Qed.

(** X4.  The revision [RevA]: on a controller whose upload is in
    progress Stop itself sets the State to "Failed" and the Reason to the
    message of the error Wait returns, "Stopped". *)
Lemma RevA_Stop_in_progress (started : bool) (ticks : list Z) (p : PutController) :
  in_progress p ->
  is_Some (pc_st p) ->
  exists p' : PutController,
    RevA.Stop started ticks p = Ret (p', Some ErrStopped)
    /\ pc_State p' = "Failed"%string
    /\ pc_Reason p' = "Stopped"%string.
Proof.
  intros (Ha & Hw & Hd) [st0 Hst].
  destruct p as [[alive why dead] [perr ntry parts done] st State Reason].
  cbn in Ha, Hw, Hd, Hst. subst alive why dead st.
  unfold RevA.Stop, RevA.loop_finish.
  cbn [pc_putter pc_t set_putter set_t set_State Tomb.Kill Tomb.why Tomb.dead Tomb.alive
       p_err p_NTry p_parts_closed p_BytesDone pc_st pc_State pc_Reason Z.eqb Pos.eqb].
  match goal with |- context [loop_ticks ticks ?q] =>
    destruct (loop_ticks_runs ticks q ltac:(destruct started; eexists; reflexivity))
      as [st' Hticks]; rewrite Hticks end.
  destruct started; eexists; repeat split.
Qed.

Lemma RevA_Stop_in_progress_witness :
  exists p' : PutController,
    RevA.Stop true [40000000] upload_in_progress = Ret (p', Some ErrStopped)
    /\ pc_State p' = "Failed"%string
    /\ pc_Reason p' = "Stopped"%string.
Proof.
  apply (RevA_Stop_in_progress true [40000000] upload_in_progress).
  - repeat split.
  - eexists. reflexivity.
Defined.

(** C6.  Stop on that controller, in the revision [RevB]: it returns
    ErrStopped, and the controller is left with State "Stopped" and an
    empty Reason, where the claim (and TestPutAsyncCancel) have "Failed"
    and "Stopped".  In the revision [RevA] the same call leaves "Failed"
    and "Stopped". *)
Theorem Stop_leaves_State_Stopped_and_no_Reason :
  (exists p' : PutController,
      RevB.Stop true [40000000] upload_in_progress = Ret (p', Some ErrStopped)
      /\ pc_State p' = "Stopped"%string /\ pc_Reason p' = ""%string
      /\ p_err (pc_putter p') = Some ErrStopped)
  /\ (exists p' : PutController,
         RevA.Stop true [40000000] upload_in_progress = Ret (p', Some ErrStopped)
         /\ pc_State p' = "Failed"%string /\ pc_Reason p' = "Stopped"%string).
Proof.
  split; eexists; (split; [vm_compute; reflexivity|]); vm_compute; repeat split.
Qed.

End S3gof3rFacts.

(** ** getter.go: the chunks are put back in order *)

Module ReassemblyFacts.
Import Int64 Int64Facts Util Getter GetterSpec ChunkFacts ReassemblySpec.

Lemma payload_slice (c : chunk) :
  0 <= size c <= len (b c) ->
  forall i, 0 <= i <= size c ->
    slice (b c) i (size c) = Some (drop (Z.to_nat i) (payload c)).
Proof.
  intros Hs i Hi. unfold slice, payload, len in *.
  assert (E : (0 <=? i) && (i <=? size c) && (size c <=? Z.of_nat (length (b c))) = true).
  { rewrite !andb_true_iff, !Z.leb_le. lia. }
  rewrite E. f_equal. rewrite take_drop_commute. f_equal. f_equal. lia.
Qed.

Lemma drop_lookup_concat (cs : list chunk) (k : nat) (c : chunk) :
  cs !! k = Some c ->
  concat (map payload (drop k cs)) = payload c ++ concat (map payload (drop (S k) cs)).
Proof.
  intros H. rewrite (drop_S cs c k H). reflexivity.
Qed.

Lemma take_lookup_concat (cs : list chunk) (k : nat) (c : chunk) :
  cs !! k = Some c ->
  concat (map payload (take (S k) cs)) = concat (map payload (take k cs)) ++ payload c.
Proof.
  intros H. rewrite (take_S_r cs k c H), map_app, concat_app. cbn. now rewrite app_nil_r.
Qed.


Ltac getter_cbn :=
  cbn [set_err set_chunkID set_rChunk set_bytesRead set_qWait set_qWaitLen
       set_activeChunks set_sp_give set_closed set_md5 set_cIdx
       bufsz err chunkID rChunk contentLen bytesRead chunkTotal qWait qWaitLen
       activeChunks sp_give closed c_NTry c_Concurrency c_Md5Check md5 cIdx] in *.

(* the chunk the reader waits for is in qWait: it is taken *)
Lemma nextChunk_takes (check : bool) (L : Z) (cs : list chunk) (Hcs : object_chunks cs) (readCh : list chunk)
    (g : getter) (c : chunk) :
  reassembling check L cs g readCh -> rChunk g = None -> chunkID g < len cs ->
  qWait g !! chunkID g = Some c ->
  exists g1 : getter,
    nextChunk readCh g = Ret (g1, readCh, Some c, None)
    /\ reassembling check L cs (set_cIdx 0 (set_rChunk (Some c) g1)) readCh
    /\ remaining cs (set_cIdx 0 (set_rChunk (Some c) g1)) = remaining cs g
    /\ chunkID g1 = chunkID g.
Proof.
  intros R Hr Hlt Hq.
  destruct (ra_qWait _ _ _ _ _ R _ _ Hq) as [Hk0 Hc].
  destruct (Hcs _ _ Hc) as (Hid & Hsz & _).
  pose proof (payload_slice c Hsz 0 ltac:(lia)) as Hsl. cbn [Z.to_nat drop] in Hsl.
  set (g0 := set_qWaitLen (wrapu64 (qWaitLen g - 1))
               (set_qWait (delete (chunkID g) (qWait g)) g)).
  set (m := if c_Md5Check g then md5 g ++ payload c else md5 g).
  exists (set_md5 m g0).
  assert (Hn : nextChunk readCh g = Ret (set_md5 m g0, readCh, Some c, None)).
  { assert (He : nextChunk readCh g
                 = if c_Md5Check g then Ret (set_md5 (md5 g ++ payload c) g0, readCh, Some c, None)
                   else Ret (g0, readCh, Some c, None)).
    { destruct readCh; cbn [nextChunk]; rewrite Hq; cbv zeta; getter_cbn;
        destruct (c_Md5Check g); try rewrite Hsl; reflexivity. }
    rewrite He. unfold m, g0. destruct g. getter_cbn.
    destruct c_Md5Check0; reflexivity. }
  split; [exact Hn|]. clear Hn.
  assert (Hnext : next_id g = chunkID g) by (unfold next_id; now rewrite Hr).
  assert (HS : Z.to_nat (chunkID g + 1) = S (Z.to_nat (chunkID g))).
  { pose proof (ra_id _ _ _ _ _ R). lia. }
  assert (Hrem : remaining cs (set_cIdx 0 (set_rChunk (Some c) (set_md5 m g0)))
                 = remaining cs g).
  { unfold remaining, next_id, g0. rewrite Hr. getter_cbn.
    change (Z.to_nat 0) with O. cbn [drop app].
    rewrite (drop_lookup_concat cs _ c Hc), HS. reflexivity. }
  split; [|split; [exact Hrem|reflexivity]].
  unfold g0 in *. clear g0.
  destruct R as [R1 R2 R3 R4 R5 R6 R7 R8 R9 R10 R11 R12 R13 R14].
  constructor; try assumption.
  - rewrite Hrem. exact R7.
  - intros c' Hc'. getter_cbn. injection Hc' as <-. split; [exact Hc | lia].
  - intros k c' Hk. getter_cbn.
    apply lookup_delete_Some in Hk. destruct Hk as [_ Hk]. eauto.
  - intros k Hk. unfold next_id in Hk. getter_cbn.
    destruct (R12 k ltac:(lia)) as [Hin|Hin]; [left|now right].
    rewrite lookup_delete_ne by lia. exact Hin.
  - intros Hm. unfold next_id. getter_cbn. unfold m. rewrite R13, Hm.
    rewrite HS, (take_lookup_concat cs _ c Hc). f_equal.
    rewrite (R14 Hm), Hnext. reflexivity.
Qed.

(* nextChunk finds the chunk the reader waits for, wherever it stands in
   the order of arrival *)
Lemma nextChunk_finds (check : bool) (L : Z) (cs : list chunk) (Hcs : object_chunks cs) (readCh : list chunk) :
  forall g : getter,
    reassembling check L cs g readCh -> rChunk g = None -> chunkID g < len cs ->
    exists (g1 : getter) (ch1 : list chunk) (c : chunk),
      nextChunk readCh g = Ret (g1, ch1, Some c, None)
      /\ reassembling check L cs (set_cIdx 0 (set_rChunk (Some c) g1)) ch1
      /\ remaining cs (set_cIdx 0 (set_rChunk (Some c) g1)) = remaining cs g
      /\ chunkID g1 = chunkID g.
Proof.
  induction readCh as [|c0 rest IH]; intros g R Hr Hlt.
  - destruct (qWait g !! chunkID g) as [c|] eqn:Hq.
    + destruct (nextChunk_takes check L cs Hcs [] g c R Hr Hlt Hq) as (g1 & H); eauto.
    + exfalso. assert (Hnext : next_id g = chunkID g) by (unfold next_id; now rewrite Hr).
      destruct (ra_avail _ _ _ _ _ R (chunkID g) ltac:(pose proof (ra_id _ _ _ _ _ R); lia))
        as [[c Hc]|Hex]; [congruence|].
      now apply Exists_nil in Hex.
  - destruct (qWait g !! chunkID g) as [c|] eqn:Hq.
    + destruct (nextChunk_takes check L cs Hcs (c0 :: rest) g c R Hr Hlt Hq) as (g1 & H); eauto.
    + cbn [nextChunk]. rewrite Hq. getter_cbn.
      set (g2 := set_qWaitLen (wrapu64 (qWaitLen g + 1))
                   (set_qWait (<[id c0:=c0]> (qWait g)) g)).
      assert (Hrem2 : remaining cs g2 = remaining cs g) by reflexivity.
      assert (R2 : reassembling check L cs g2 rest).
      { destruct R as [R1 R2 R3 R4 R5 R6 R7 R8 R9 R10 R11 R12 R13 R14].
        apply Forall_cons in R11. destruct R11 as [[Hc0a Hc0b] R11].
        constructor; try assumption.
        - intros k c Hk. unfold g2 in Hk. getter_cbn.
          apply lookup_insert_Some in Hk. destruct Hk as [[<- <-]|[_ Hk]]; eauto.
        - intros k Hk. destruct (R12 k Hk) as [Hin|Hex].
          + left. unfold g2. getter_cbn.
            destruct (Z.eq_dec (id c0) k) as [->|Hne];
              [rewrite lookup_insert_eq; eauto | now rewrite lookup_insert_ne].
          + apply Exists_cons in Hex. destruct Hex as [<-|Hex]; [left|now right].
            unfold g2. getter_cbn. rewrite lookup_insert_eq. eauto. }
      destruct (IH g2 R2 Hr Hlt) as (g1 & ch1 & c & Hn & HR & Hrem & Hid).
      exists g1, ch1, c. split; [exact Hn|]. split; [exact HR|]. split; [|exact Hid].
      now rewrite Hrem.
Qed.


(* the chunk Read copies from, fetched by nextChunk where the reader holds
   none *)
Lemma ensure_rChunk_holds (check : bool) (L : Z) (cs : list chunk) (Hcs : object_chunks cs) (g : getter)
    (readCh : list chunk) :
  reassembling check L cs g readCh -> chunkID g < len cs ->
  exists (gA : getter) (chA : list chunk) (c : chunk),
    ensure_rChunk g readCh = Ret (gA, chA, inr c)
    /\ reassembling check L cs gA chA
    /\ remaining cs gA = remaining cs g
    /\ rChunk gA = Some c
    /\ chunkID gA = chunkID g.
Proof.
  intros R Hlt. unfold ensure_rChunk. destruct (rChunk g) as [c|] eqn:Hr.
  - exists g, readCh, c. split; [reflexivity|]. split; [exact R|].
    split; [reflexivity|]. split; [exact Hr | reflexivity].
  - destruct (nextChunk_finds check L cs Hcs readCh g R Hr Hlt) as (g1 & ch1 & c & Hn & HR & Hrem & Hid).
    rewrite Hn. eexists _, ch1, c. split; [reflexivity|]. split; [exact HR|].
    split; [exact Hrem|]. split; [reflexivity | exact Hid].
Qed.

Lemma remaining_nil_count (check : bool) (L : Z) (cs : list chunk) (g : getter) (readCh : list chunk) :
  reassembling check L cs g readCh ->
  (remaining cs g = [] <-> bytesRead g = contentLen g).
Proof.
  intros R. pose proof (ra_count _ _ _ _ _ R) as Hc. unfold len in Hc. split.
  - intros E. rewrite E in Hc. cbn in Hc. lia.
  - intros E. destruct (remaining cs g); [reflexivity|]. cbn [length] in Hc. lia.
Qed.

(* an iteration of Read's loop with bytes still to deliver copies the next
   [k] of them into p[nw:] *)
Lemma Read_iter_delivers (check : bool) (L : Z) (cs : list chunk) (Hcs : object_chunks cs) (g : getter)
    (readCh : list chunk) (p : list byte) (nw : nat) :
  reassembling check L cs g readCh -> (nw < length p)%nat -> remaining cs g <> [] ->
  exists (g1 : getter) (ch1 : list chunk) (k : nat),
    Read_iter g readCh p (Z.of_nat nw)
    = Ret (inr (g1, ch1, take nw p ++ take k (remaining cs g) ++ drop (nw + k) p,
                Z.of_nat nw + Z.of_nat k))
    /\ reassembling check L cs g1 ch1
    /\ remaining cs g1 = drop k (remaining cs g)
    /\ (k <= length (remaining cs g))%nat /\ (nw + k <= length p)%nat
    /\ (len p - Z.of_nat nw - Z.of_nat k) + (len cs - chunkID g1)
       < (len p - Z.of_nat nw) + (len cs - chunkID g).
Proof.
  intros R Hnw Hrest.
  assert (Hne : bytesRead g <> contentLen g).
  { intros E. apply Hrest. now apply (remaining_nil_count check L cs g readCh R). }
  pose proof (ra_count _ _ _ _ _ R) as Hcount.
  assert (Hlt : chunkID g < len cs).
  { pose proof (ra_id _ _ _ _ _ R) as Hid.
    destruct (Z.eq_dec (chunkID g) (len cs)) as [E|E]; [exfalso|lia].
    apply Hrest. unfold remaining, next_id. destruct (rChunk g) as [c|] eqn:Hr.
    - destruct (ra_rChunk _ _ _ _ _ R c Hr) as [Hc _].
      apply lookup_lt_Some in Hc. unfold len in E. lia.
    - rewrite drop_ge by (unfold len in E; lia). reflexivity. }
  unfold Read_iter.
  assert (E1 : (bytesRead g =? contentLen g) = false) by now apply Z.eqb_neq.
  assert (E2 : (bytesRead g >? contentLen g) = false).
  { unfold Z.gtb. destruct (bytesRead g ?= contentLen g) eqn:Ec; try reflexivity.
    apply Z.compare_gt_iff in Ec. unfold len in Hcount. lia. }
  assert (E3 : (chunkID g >=? chunkTotal g) = false).
  { rewrite (ra_total _ _ _ _ _ R). unfold Z.geb.
    destruct (chunkID g ?= len cs) eqn:Ec; try reflexivity.
    - apply Z.compare_eq_iff in Ec. lia.
    - apply Z.compare_gt_iff in Ec. lia. }
  rewrite E1, E2, E3.
  destruct (ensure_rChunk_holds check L cs Hcs g readCh R Hlt)
    as (gA & chA & c & He & RA & HremA & HrA & HidA).
  rewrite He. rewrite <- HremA. rewrite <- HidA. clear He E1 E2 E3 Hne Hcount R Hlt.
  rewrite <- HremA in Hrest. clear HremA HidA g readCh.
  destruct RA as [R1 R2 R3 R4 R5 R6 R7 R8 R9 R10 R11 R12 R13 R14].
  destruct (R9 c HrA) as [Hc Hidx].
  destruct (Hcs _ _ Hc) as (Hid & Hsz & Hmax).
  rewrite (payload_slice c Hsz (cIdx gA) Hidx).
  set (src := drop (Z.to_nat (cIdx gA)) (payload c)).
  set (X := concat (map payload (drop (Z.to_nat (chunkID gA + 1)) cs))).
  assert (Hrem : remaining cs gA = src ++ X).
  { unfold remaining, next_id. rewrite HrA. reflexivity. }
  assert (Hsrc : length src = Z.to_nat (size c - cIdx gA)).
  { unfold src, payload, len in *. rewrite length_drop, length_take. lia. }
  unfold copy. rewrite Nat2Z.id, length_drop.
  set (k := Nat.min (length p - nw) (length src)).
  assert (Hk : (k <= length p - nw)%nat /\ (k <= length src)%nat) by (unfold k; lia).
  exists (if cIdx gA + Z.of_nat k >=? size c
          then chunk_complete c (set_bytesRead (bytesRead gA + Z.of_nat k)
                                   (set_cIdx (cIdx gA + Z.of_nat k) gA))
          else set_bytesRead (bytesRead gA + Z.of_nat k)
                 (set_cIdx (cIdx gA + Z.of_nat k) gA)), chA, k.
  assert (Hlenrem : length (remaining cs gA) = (length src + length X)%nat).
  { rewrite Hrem. apply length_app. }
  unfold len in R7.
  assert (A1 : add64 (cIdx gA) (Z.of_nat k) = cIdx gA + Z.of_nat k).
  { apply add64_id. int64_lia. }
  assert (A2 : add64 (bytesRead gA) (Z.of_nat k) = bytesRead gA + Z.of_nat k).
  { apply add64_id. int64_lia. }
  split.
  { getter_cbn. rewrite A1, A2. rewrite Hrem, (take_app_le src X k) by lia.
    rewrite drop_drop. reflexivity. }
  assert (Hdrop : drop k (remaining cs gA)
                  = drop (Z.to_nat (cIdx gA + Z.of_nat k)) (payload c) ++ X).
  { rewrite Hrem, drop_app_le by lia. unfold src. rewrite drop_drop.
    do 2 f_equal. lia. }
  destruct (cIdx gA + Z.of_nat k >=? size c) eqn:Edone.
  - (* the chunk is complete *)
    assert (Hfull : cIdx gA + Z.of_nat k = size c).
    { unfold Z.geb in Edone. destruct (cIdx gA + Z.of_nat k ?= size c) eqn:Ec.
      - now apply Z.compare_eq_iff in Ec.
      - discriminate.
      - apply Z.compare_gt_iff in Ec. lia. }
    assert (Hlk : (Z.to_nat (chunkID gA) < length cs)%nat) by now apply lookup_lt_Some in Hc.
    assert (A3 : add64 (chunkID gA) 1 = chunkID gA + 1).
    { apply add64_id. unfold len in *. int64_lia. }
    assert (Hrem' : remaining cs (chunk_complete c (set_bytesRead (bytesRead gA + Z.of_nat k)
                                   (set_cIdx (cIdx gA + Z.of_nat k) gA)))
                    = drop k (remaining cs gA)).
    { rewrite Hdrop. unfold remaining, next_id, chunk_complete. getter_cbn.
      rewrite A3. fold X. cbn [app].
      rewrite drop_ge; [reflexivity|]. unfold payload. rewrite length_take. lia. }
    split; [|split; [exact Hrem'|]].
    + constructor; try (unfold chunk_complete; getter_cbn; rewrite ?A3; assumption).
      * unfold chunk_complete. getter_cbn. rewrite A3. unfold len. lia.
      * rewrite Hrem'. unfold chunk_complete. getter_cbn. unfold len.
        rewrite length_drop. lia.
      * unfold chunk_complete. getter_cbn. lia.
      * unfold chunk_complete. getter_cbn. discriminate.
      * intros j Hj. apply R12. revert Hj. unfold next_id, chunk_complete. getter_cbn.
        rewrite A3, HrA. lia.
      * intros Hm. unfold chunk_complete in *. getter_cbn. rewrite (R14 Hm).
        unfold next_id. getter_cbn. now rewrite A3, HrA.
    + unfold chunk_complete. getter_cbn. rewrite A3. lia.
  - (* the buffer is full and the chunk goes on *)
    assert (Hpart : cIdx gA + Z.of_nat k < size c).
    { unfold Z.geb in Edone. destruct (cIdx gA + Z.of_nat k ?= size c) eqn:Ec; try discriminate.
      now apply Z.compare_lt_iff in Ec. }
    assert (Hrem' : remaining cs (set_bytesRead (bytesRead gA + Z.of_nat k)
                                   (set_cIdx (cIdx gA + Z.of_nat k) gA))
                    = drop k (remaining cs gA)).
    { rewrite Hdrop. unfold remaining, next_id. getter_cbn. now rewrite HrA. }
    split; [|split; [exact Hrem'|]].
    + constructor; try (getter_cbn; assumption).
      * rewrite Hrem'. getter_cbn. unfold len. rewrite length_drop. lia.
      * getter_cbn. lia.
      * getter_cbn. intros c' Hc'. rewrite HrA in Hc'. injection Hc' as <-.
        split; [exact Hc | lia].
    + getter_cbn. lia.
Qed.

Lemma splice {A : Type} (p rest : list A) (nw k n' : nat) :
  (nw + k <= length p)%nat -> (k <= length rest)%nat ->
  let p1 := take nw p ++ take k rest ++ drop (nw + k) p in
  take (nw + k) p1 ++ take n' (drop k rest) ++ drop (nw + k + n') p1
  = take nw p ++ take (k + n') rest ++ drop (nw + (k + n')) p.
Proof.
  intros Hp Hr p1.
  assert (L1 : length (take nw p) = nw) by (rewrite length_take; lia).
  assert (L2 : length (take k rest) = k) by (rewrite length_take; lia).
  assert (Hp1 : p1 = (take nw p ++ take k rest) ++ drop (nw + k) p)
    by (unfold p1; now rewrite <- app_assoc).
  assert (L3 : length (take nw p ++ take k rest) = (nw + k)%nat)
    by (rewrite length_app; lia).
  rewrite Hp1.
  rewrite (take_app_length' _ _ (nw + k)) by (symmetry; exact L3).
  replace (nw + k + n')%nat with (length (take nw p ++ take k rest) + n')%nat by lia.
  rewrite drop_app_add, drop_drop.
  rewrite <- !app_assoc. f_equal. rewrite !app_assoc. f_equal; [|f_equal; lia].
  apply take_take_drop.
Qed.

(* the loop of Read *)
Lemma Read_loop_delivers (check : bool) (L : Z) (cs : list chunk) (Hcs : object_chunks cs) (fuel : nat) :
  forall (g : getter) (readCh : list chunk) (p : list byte) (nw : nat),
    reassembling check L cs g readCh -> (nw <= length p)%nat ->
    (len p - Z.of_nat nw) + (len cs - chunkID g) < Z.of_nat fuel ->
    let rest := remaining cs g in
    let n := Nat.min (length p - nw) (length rest) in
    exists (g' : getter) (ch' : list chunk),
      Read_loop fuel g readCh p (Z.of_nat nw)
      = Ret (g', ch', take nw p ++ take n rest ++ drop (nw + n) p, Z.of_nat (nw + n),
             if (length rest <? length p - nw)%nat then Some EOF else None)
      /\ reassembling check L cs g' ch' /\ remaining cs g' = drop n rest.
Proof.
  induction fuel as [|fuel IH]; intros g readCh p nw R Hnw Hfuel; cbv zeta.
  { pose proof (ra_id _ _ _ _ _ R). unfold len in *. lia. }
  cbn [Read_loop]. unfold len at 1.
  set (rest := remaining cs g).
  destruct (Z.of_nat nw <? Z.of_nat (length p)) eqn:E.
  2:{ apply Z.ltb_ge in E.
      replace (Nat.min (length p - nw) (length rest)) with O by lia.
      exists g, readCh. rewrite Nat.add_0_r, take_0, drop_0. cbn [app].
      rewrite take_drop.
      assert (Hf : (length rest <? length p - nw)%nat = false) by (apply Nat.ltb_ge; lia).
      rewrite Hf. split; [reflexivity|]. split; [exact R | reflexivity]. }
  apply Z.ltb_lt in E.
  destruct (decide (rest = [])) as [Hnil|Hne].
  - (* nothing is left: the end of the stream *)
    unfold Read_iter.
    assert (E1 : (bytesRead g =? contentLen g) = true).
    { apply Z.eqb_eq. now apply (remaining_nil_count check L cs g readCh R). }
    rewrite E1. exists g, readCh. rewrite Hnil. cbn [length].
    rewrite Nat.min_0_r, Nat.add_0_r, take_0, drop_0. cbn [app]. rewrite take_drop.
    assert (Hf : (0 <? length p - nw)%nat = true) by (apply Nat.ltb_lt; lia).
    rewrite Hf. split; [reflexivity|]. split; [exact R | exact Hnil].
  - destruct (Read_iter_delivers check L cs Hcs g readCh p nw R ltac:(lia) Hne)
      as (g1 & ch1 & k & Hi & R1 & Hrem1 & Hk1 & Hk2 & Hdec).
    rewrite Hi. rewrite <- Nat2Z.inj_add. fold rest in Hrem1, Hk1.
    fold rest.
    set (p1 := take nw p ++ take k rest ++ drop (nw + k) p).
    assert (Hp1 : length p1 = length p).
    { unfold p1. rewrite !length_app, !length_take, length_drop. lia. }
    destruct (IH g1 ch1 p1 (nw + k)%nat R1 ltac:(lia)
                ltac:(unfold len in *; rewrite Hp1; lia))
      as (g' & ch' & HR & R' & Hrem').
    exists g', ch'. rewrite HR. rewrite Hrem1 in *. rewrite Hp1 in *.
    rewrite length_drop in *.
    set (n' := Nat.min (length p - (nw + k)) (length rest - k)) in *.
    replace (Nat.min (length p - nw) (length rest)) with (k + n')%nat by (unfold n'; lia).
    unfold p1 in *. rewrite (splice p rest nw k n' Hk2 Hk1).
    assert (Hf : (length rest - k <? length p - (nw + k))%nat
                 = (length rest <? length p - nw)%nat).
    { destruct (Nat.ltb_spec (length rest - k) (length p - (nw + k)));
      destruct (Nat.ltb_spec (length rest) (length p - nw)); lia || reflexivity. }
    rewrite Hf.
    rewrite (Nat.add_assoc nw k n'). split; [reflexivity|].
    split; [exact R'|]. rewrite Hrem', drop_drop. reflexivity.
Qed.

Lemma Read_delivers (check : bool) (L : Z) (cs : list chunk) (g : getter)
    (readCh : list chunk) (p : list byte) (fuel : nat) :
  object_chunks cs -> reassembling check L cs g readCh ->
  (length p + length cs < fuel)%nat ->
  let rest := remaining cs g in
  let n := Nat.min (length p) (length rest) in
  exists (g' : getter) (ch' : list chunk),
    Read fuel g readCh p
    = Ret (g', ch', take n rest ++ drop n p, Z.of_nat n,
           if (length rest <? length p)%nat then Some EOF else None)
    /\ reassembling check L cs g' ch' /\ remaining cs g' = drop n rest.
Proof.
  intros Hcs R Hfuel rest n.
  unfold Read. rewrite (ra_open _ _ _ _ _ R), (ra_err _ _ _ _ _ R).
  destruct (Read_loop_delivers check L cs Hcs fuel g readCh p O R ltac:(lia)
              ltac:(pose proof (ra_id _ _ _ _ _ R); unfold len in *; lia))
    as (g' & ch' & HR & R' & Hrem).
  rewrite Nat.sub_0_r in *. cbn [Nat.add take app Z.of_nat] in HR.
  exists g', ch'. split; [exact HR|]. split; [exact R' | exact Hrem].
Qed.


(* consecutive Reads: what the consumer gets is a prefix of what was left *)
Lemma consume_delivers (check : bool) (L : Z) (cs : list chunk) (Hcs : object_chunks cs) (fuel : nat)
    (bufs : list nat) :
  forall (g : getter) (readCh : list chunk),
    reassembling check L cs g readCh ->
    Forall (fun m => (m + length cs < fuel)%nat) bufs ->
    exists (g' : getter) (ch' : list chunk),
      consume fuel g readCh bufs
      = Ret (g', ch', take (sum_list bufs) (remaining cs g),
             if (length (remaining cs g) <? sum_list bufs)%nat then Some EOF else None)
      /\ reassembling check L cs g' ch'
      /\ remaining cs g' = drop (sum_list bufs) (remaining cs g).
Proof.
  induction bufs as [|m bufs IH]; intros g readCh R Hfuel.
  - exists g, readCh. cbn [consume sum_list sum_list_with]. rewrite take_0, drop_0.
    split; [reflexivity|]. split; [exact R | reflexivity].
  - apply Forall_cons in Hfuel. destruct Hfuel as [Hm Hfuel].
    cbn [consume].
    destruct (Read_delivers check L cs g readCh (replicate m x00%byte) fuel
                Hcs R ltac:(rewrite length_replicate; exact Hm))
      as (g1 & ch1 & HR & R1 & Hrem1).
    rewrite length_replicate in *. rewrite HR.
    set (rest := remaining cs g) in *.
    set (n := Nat.min m (length rest)) in *.
    assert (Htake : take (Z.to_nat (Z.of_nat n)) (take n rest ++ drop n (replicate m x00%byte))
                    = take n rest).
    { rewrite Nat2Z.id. apply take_app_length'. rewrite length_take. unfold n. lia. }
    change (sum_list (m :: bufs)) with (m + sum_list bufs)%nat.
    destruct (Nat.ltb_spec (length rest) m) as [Hlt|Hge].
    + (* this Read reaches the end of the stream *)
      exists g1, ch1. rewrite Htake.
      assert (Hn : n = length rest) by (unfold n; lia).
      assert (Hf : (length rest <? m + sum_list bufs)%nat = true) by (apply Nat.ltb_lt; lia).
      rewrite Hf, Hn, !take_ge by lia.
      split; [reflexivity|]. split; [exact R1|].
      rewrite Hrem1, Hn, !drop_ge by lia. reflexivity.
    + assert (Hn : n = m) by (unfold n; lia).
      destruct (IH g1 ch1 R1 Hfuel) as (g2 & ch2 & HC & R2 & Hrem2).
      rewrite HC, Htake, Hrem1, Hn, length_drop.
      exists g2, ch2. rewrite take_take_drop.
      assert (Hf : (length rest - m <? sum_list bufs)%nat
                   = (length rest <? m + sum_list bufs)%nat).
      { destruct (Nat.ltb_spec (length rest - m) (sum_list bufs));
        destruct (Nat.ltb_spec (length rest) (m + sum_list bufs)); lia || reflexivity. }
      rewrite Hf. split; [reflexivity|]. split; [exact R2|].
      rewrite Hrem2, Hrem1, Hn, drop_drop. reflexivity.
Qed.


(* when everything has been delivered, the bytes hashed are the object *)
Lemma delivered_md5 (check : bool) (L : Z) (cs : list chunk) (g : getter) (readCh : list chunk) :
  reassembling check L cs g readCh -> remaining cs g = [] -> check = true ->
  md5 g = concat (map payload cs).
Proof.
  intros R Hnil Hm. rewrite (ra_md5 _ _ _ _ _ R Hm).
  unfold remaining in Hnil. apply app_eq_nil in Hnil. destruct Hnil as [_ Hnil].
  rewrite <- (take_drop (Z.to_nat (next_id g)) cs) at 2.
  rewrite map_app, concat_app, Hnil, app_nil_r. reflexivity.
Qed.

(* the getter newGetter returns, before the first Read *)
Lemma fresh_reassembling (c : Config) (L : Z) (cs readCh : list chunk) :
  object_chunks cs ->
  len (concat (map payload cs)) = L -> L <= max_int64 ->
  chunkTotal (newGetter_state c L) = len cs -> len cs <= max_int64 ->
  readCh ≡ₚ cs ->
  reassembling (Md5Check c) L cs (newGetter_state c L) readCh
  /\ remaining cs (newGetter_state c L) = concat (map payload cs).
Proof.
  intros Hcs HL Hmax HT Hfit Hperm.
  assert (Hrem : remaining cs (newGetter_state c L) = concat (map payload cs)) by reflexivity.
  split; [|exact Hrem].
  constructor; try reflexivity; try assumption.
  - cbn. unfold len. lia.
  - now split.
  - intros c0 H0. discriminate.
  - intros k c0 Hk. cbn in Hk. rewrite lookup_empty in Hk. discriminate.
  - apply Forall_forall. intros c0 Hin. rewrite Hperm in Hin.
    apply list_elem_of_lookup in Hin. destruct Hin as [i Hi].
    destruct (Hcs _ _ Hi) as (Hid & _). rewrite Hid, Nat2Z.id. split; [lia | exact Hi].
  - intros k Hk. right. cbn in Hk. unfold len in Hk.
    destruct (lookup_lt_is_Some_2 cs (Z.to_nat k) ltac:(lia)) as [c0 Hc0].
    apply Exists_exists. exists c0. split.
    + rewrite Hperm. eapply list_elem_of_lookup_2. exact Hc0.
    + destruct (Hcs _ _ Hc0) as (Hid & _). lia.
Qed.


(* what initChunks sends does not depend on the fuel, once it suffices *)
Lemma initChunks_loop_fuel (g : getter) (n : nat) :
  forall (m : nat) (i k : Z) (x y : list chunk),
    initChunks_loop n g i k = Some x -> initChunks_loop m g i k = Some y -> x = y.
Proof.
  induction n as [|n IH]; intros m i k x y Hx Hy.
  - cbn [initChunks_loop] in Hx. destruct m; cbn [initChunks_loop] in Hy;
      destruct (i <? contentLen g); congruence.
  - cbn [initChunks_loop] in Hx. destruct m; cbn [initChunks_loop] in Hy;
      destruct (i <? contentLen g); try congruence.
    destruct (initChunks_loop n g _ _) as [x'|] eqn:Ex; [|discriminate].
    destruct (initChunks_loop m g _ _) as [y'|] eqn:Ey; [|discriminate].
    injection Hx as <-. injection Hy as <-. f_equal. exact (IH _ _ _ _ _ Ex Ey).
Qed.

(* the data of the chunks [k], ..., [k+n-1], all of them within the object *)
Lemma payload_lengths (L P : Z) (n : nat) :
  1 <= P ->
  forall (k : Z) (bufs : list (list byte)),
    0 <= k -> length bufs = n -> Forall (fun buf => len buf = P) bufs ->
    (n = O \/ (k + Z.of_nat n - 1) * P < L) ->
    len (concat (map payload (zip_with fill (map (chunk_at L P) (seqZ k (Z.of_nat n))) bufs)))
    = Z.max 0 (Z.min L ((k + Z.of_nat n) * P) - k * P).
Proof.
  intros HP. induction n as [|n IH]; intros k bufs Hk Hlen Hbufs Hin.
  - destruct bufs; [|discriminate]. change (Z.of_nat 0) with 0. rewrite Z.add_0_r.
    rewrite seqZ_nil by lia. set (x := k * P). unfold len. cbn. lia.
  - destruct bufs as [|buf bufs]; [discriminate|].
    apply Forall_cons in Hbufs. destruct Hbufs as [Hbuf Hbufs].
    destruct Hin as [Hin|Hin]; [discriminate|].
    rewrite (seqZ_cons k (Z.of_nat (S n))) by lia.
    replace (Z.pred (Z.of_nat (S n))) with (Z.of_nat n) by lia.
    replace (Z.succ k) with (k + 1) by lia.
    cbn [map zip_with concat]. unfold len in *. rewrite length_app.
    rewrite Nat2Z.inj_add.
    rewrite (IH (k + 1) bufs ltac:(lia) ltac:(cbn in Hlen; lia) Hbufs).
    2:{ destruct n; [now left|right]. lia. }
    assert (Hkp : k * P < L) by nia.
    assert (Hpay : Z.of_nat (length (payload (fill (chunk_at L P k) buf)))
                   = Z.min P (L - k * P)).
    { unfold payload, fill, chunk_at. cbn [size b]. rewrite length_take. lia. }
    rewrite Hpay. nia.
Qed.

(* the chunks of a download are the chunks of an object of [L] bytes *)
Lemma download_chunks (c : Config) (L : Z) (cs readCh : list chunk) :
  0 <= L -> 1 <= PartSize c -> L + PartSize c - 1 <= max_int64 ->
  download c L cs readCh ->
  object_chunks cs
  /\ len (concat (map payload cs)) = L
  /\ chunkTotal (newGetter_state c L) = len cs
  /\ len cs <= max_int64
  /\ readCh ≡ₚ cs.
Proof.
  intros HL HP Hfit (fuel & sent & bufs & Hinit & Hpool & Hlen & -> & Hperm).
  set (P := PartSize c) in *. set (g := newGetter_state c L) in *.
  assert (HgP : bufsz g = P) by (apply max64_ge1; exact HP).
  set (T := (L + P - 1) / P).
  assert (HT : chunkTotal g = T).
  { unfold g. cbn [newGetter_state chunkTotal]. fold P. rewrite (max64_ge1 _ HP).
    apply chunkTotal_of_ceil; lia. }
  pose proof (ceil_bounds L P HP) as Hb. fold T in Hb.
  assert (HT0 : 0 <= T) by (apply Z.div_pos; lia).
  assert (HTmax : T <= max_int64).
  { assert (T <= L + P - 1) by (apply Z.div_le_upper_bound; nia). lia. }
  assert (Hsent : sent = map (chunk_at L P) (seqZ 0 T)).
  { pose proof (initChunks_loop_chunks g L P T eq_refl HgP HP
                  ltac:(unfold max_int64 in *; lia) Hb
                  (Z.to_nat T) 0 0 ltac:(lia) ltac:(lia) ltac:(left; lia)) as H0.
    rewrite Z2Nat.id in H0 by lia.
    symmetry. exact (initChunks_loop_fuel g _ _ _ _ _ _ H0 Hinit). }
  subst sent. rewrite length_map, length_seqZ in Hlen. rewrite HgP in Hpool.
  assert (Hcs : length (zip_with fill (map (chunk_at L P) (seqZ 0 T)) bufs) = Z.to_nat T).
  { rewrite length_zip_with, length_map, length_seqZ. lia. }
  split; [|split; [|split; [|split]]].
  - intros k c0 Hk. apply lookup_zip_with_Some in Hk.
    destruct Hk as (c1 & buf & -> & H1 & H2).
    rewrite list_lookup_fmap in H1.
    destruct (seqZ 0 T !! k) as [z|] eqn:Hz; [|discriminate].
    apply lookup_seqZ in Hz. destruct Hz as [-> Hz]. injection H1 as <-.
    assert (Hbuf : len buf = P).
    { rewrite Forall_forall in Hpool. apply Hpool. eapply list_elem_of_lookup_2. exact H2. }
    unfold fill, chunk_at. cbn [id size b]. rewrite Hbuf.
    split; [lia|]. assert (Z.of_nat k * P < L) by nia. lia.
  - replace T with (Z.of_nat (Z.to_nat T)) by lia.
    rewrite (payload_lengths L P (Z.to_nat T) HP 0 bufs ltac:(lia) Hlen Hpool).
    + rewrite Z2Nat.id by lia. lia.
    + destruct (Z.to_nat T) eqn:E; [now left|right]. rewrite <- E, Z2Nat.id by lia. lia.
  - unfold len. rewrite Hcs, HT. lia.
  - unfold len. rewrite Hcs. lia.
  - exact Hperm.
Qed.


Lemma download5 : download config5 5 chunks5 arrival5.
Proof.
  exists 3%nat, sent5, bufs5. split; [vm_compute; reflexivity|].
  split; [repeat constructor|]. split; [reflexivity|]. split; [reflexivity|].
  apply (Permutation_app_comm [fill (chunk_at 5 2 2) [x65; x00]%byte]
           [fill (chunk_at 5 2 0) [x61; x62]%byte; fill (chunk_at 5 2 1) [x63; x64]%byte]).
Qed.

(* a download starts in a state from which the chunks are put in order *)
Lemma download_reassembling (c : Config) (L : Z) (cs readCh : list chunk) :
  0 <= L -> 1 <= PartSize c -> L + PartSize c - 1 <= max_int64 ->
  download c L cs readCh ->
  object_chunks cs
  /\ len (concat (map payload cs)) = L
  /\ reassembling (Md5Check c) L cs (newGetter_state c L) readCh
  /\ remaining cs (newGetter_state c L) = concat (map payload cs).
Proof.
  intros HL HP Hfit Hd.
  destruct (download_chunks c L cs readCh HL HP Hfit Hd) as (Hcs & Hlen & HT & Hmax & Hperm).
  destruct (fresh_reassembling c L cs readCh Hcs Hlen ltac:(lia) HT Hmax Hperm) as [R Hrem].
  split; [exact Hcs|]. split; [exact Hlen|]. split; [exact R | exact Hrem].
Qed.

(** X7.  Read puts the chunks back in order.  In a getter that is
    reassembling the chunks [cs] of an object, with [rest] the bytes not
    yet delivered, Read fills the buffer with the next bytes of [rest],
    however the chunks that are still to come are ordered on readCh; it
    returns the count of bytes it stored, with EOF exactly when the buffer
    had room for more than was left, and leaves a getter that goes on from
    where this Read stopped. *)
Theorem Read_delivers_the_next_bytes :
  forall (check : bool) (L : Z) (cs : list chunk) (g : getter) (readCh : list chunk)
         (p : list byte) (fuel : nat),
    object_chunks cs -> reassembling check L cs g readCh ->
    (length p + length cs < fuel)%nat ->
    let rest := remaining cs g in
    let n := Nat.min (length p) (length rest) in
    exists (g' : getter) (ch' : list chunk),
      Read fuel g readCh p
      = Ret (g', ch', take n rest ++ drop n p, Z.of_nat n,
             if (length rest <? length p)%nat then Some EOF else None)
      /\ reassembling check L cs g' ch' /\ remaining cs g' = drop n rest.
Proof.
  intros check L cs g readCh p fuel Hcs R Hfuel.
  exact (Read_delivers check L cs g readCh p fuel Hcs R Hfuel).
Qed.

Lemma Read_delivers_the_next_bytes_witness :
  let p := [x00; x00; x00]%byte in
  let rest := remaining chunks5 getter5 in
  let n := Nat.min (length p) (length rest) in
  exists (g' : getter) (ch' : list chunk),
    Read 7 getter5 arrival5 p
    = Ret (g', ch', take n rest ++ drop n p, Z.of_nat n,
           if (length rest <? length p)%nat then Some EOF else None)
    /\ reassembling true 5 chunks5 g' ch' /\ remaining chunks5 g' = drop n rest.
Proof.
  apply (Read_delivers_the_next_bytes true 5 chunks5 getter5 arrival5 [x00; x00; x00]%byte 7).
  - apply (download_reassembling config5 5 chunks5 arrival5);
      [lia | cbn; lia | vm_compute; discriminate | exact download5].
  - apply (download_reassembling config5 5 chunks5 arrival5);
      [lia | cbn; lia | vm_compute; discriminate | exact download5].
  - cbn. lia.
Defined.

(** X8.  A download delivers the object.  The chunks initChunks sends,
    each filled by a worker, may reach the reader in any order; a consumer
    that reads with buffers of any lengths gets the bytes of the object in
    the order of their offsets: the first [sum reads] bytes of the [L]
    bytes, with EOF once it has asked for more than [L]. *)
Theorem chunks_in_any_order_are_delivered_in_order :
  forall (c : Config) (L : Z) (cs readCh : list chunk) (reads : list nat) (fuel : nat),
    0 <= L -> 1 <= PartSize c -> L + PartSize c - 1 <= max_int64 ->
    download c L cs readCh ->
    Forall (fun m => (m + length cs < fuel)%nat) reads ->
    let object := concat (map payload cs) in
    len object = L
    /\ exists (g' : getter) (ch' : list chunk),
         consume fuel (newGetter_state c L) readCh reads
         = Ret (g', ch', take (sum_list reads) object,
                if (length object <? sum_list reads)%nat then Some EOF else None)
         /\ bytesRead g' = Z.min L (Z.of_nat (sum_list reads)).
Proof.
  intros c L cs readCh reads fuel HL HP Hfit Hd Hfuel object.
  destruct (download_reassembling c L cs readCh HL HP Hfit Hd) as (Hcs & Hlen & R & Hrem).
  split; [exact Hlen|].
  destruct (consume_delivers _ _ cs Hcs fuel reads _ readCh R Hfuel) as (g' & ch' & HC & R' & Hrem').
  rewrite Hrem in HC, Hrem'. exists g', ch'. split; [exact HC|].
  pose proof (ra_count _ _ _ _ _ R') as Hcount. rewrite Hrem' in Hcount.
  destruct (ra_len _ _ _ _ _ R') as [HcL _]. unfold object in *.
  unfold len in *. rewrite length_drop in Hcount. lia.
Qed.

Lemma chunks_in_any_order_are_delivered_in_order_witness :
  let object := concat (map payload chunks5) in
  len object = 5
  /\ exists (g' : getter) (ch' : list chunk),
       consume 8 getter5 arrival5 [3; 1; 4]%nat
       = Ret (g', ch', take (sum_list [3; 1; 4]%nat) object,
              if (length object <? sum_list [3; 1; 4]%nat)%nat then Some EOF else None)
       /\ bytesRead g' = Z.min 5 (Z.of_nat (sum_list [3; 1; 4]%nat)).
Proof.
  apply (chunks_in_any_order_are_delivered_in_order config5 5 chunks5 arrival5 [3; 1; 4]%nat 8);
    [lia | cbn; lia | vm_compute; discriminate | exact download5 |].
  repeat constructor; cbn; lia.
Defined.

(** X9.  Close after a download.  If the consumer stopped before the end,
    Close reports the byte count it reached against the content length.
    If it read to the end, it was given the whole object, the bytes
    written to the MD5 hash (when Md5Check is set) are the object too, and
    Close answers what checkMd5 finds, or nil when Md5Check is off. *)
Theorem Close_after_the_download :
  forall (c : Config) (L : Z) (cs readCh : list chunk) (reads : list nat) (fuel : nat)
         (checkMd5 : getter -> option error)
         (g' : getter) (ch' : list chunk) (out : list byte) (e : option error),
    0 <= L -> 1 <= PartSize c -> L + PartSize c - 1 <= max_int64 ->
    download c L cs readCh ->
    Forall (fun m => (m + length cs < fuel)%nat) reads ->
    consume fuel (newGetter_state c L) readCh reads = Ret (g', ch', out, e) ->
    let object := concat (map payload cs) in
    (Z.of_nat (sum_list reads) < L ->
     snd (Close checkMd5 g') = Some (ErrShortRead (Z.of_nat (sum_list reads)) L))
    /\ (L <= Z.of_nat (sum_list reads) ->
        out = object
        /\ (Md5Check c = true -> md5 g' = object)
        /\ snd (Close checkMd5 g')
           = if Md5Check c then checkMd5 (set_closed true g') else None).
Proof.
  intros c L cs readCh reads fuel checkMd5 g' ch' out e HL HP Hfit Hd Hfuel HC object.
  destruct (download_reassembling c L cs readCh HL HP Hfit Hd) as (Hcs & Hlen & R & Hrem).
  destruct (consume_delivers _ _ cs Hcs fuel reads _ readCh R Hfuel)
    as (g1 & ch1 & HC1 & R' & Hrem').
  rewrite HC in HC1. injection HC1 as <- <- -> ->.
  rewrite Hrem in Hrem'. fold object in Hrem', Hlen |- *.
  pose proof (ra_count _ _ _ _ _ R') as Hcount. rewrite Hrem' in Hcount.
  destruct (ra_len _ _ _ _ _ R') as [HcL _].
  unfold len in Hcount, Hlen. rewrite length_drop in Hcount.
  unfold Close. rewrite (ra_open _ _ _ _ _ R'). getter_cbn.
  rewrite (ra_err _ _ _ _ _ R'), (ra_check _ _ _ _ _ R'), HcL.
  split.
  - intros Hshort. assert (Hb : bytesRead g' = Z.of_nat (sum_list reads)) by lia.
    rewrite Hb. assert (E : (Z.of_nat (sum_list reads) =? L) = false) by (apply Z.eqb_neq; lia).
    rewrite E. reflexivity.
  - intros Hall. assert (Hb : bytesRead g' = L) by lia.
    rewrite Hb, Z.eqb_refl. cbn [negb].
    split; [apply take_ge; lia|]. split.
    + intros Hm. apply (delivered_md5 _ _ cs g' ch' R'); [|exact Hm].
      rewrite Hrem'. apply drop_ge. lia.
    + destruct (Md5Check c); reflexivity.
Qed.

Lemma Close_after_the_download_witness :
  exists (g' : getter) (ch' : list chunk) (out : list byte) (e : option error),
    consume 8 getter5 arrival5 [3; 1; 4]%nat = Ret (g', ch', out, e)
    /\ let object := concat (map payload chunks5) in
       (Z.of_nat (sum_list [3; 1; 4]%nat) < 5 ->
        snd (Close (fun _ => None) g')
        = Some (ErrShortRead (Z.of_nat (sum_list [3; 1; 4]%nat)) 5))
       /\ (5 <= Z.of_nat (sum_list [3; 1; 4]%nat) ->
           out = object
           /\ (Md5Check config5 = true -> md5 g' = object)
           /\ snd (Close (fun _ => None) g')
              = if Md5Check config5 then (fun _ => None) (set_closed true g') else None).
Proof.
  do 4 eexists. split; [vm_compute; reflexivity|].
  eapply (Close_after_the_download config5 5 chunks5 arrival5 [3; 1; 4]%nat 8 (fun _ => None));
    [lia | cbn; lia | vm_compute; discriminate | exact download5
    | repeat constructor; cbn; lia | vm_compute; reflexivity].
Defined.

End ReassemblyFacts.

(** ** getter.go: listing a bucket *)

Module ListingFacts.
Import Int64 Util S3gof3r Listing ListingSpec.

Lemma fold_append {A B : Type} (f : A -> B) (l : list A) (acc : list B) :
  fold_left (fun keys x => keys ++ [f x]) l acc = acc ++ map f l.
Proof.
  revert acc. induction l as [|x l IH]; intros acc; cbn [fold_left map].
  - now rewrite app_nil_r.
  - rewrite IH, <- app_assoc. reflexivity.
Qed.

Lemma fold_pages {A B : Type} (f : A -> B) (items : ListBucketResult -> list A)
    (pages : list ListBucketResult) (acc : list B) :
  fold_left (fun keys page => fold_left (fun keys x => keys ++ [f x]) (items page) keys)
    pages acc
  = acc ++ concat (map (fun page => map f (items page)) pages).
Proof.
  revert acc. induction pages as [|page pages IH]; intros acc; cbn [fold_left map concat].
  - now rewrite app_nil_r.
  - rewrite IH, fold_append, <- app_assoc. reflexivity.
Qed.

(** X10.  The three views of a listing go through the pages in order and,
    within a page, through its entries in order: ListKeyContents is the
    pages' Contents one after the other, ListKeys is the Key of each of
    these, and Dirs is the pages' common prefixes one after the other. *)
Theorem ListKeys_lists_the_keys_of_every_page :
  forall r : ListBucketContainer,
    ListKeyContents r = concat (map Contents (results r))
    /\ ListKeys r = map Key (ListKeyContents r)
    /\ Dirs r = concat (map CommonPrefixes (results r))
    /\ length (ListKeys r) = sum_list (map (fun page => length (Contents page)) (results r)).
Proof.
  intros r.
  assert (H1 : ListKeyContents r = concat (map Contents (results r))).
  { unfold ListKeyContents.
    rewrite (fold_pages (fun kc => kc) Contents). cbn [app]. f_equal.
    apply map_ext. intros page. apply map_id. }
  assert (H2 : ListKeys r = map Key (ListKeyContents r)).
  { rewrite H1. unfold ListKeys. rewrite (fold_pages Key Contents). cbn [app].
    rewrite concat_map, map_map. reflexivity. }
  split; [exact H1|]. split; [exact H2|]. split.
  - unfold Dirs. rewrite (fold_pages (fun d => d) CommonPrefixes). cbn [app]. f_equal.
    apply map_ext. intros page. apply map_id.
  - rewrite H2, length_map, H1. generalize (results r). intros pages.
    induction pages as [|page pages IH]; [reflexivity|].
    cbn [map concat]. rewrite length_app, IH. reflexivity.
Qed.


(** *** listObjectsGeneric *)



Section Loop.
Variable transport : nat -> page_attempt.
Variable Unmarshal : list byte -> error + ListBucketResult.



(* a listing of which every page announces a next one *)
Lemma listObjects_loop_endless (left : nat) :
  forall (i : nat) (prefix delimiter : string) (b : Bucket) (tok : string)
         (container : list ListBucketResult) (sent : list list_request),
    (forall j : nat, (i <= j < i + left)%nat ->
       exists (body : list byte) (page : ListBucketResult),
         transport j = DoReturns body /\ Unmarshal body = inr page
         /\ NextContinuationToken page <> ""%string) ->
    exists new : list list_request,
      listObjects_loop transport Unmarshal left i prefix delimiter b tok container sent
      = (inl (ErrorString "List results exceeded maximum number of pages: 100"), sent ++ new)
      /\ length new = left.
Proof.
  induction left as [|left IH]; intros i prefix delimiter b tok container sent Hall.
  - exists []. rewrite app_nil_r. split; reflexivity.
  - destruct (Hall i ltac:(lia)) as (body & page & Ht & Hu & Hn).
    cbn [listObjects_loop]. rewrite Ht, Hu.
    destruct (String.eqb_spec (NextContinuationToken page) "") as [E|E]; [contradiction|].
    cbn [negb].
    destruct (IH (S i) prefix delimiter b (NextContinuationToken page) (container ++ [page])
                (sent ++ [mkListRequest (list_url b) (page_query prefix delimiter tok)])
                ltac:(intros j Hj; apply Hall; lia)) as (new & Hl & Hlen).
    exists (mkListRequest (list_url b) (page_query prefix delimiter tok) :: new).
    rewrite Hl, <- app_assoc. split; [reflexivity | cbn; lia].
Qed.

End Loop.




(** X12.  A listing of which each of the first 100 pages announces a next
    page is given up: listObjectsGeneric makes 100 requests and returns
    the error "List results exceeded maximum number of pages: 100", and
    no container, so that the pages it has fetched are lost. *)
Theorem listing_gives_up_after_100_pages :
  forall (transport : nat -> page_attempt) (Unmarshal : list byte -> error + ListBucketResult)
         (prefix delimiter : string) (b : Bucket),
    (forall i : nat, (1 <= i <= 100)%nat ->
       exists (body : list byte) (page : ListBucketResult),
         transport i = DoReturns body /\ Unmarshal body = inr page
         /\ NextContinuationToken page <> ""%string) ->
    exists sent : list list_request,
      listObjectsGeneric transport Unmarshal prefix delimiter b
      = (inl (ErrorString "List results exceeded maximum number of pages: 100"), sent)
      /\ length sent = 100%nat.
Proof.
  intros transport Unmarshal prefix delimiter b Hall.
  destruct (listObjects_loop_endless transport Unmarshal maxIters 1 prefix delimiter b "" [] []
              ltac:(intros j Hj; apply Hall; unfold maxIters in Hj; lia)) as (new & H & Hlen).
  exists new. split; [exact H | exact Hlen].
Qed.

Lemma listing_gives_up_after_100_pages_witness :
  exists sent : list list_request,
    listObjectsGeneric endless decode "" "" (mkBucket (mkS3 "s3.amazonaws.com") "bucket" None)
    = (inl (ErrorString "List results exceeded maximum number of pages: 100"), sent)
    /\ length sent = 100%nat.
Proof.
  apply (listing_gives_up_after_100_pages endless decode "" ""
           (mkBucket (mkS3 "s3.amazonaws.com") "bucket" None)).
  intros i _. exists [x01%byte], page1. repeat split. discriminate.
Defined.


End ListingFacts.

(** ** s3gof3r.go: deleting keys *)

Module DeletionFacts.
Import Int64 Int64Facts Util Getter S3gof3r Listing Deletion DeletionSpec.

Lemma fold_snoc {A : Type} (l acc : list A) :
  fold_left (fun objs x => objs ++ [x]) l acc = acc ++ l.
Proof.
  revert acc. induction l as [|x l IH]; intros acc; cbn [fold_left].
  - now rewrite app_nil_r.
  - rewrite IH, <- app_assoc. reflexivity.
Qed.

Section Transport.
Variable transport : nat -> do_result.
Variable url : Bucket -> string -> Config -> error + string.

Lemma multiDelete_sends (b : Bucket) (u : string) (paths : list string) (w : net) :
  url b "" (conf b) = inr u -> len paths <= 1000 ->
  multiDelete transport url b paths w
  = Ret (answer (transport (calls w)) 200,
         mkNet (S (calls w)) (sent w ++ [POST u (Add "delete" "" ∅) true paths])).
Proof.
  intros Hu Hl. unfold multiDelete. rewrite Hu.
  assert (E : (len paths >? 1000) = false).
  { unfold Z.gtb. destruct (len paths ?= 1000) eqn:Ec; try reflexivity.
    apply Z.compare_gt_iff in Ec. lia. }
  rewrite E, fold_snoc. reflexivity.
Qed.

(* the loop from the key at index [i] on: the batches it sends are the
   keys from [i] on, cut every 1000 keys, up to the first batch that is
   not answered with 200 *)
Lemma MultiDelete_loop_batches (b : Bucket) (u : string) (paths : list string) (fuel : nat) :
  url b "" (conf b) = inr u -> len paths + 1000 <= max_int64 ->
  forall (i : Z) (w : net),
    0 <= i -> len paths - i <= 1000 * Z.of_nat fuel ->
    exists (e : option error) (batches : list (list string)),
      MultiDelete_loop transport url fuel b paths i w
      = Ret (e, mkNet (calls w + length batches)
                  (sent w ++ map (POST u (Add "delete" "" ∅) true) batches))
      /\ Forall (fun batch => (1 <= length batch <= 1000)%nat) batches
      /\ concat batches = take (1000 * length batches) (drop (Z.to_nat i) paths)
      /\ (batches = [] \/ 1000 * (Z.of_nat (length batches) - 1) < len paths - i)
      /\ (forall k : nat, (S k < length batches)%nat ->
            answer (transport (calls w + k)) 200 = None)
      /\ match e with
         | None => concat batches = drop (Z.to_nat i) paths
                   /\ forall k : nat, (k < length batches)%nat ->
                        answer (transport (calls w + k)) 200 = None
         | Some err => exists n : nat, length batches = S n
                                      /\ answer (transport (calls w + n)) 200 = Some err
         end.
Proof.
  intros Hu Hfit. induction fuel as [|fuel IH]; intros i w Hi Hfuel.
  - exists None, []. cbn [MultiDelete_loop].
    assert (E : (i <? len paths) = false) by (apply Z.ltb_ge; lia).
    rewrite E. cbn [length map concat]. rewrite Nat.add_0_r, app_nil_r.
    split; [destruct w; reflexivity|]. split; [constructor|].
    split; [now rewrite Nat.mul_0_r, take_0|]. split; [now left|]. split; [intros k Hk; lia|].
    split; [|intros k Hk; lia].
    symmetry. apply drop_ge. unfold len in *. lia.
  - cbn [MultiDelete_loop]. destruct (i <? len paths) eqn:E.
    2:{ apply Z.ltb_ge in E. exists None, [].
        cbn [length map concat]. rewrite Nat.add_0_r, app_nil_r.
        split; [destruct w; reflexivity|]. split; [constructor|].
        split; [now rewrite Nat.mul_0_r, take_0|]. split; [now left|].
        split; [intros k Hk; lia|]. split; [|intros k Hk; lia].
        symmetry. apply drop_ge. unfold len in *. lia. }
    apply Z.ltb_lt in E. unfold chunkSize.
    assert (A : add64 i 1000 = i + 1000) by (apply add64_id; int64_lia).
    rewrite A.
    set (batch := take 1000 (drop (Z.to_nat i) paths)).
    assert (Hs : slice paths i (min (len paths) (i + 1000)) = Some batch).
    { unfold slice, min. destruct (len paths <? i + 1000) eqn:Em.
      - apply Z.ltb_lt in Em.
        assert (Eb : (0 <=? i) && (i <=? len paths) && (len paths <=? len paths) = true).
        { rewrite !andb_true_iff, !Z.leb_le. lia. }
        rewrite Eb. f_equal. unfold batch.
        rewrite !take_ge; [reflexivity | |]; rewrite length_drop; unfold len in *; lia.
      - apply Z.ltb_ge in Em.
        assert (Eb : (0 <=? i) && (i <=? i + 1000) && (i + 1000 <=? len paths) = true).
        { rewrite !andb_true_iff, !Z.leb_le. lia. }
        rewrite Eb. f_equal. unfold batch. f_equal. lia. }
    rewrite Hs.
    assert (Hbl : (1 <= length batch <= 1000)%nat).
    { unfold batch. rewrite length_take, length_drop. unfold len in *. lia. }
    rewrite (multiDelete_sends b u batch w Hu ltac:(unfold len; lia)).
    destruct (answer (transport (calls w)) 200) as [err|] eqn:Ea.
    + exists (Some err), [batch]. cbn [length map concat].
      split; [do 3 f_equal; lia|]. split; [constructor; [exact Hbl | constructor]|].
      split; [rewrite app_nil_r; unfold batch; f_equal|].
      split; [right; lia|]. split; [intros k Hk; lia|].
      exists O. split; [reflexivity|]. now rewrite Nat.add_0_r.
    + destruct (IH (i + 1000) (mkNet (S (calls w))
                      (sent w ++ [POST u (Add "delete" "" ∅) true batch]))
                  ltac:(lia) ltac:(lia)) as (e & batches & HL & Hsz & Hcat & Hnum & Hok & He).
      exists e, (batch :: batches). rewrite HL. cbn [calls sent length map] in *.
      assert (Hdrop : drop (Z.to_nat (i + 1000)) paths
                      = drop 1000 (drop (Z.to_nat i) paths)).
      { rewrite drop_drop. f_equal. lia. }
      split; [rewrite <- app_assoc; do 3 f_equal; lia|].
      split; [constructor; [exact Hbl | exact Hsz]|].
      split.
      { cbn [concat]. rewrite Hcat, Hdrop. unfold batch.
        replace (1000 * S (length batches))%nat with (1000 + 1000 * length batches)%nat by lia.
        apply take_take_drop. }
      split; [right; destruct Hnum as [->|Hnum]; cbn [length]; lia|]. split.
      { intros k Hk. destruct k as [|k]; [now rewrite Nat.add_0_r|].
        replace (calls w + S k)%nat with (S (calls w) + k)%nat by lia.
        apply Hok. lia. }
      destruct e as [err|].
      * destruct He as (n & Hn & Hlast). exists (S n). split; [lia|].
        replace (calls w + S n)%nat with (S (calls w) + n)%nat by lia. exact Hlast.
      * destruct He as [Hall Hoks]. split.
        -- cbn [concat]. rewrite Hall, Hdrop. unfold batch. apply take_drop.
        -- intros k Hk. destruct k as [|k]; [now rewrite Nat.add_0_r|].
           replace (calls w + S k)%nat with (S (calls w) + k)%nat by lia.
           apply Hoks. lia.
Qed.

End Transport.

(** X14.  MultiDelete sends the keys in batches.  With the keys' URL at
    hand, MultiDelete returns without a panic; each request it makes is a
    POST of between 1 and 1000 keys with Quiet set; the batches, one after
    the other, are the first keys of [paths] in their order; and when it
    returns nil they are all of [paths], in len(paths)/1000 (rounded up)
    requests. *)
Theorem MultiDelete_sends_the_keys_in_batches :
  forall (transport : nat -> do_result) (url : Bucket -> string -> Config -> error + string)
         (b : Bucket) (u : string) (paths : list string) (fuel : nat) (w : net),
    url b "" (conf b) = inr u ->
    len paths + 1000 <= max_int64 ->
    len paths <= 1000 * Z.of_nat fuel ->
    exists (e : option error) (batches : list (list string)),
      MultiDelete transport url fuel b paths w
      = Ret (e, mkNet (calls w + length batches)
                  (sent w ++ map (POST u (Add "delete" "" ∅) true) batches))
      /\ Forall (fun batch => (1 <= length batch <= 1000)%nat) batches
      /\ concat batches = take (1000 * length batches) paths
      /\ (e = None ->
          concat batches = paths
          /\ Z.of_nat (length batches) = (len paths + 999) / 1000).
Proof.
  intros transport url b u paths fuel w Hu Hfit Hfuel.
  destruct (MultiDelete_loop_batches transport url b u paths fuel Hu Hfit 0 w
              ltac:(lia) ltac:(lia)) as (e & batches & HL & Hsz & Hcat & Hnum & Hok & He).
  change (Z.to_nat 0) with O in *. rewrite drop_0 in *.
  exists e, batches. split; [exact HL|]. split; [exact Hsz|]. split; [exact Hcat|].
  intros ->. destruct He as [Hall _]. split; [exact Hall|].
  assert (Hlen : len paths <= 1000 * Z.of_nat (length batches)).
  { rewrite Hcat in Hall. apply (f_equal length) in Hall. rewrite length_take in Hall.
    unfold len. lia. }
  apply Z.div_unique with (r := len paths + 999 - 1000 * Z.of_nat (length batches)).
  - left. destruct Hnum as [->|Hnum]; cbn [length] in *; unfold len in *; lia.
  - lia.
Qed.

Lemma MultiDelete_sends_the_keys_in_batches_witness :
  exists (e : option error) (batches : list (list string)),
    MultiDelete (always 200) host_url 3 bucket keys2500 (mkNet 0 [])
    = Ret (e, mkNet (0 + length batches)
                ([] ++ map (POST "https://bucket.s3.amazonaws.com/" (Add "delete" "" ∅) true)
                         batches))
    /\ Forall (fun batch => (1 <= length batch <= 1000)%nat) batches
    /\ concat batches = take (1000 * length batches) keys2500
    /\ (e = None ->
        concat batches = keys2500
        /\ Z.of_nat (length batches) = (len keys2500 + 999) / 1000).
Proof.
  apply (MultiDelete_sends_the_keys_in_batches (always 200) host_url bucket
           "https://bucket.s3.amazonaws.com/" keys2500 3 (mkNet 0 []));
    [reflexivity | vm_compute; discriminate | vm_compute; discriminate].
Defined.

(** X15.  MultiDelete stops at the first batch that is refused.  If the
    first [n] requests are answered with 200 and the next one is not, and
    there are more than 1000*n keys, MultiDelete returns the error of that
    request after n+1 requests: the keys from index 1000*(n+1) on are not
    sent, and the first 1000*n keys have been deleted. *)
Theorem MultiDelete_stops_at_the_first_refusal :
  forall (transport : nat -> do_result) (url : Bucket -> string -> Config -> error + string)
         (b : Bucket) (u : string) (paths : list string) (fuel : nat) (w : net)
         (n : nat) (err : error),
    url b "" (conf b) = inr u ->
    len paths + 1000 <= max_int64 ->
    len paths <= 1000 * Z.of_nat fuel ->
    (forall k : nat, (k < n)%nat -> answer (transport (calls w + k)%nat) 200 = None) ->
    answer (transport (calls w + n)%nat) 200 = Some err ->
    1000 * Z.of_nat n < len paths ->
    exists batches : list (list string),
      MultiDelete transport url fuel b paths w
      = Ret (Some err, mkNet (calls w + S n)
                         (sent w ++ map (POST u (Add "delete" "" ∅) true) batches))
      /\ length batches = S n
      /\ concat batches = take (1000 * S n) paths.
Proof.
  intros transport url b u paths fuel w n err Hu Hfit Hfuel Hbefore Hn Hmore.
  destruct (MultiDelete_loop_batches transport url b u paths fuel Hu Hfit 0 w
              ltac:(lia) ltac:(lia)) as (e & batches & HL & Hsz & Hcat & Hnum & Hok & He).
  change (Z.to_nat 0) with O in *. rewrite drop_0 in *.
  assert (Hlen : length batches = S n /\ e = Some err).
  { destruct e as [err'|].
    - destruct He as (m & Hm & Hlast).
      destruct (Nat.lt_trichotomy m n) as [Hlt|[->|Hgt]].
      + rewrite (Hbefore m Hlt) in Hlast. discriminate.
      + split; [exact Hm | congruence].
      + rewrite (Hok n ltac:(lia)) in Hn. discriminate.
    - destruct He as [Hall Hoks]. exfalso.
      assert (Hl : len paths <= 1000 * Z.of_nat (length batches)).
      { rewrite Hcat in Hall. apply (f_equal length) in Hall. rewrite length_take in Hall.
        unfold len. lia. }
      rewrite (Hoks n ltac:(lia)) in Hn. discriminate. }
  destruct Hlen as [Hlen ->]. exists batches.
  unfold MultiDelete. rewrite HL, Hcat, Hlen. repeat split.
Qed.

Lemma MultiDelete_stops_at_the_first_refusal_witness :
  exists batches : list (list string),
    MultiDelete second_refused host_url 3 bucket keys2500 (mkNet 0 [])
    = Ret (Some (RespError 403 "AccessDenied"),
           mkNet (0 + 2)
             ([] ++ map (POST "https://bucket.s3.amazonaws.com/" (Add "delete" "" ∅) true)
                      batches))
    /\ length batches = 2%nat
    /\ concat batches = take (1000 * 2) keys2500.
Proof.
  apply (MultiDelete_stops_at_the_first_refusal second_refused host_url bucket
           "https://bucket.s3.amazonaws.com/" keys2500 3 (mkNet 0 []) 1
           (RespError 403 "AccessDenied"));
    [reflexivity | vm_compute; discriminate | vm_compute; discriminate
    | intros [|k] Hk; [reflexivity | lia] | reflexivity | vm_compute; reflexivity].
Defined.

(** X16.  Delete deletes the key and then its MD5 sidecar, the key
    /.md5/<path>.md5.  It returns nil exactly when both URLs could be made
    and both requests were answered with 204.  It makes two requests at
    most, and none for the sidecar unless the DELETE of the key itself was
    answered with 204. *)
Theorem Delete_deletes_the_key_and_its_sidecar :
  forall (transport : nat -> do_result) (url : Bucket -> string -> Config -> error + string)
         (b : Bucket) (path : string) (w : net),
    let r := Delete transport url b path w in
    let md5path := ("/.md5/" ++ path ++ ".md5")%string in
    (fst r = None <->
     exists u1 u2 : string,
       url b path (conf b) = inr u1 /\ url b md5path (conf b) = inr u2
       /\ answer (transport (calls w)) 204 = None
       /\ answer (transport (S (calls w))) 204 = None
       /\ sent (snd r) = sent w ++ [DELETE u1; DELETE u2])
    /\ (exists new : list request,
          sent (snd r) = sent w ++ new /\ calls (snd r) = (calls w + length new)%nat
          /\ (length new <= 2)%nat
          /\ (length new = 2%nat -> answer (transport (calls w)) 204 = None)
          /\ Forall (fun q => exists u, q = DELETE u) new).
Proof.
  intros transport url b path w r md5path. unfold r, Delete, delete. fold md5path.
  destruct (url b path (conf b)) as [e1|u1] eqn:H1.
  { cbn [fst snd]. split.
    - split; [discriminate|]. intros (u1 & u2 & Hu & _). discriminate.
    - exists []. rewrite app_nil_r, Nat.add_0_r. repeat split; try (cbn; lia). constructor. }
  destruct (answer (transport (calls w)) 204) as [e|] eqn:A1.
  { cbn [fst snd sent calls]. split.
    - split; [discriminate|]. intros (u1' & u2 & _ & _ & Ha & _). discriminate.
    - exists [DELETE u1]. repeat split; try (cbn; lia).
      repeat constructor. eexists; reflexivity. }
  cbn [calls sent].
  destruct (url b md5path (conf b)) as [e2|u2] eqn:H2.
  { cbn [fst snd sent calls]. split.
    - split; [discriminate|]. intros (u1' & u2 & _ & Hu & _). discriminate.
    - exists [DELETE u1]. repeat split; try (cbn; lia).
      repeat constructor. eexists; reflexivity. }
  destruct (answer (transport (S (calls w))) 204) as [e|] eqn:A2;
    cbn [fst snd sent calls]; rewrite <- app_assoc; cbn [app]; split.
  - split; [discriminate|]. intros (u1' & u2' & _ & _ & _ & Ha & _). discriminate.
  - exists [DELETE u1; DELETE u2]. repeat split; try (cbn; lia).
    repeat constructor; eexists; reflexivity.
  - split; [|reflexivity]. intros _. exists u1, u2. repeat split.
  - exists [DELETE u1; DELETE u2]. repeat split; try (cbn; lia).
    repeat constructor; eexists; reflexivity.
Qed.

End DeletionFacts.

(** ** getter.go: requests *)

Module RequestFacts.
Import Int64 Int64Facts Util Getter S3gof3r Metadata MetadataSpec.

Section Transport.
Variable transport : nat -> attempt.

(* what a run of retryRequest can come to *)
Lemma retryRequest_outcomes (n : nat) (method u : string) :
  forall (resp : option response) (err : option error) (w : world),
    let '(resp', err', w') := retryRequest transport n method u resp err w in
    exists k s : nat,
      attempts w' = (attempts w + k)%nat /\ (k <= n)%nat
      /\ effects w' = repeat (HttpDo method u) s ++ effects w /\ (s <= k)%nat
      /\ (forall j : nat, (S j < k)%nat -> exists e, transport (attempts w + j)%nat = DoFailed e)
      /\ match k with
         | O => resp' = resp /\ err' = err /\ n = O
         | S k' =>
             match transport (attempts w + k')%nat with
             | DoOk r => resp' = Some r /\ err' = None /\ s = k
             | DoFailed e => resp' = None /\ err' = Some e /\ k = n /\ s = k
             | BadRequest e => err' = Some e /\ S s = k
                               /\ resp' = match k' with O => resp | S _ => None end
             end
         end.
Proof.
  induction n as [|n IH]; intros resp err w.
  - cbn [retryRequest]. exists O, O. rewrite Nat.add_0_r. cbn [repeat app].
    repeat split; try lia; try (intros j Hj; lia).
  - cbn [retryRequest]. destruct (transport (attempts w)) as [e|e|r] eqn:Ht.
    + exists 1%nat, O. cbn [attempts effects repeat app]. rewrite Nat.add_0_r, Ht.
      repeat split; try lia; try (intros j Hj; lia).
    + specialize (IH None (Some e)
                    (mkWorld (S (attempts w)) (HttpDo method u :: effects w))).
      destruct (retryRequest transport n method u None (Some e)
                  (mkWorld (S (attempts w)) (HttpDo method u :: effects w)))
        as [[resp' err'] w'].
      destruct IH as (k & s & Ha & Hk & He & Hs & Hfail & Hlast).
      cbn [attempts effects] in *.
      exists (S k), (S s). split; [lia|]. split; [lia|].
      split; [rewrite He; change (HttpDo method u :: effects w)
                          with ([HttpDo method u] ++ effects w);
              rewrite app_assoc, <- repeat_cons; reflexivity|].
      split; [lia|]. split.
      { intros j Hj. destruct j as [|j]; [rewrite Nat.add_0_r; eauto|].
        replace (attempts w + S j)%nat with (S (attempts w) + j)%nat by lia.
        apply Hfail. lia. }
      destruct k as [|k].
      * destruct Hlast as (-> & -> & ->). rewrite Nat.add_0_r, Ht.
        repeat split; lia.
      * replace (attempts w + S k)%nat with (S (attempts w) + k)%nat by lia.
        destruct (transport (S (attempts w) + k)) as [e'|e'|r'].
        -- destruct Hlast as (-> & Hsk & ->). repeat split; try lia.
           destruct k; reflexivity.
        -- destruct Hlast as (-> & -> & -> & ->). repeat split; lia.
        -- destruct Hlast as (-> & -> & ->). repeat split; lia.
    + exists 1%nat, 1%nat. cbn [attempts effects repeat app]. rewrite Nat.add_0_r, Ht.
      repeat split; try lia; try (intros j Hj; lia).
Qed.

End Transport.

(** X17.  retryRequest returns the first answer.  If, of at most [n]
    attempts, the first [k] fail in Client.Do and the next one gets a
    response, retryRequest returns that response with a nil error after
    exactly k+1 requests, all of the given method to the given URL. *)
Theorem retryRequest_returns_the_first_response :
  forall (transport : nat -> attempt) (n : nat) (method u : string) (w : world)
         (k : nat) (r : response),
    (k < n)%nat ->
    (forall j : nat, (j < k)%nat -> exists e, transport (attempts w + j)%nat = DoFailed e) ->
    transport (attempts w + k)%nat = DoOk r ->
    retryRequest transport n method u None None w
    = (Some r, None,
       mkWorld (attempts w + S k) (repeat (HttpDo method u) (S k) ++ effects w)).
Proof.
  intros transport n method u w k r Hk Hfail Hok.
  pose proof (retryRequest_outcomes transport n method u None None w) as H.
  destruct (retryRequest transport n method u None None w) as [[resp' err'] w'].
  destruct H as (k0 & s & Ha & Hk0 & He & Hs & Hf & Hlast).
  destruct k0 as [|k'].
  { destruct Hlast as (_ & _ & ->). lia. }
  destruct (Nat.lt_trichotomy k' k) as [Hlt|[->|Hgt]].
  - destruct (Hfail k' Hlt) as [e Hd]. rewrite Hd in Hlast.
    destruct Hlast as (_ & _ & Hn & _). lia.
  - rewrite Hok in Hlast. destruct Hlast as (-> & -> & ->).
    destruct w' as [a' e']. cbn [attempts effects] in *. subst. reflexivity.
  - destruct (Hf k ltac:(lia)) as [e Hd]. congruence.
Qed.

Lemma retryRequest_returns_the_first_response_witness :
  retryRequest (third_time (mkResponse 200 12 ∅ "")) 5 "GET" "https://bucket.s3.amazonaws.com/key"
    None None (mkWorld 0 [])
  = (Some (mkResponse 200 12 ∅ ""), None,
     mkWorld (0 + 3)
       (repeat (HttpDo "GET" "https://bucket.s3.amazonaws.com/key") 3 ++ [])).
Proof.
  apply (retryRequest_returns_the_first_response (third_time (mkResponse 200 12 ∅ "")) 5
           "GET" "https://bucket.s3.amazonaws.com/key" (mkWorld 0 []) 2 (mkResponse 200 12 ∅ ""));
    [lia | | reflexivity].
  intros [|[|j]] Hj; [eexists; reflexivity | eexists; reflexivity | lia].
Defined.

Lemma spawn_workers_effects (n : nat) :
  forall w : world,
    attempts (spawn_workers n w) = attempts w
    /\ effects (spawn_workers n w) = repeat GoWorker n ++ effects w.
Proof.
  induction n as [|n IH]; intros w; cbn [spawn_workers]; [now split|].
  destruct (IH (emit GoWorker w)) as [H1 H2]. rewrite H1, H2. split; [reflexivity|].
  cbn [emit effects]. change (GoWorker :: effects w) with ([GoWorker] ++ effects w).
  rewrite app_assoc, <- repeat_cons. reflexivity.
Qed.

(** X18.  newGetter returns, and leaks nothing when it fails.  For every
    network and configuration it makes between 1 and max(NTry, 1)
    requests, all of them GETs of the object's URL, and does not panic.
    When it returns an error it has made no buffer pool and started no
    goroutine.  When it returns a getter, the last request was answered
    with status 200 and a defined content length, the getter is the one
    for that length, and newGetter has made one buffer pool of bufsz
    bytes, then max(Concurrency, 1) workers, then the dispatcher. *)
Theorem newGetter_starts_the_pipeline_only_on_success :
  forall (transport : nat -> attempt) (getURL : string) (c : Config) (w : world),
    exists (res : error + getter * gmap string (list string)) (w' : world) (k s : nat),
      newGetter transport getURL c w = Ret (res, w')
      /\ attempts w' = (attempts w + k)%nat
      /\ (1 <= k <= Z.to_nat (max (NTry c) 1))%nat /\ (s <= k)%nat
      /\ match res with
         | inl _ => effects w' = repeat (HttpDo "GET" getURL) s ++ effects w
         | inr (g, h) =>
             effects w'
             = [GoInitChunks] ++ repeat GoWorker (Z.to_nat (max (Concurrency c) 1))
               ++ [BufferPool (max64 (PartSize c) 1)]
               ++ repeat (HttpDo "GET" getURL) s ++ effects w
             /\ exists resp : response,
                  transport (attempts w' - 1)%nat = DoOk resp
                  /\ StatusCode resp = 200 /\ ContentLength resp <> -1
                  /\ g = newGetter_state c (ContentLength resp) /\ h = Header resp
         end.
Proof.
  intros transport getURL c w. unfold newGetter.
  set (n := Z.to_nat (max (NTry c) 1)).
  assert (Hn : (1 <= n)%nat).
  { unfold n, max. destruct (NTry c >? 1) eqn:E; [|lia].
    unfold Z.gtb in E. destruct (NTry c ?= 1) eqn:Ec; try discriminate.
    apply Z.compare_gt_iff in Ec. lia. }
  pose proof (retryRequest_outcomes transport n "GET" getURL None None w) as H.
  destruct (retryRequest transport n "GET" getURL None None w) as [[resp' err'] w1].
  destruct H as (k & s & Ha & Hk & He & Hs & Hf & Hlast).
  destruct k as [|k']; [destruct Hlast as (_ & _ & ->); lia|].
  destruct (transport (attempts w + k')%nat) as [e|e|r] eqn:Ht.
  - destruct Hlast as (-> & _ & _).
    exists (inl e), w1, (S k'), s.
    split; [destruct resp'; reflexivity|]. repeat split; try assumption; lia.
  - destruct Hlast as (-> & -> & _ & _).
    exists (inl e), w1, (S k'), s. split; [reflexivity|]. repeat split; try assumption; lia.
  - destruct Hlast as (-> & -> & _).
    destruct (StatusCode r =? 200) eqn:E200; cbn [negb].
    2:{ exists (inl (newRespError r)), w1, (S k'), s. split; [reflexivity|]. repeat split; try assumption; lia. }
    destruct (ContentLength r =? -1) eqn:Ecl.
    { exists (inl ErrUndefinedLength), w1, (S k'), s. split; [reflexivity|]. repeat split; try assumption; lia. }
    eexists (inr (_, _)), _, (S k'), s. split; [reflexivity|].
    destruct (spawn_workers_effects
                (Z.to_nat (c_Concurrency (newGetter_state c (ContentLength r))))
                (emit (BufferPool (bufsz (newGetter_state c (ContentLength r)))) w1))
      as [Hsa Hse].
    cbn [emit attempts effects]. rewrite Hsa, Hse. cbn [emit attempts effects].
    split; [exact Ha|]. split; [lia|]. split; [exact Hs|]. split.
    + rewrite He. reflexivity.
    + exists r. replace (attempts w1 - 1)%nat with (attempts w + k')%nat by lia.
      apply Z.eqb_eq in E200. apply Z.eqb_neq in Ecl. repeat split; assumption.
Qed.

Section Metadata.
Variable transport : nat -> attempt.
Variable url : Bucket -> string -> Config -> error + string.

(** X19.  ObjectMetaData does not return the error of b.url, and does not
    fall back on the bucket's configuration: with a nil Config, or when
    the URL cannot be made, it panics on a nil pointer, where GetReader
    uses the bucket's configuration and returns url's error.  With a URL
    it returns, after between 1 and max(NTry, 1) HEAD requests and not a
    single GET: the response's header when the status is 200, the error
    ObjectNotExist when it is 404, the response's error otherwise. *)
Theorem ObjectMetaData_panics_without_a_URL :
  forall (path : string) (b : Bucket) (w : world),
    ObjectMetaData transport url path None b w = Panic "nil pointer dereference"
    /\ (forall (c : Config) (e : error),
          url b path c = inl e ->
          ObjectMetaData transport url path (Some c) b w = Panic "nil pointer dereference"
          /\ (path <> ""%string ->
              GetReader transport url b path (Some c) w = Ret (inl e, w)))
    /\ (forall (c : Config) (u : string),
          url b path c = inr u ->
          exists (res : error + gmap string (list string)) (w' : world) (k s : nat),
            ObjectMetaData transport url path (Some c) b w = Ret (res, w')
            /\ attempts w' = (attempts w + k)%nat
            /\ (1 <= k <= Z.to_nat (max (NTry c) 1))%nat
            /\ effects w' = repeat (HttpDo "HEAD" u) s ++ effects w /\ (s <= k)%nat
            /\ res = match transport (attempts w' - 1)%nat with
                      | DoOk resp =>
                          if StatusCode resp =? 200 then inr (Header resp)
                          else if StatusCode resp =? 404 then inl ObjectNotExist
                          else inl (newRespError resp)
                      | DoFailed e | BadRequest e => inl e
                      end).
Proof.
  intros path b w. split; [reflexivity|]. split.
  - intros c e Hu. unfold ObjectMetaData, GetReader. rewrite Hu. split; [reflexivity|].
    intros Hp. destruct (String.eqb_spec path ""); [contradiction | reflexivity].
  - intros c u Hu. unfold ObjectMetaData. rewrite Hu.
    set (n := Z.to_nat (max (NTry c) 1)).
    assert (Hn : (1 <= n)%nat).
    { unfold n, max. destruct (NTry c >? 1) eqn:E; [|lia].
      unfold Z.gtb in E. destruct (NTry c ?= 1) eqn:Ec; try discriminate.
      apply Z.compare_gt_iff in Ec. lia. }
    pose proof (retryRequest_outcomes transport n "HEAD" u None None w) as H.
    destruct (retryRequest transport n "HEAD" u None None w) as [[resp' err'] w1].
    destruct H as (k & s & Ha & Hk & He & Hs & Hf & Hlast).
    destruct k as [|k']; [destruct Hlast as (_ & _ & ->); lia|].
    assert (Hidx : (attempts w1 - 1)%nat = (attempts w + k')%nat) by lia.
    destruct (transport (attempts w + k')%nat) as [e|e|r] eqn:Ht.
    + destruct Hlast as (-> & _ & _).
      exists (inl e), w1, (S k'), s.
      split; [destruct resp'; reflexivity|]. repeat split; try assumption; try lia; rewrite Hidx, Ht; reflexivity.
    + destruct Hlast as (-> & -> & _ & _).
      exists (inl e), w1, (S k'), s.
      split; [reflexivity|]. repeat split; try assumption; try lia; rewrite Hidx, Ht; reflexivity.
    + destruct Hlast as (-> & -> & _).
      exists (if StatusCode r =? 200 then inr (Header r)
              else if StatusCode r =? 404 then inl ObjectNotExist
                   else inl (newRespError r)), w1, (S k'), s.
      split; [destruct (StatusCode r =? 200), (StatusCode r =? 404); reflexivity|].
      split; [exact Ha|]. split; [lia|]. split; [exact He|]. split; [exact Hs|].
      rewrite Hidx, Ht. reflexivity.
Qed.

End Metadata.

(* a path that url.Parse refuses *)
Example ObjectMetaData_of_a_bad_path :
  let b := mkBucket (mkS3 "s3.amazonaws.com") "bucket" None in
  let w := mkWorld 0 [] in
  ObjectMetaData (third_time (mkResponse 200 0 ∅ "")) no_url "%zz" (Some DefaultConfig) b w
  = Panic "nil pointer dereference"
  /\ GetReader (third_time (mkResponse 200 0 ∅ "")) no_url b "%zz" (Some DefaultConfig) w
     = Ret (inl (ErrorString "parse %zz: invalid URL escape"), w)
  /\ ObjectMetaData (third_time (mkResponse 404 0 ∅ "")) plain_url "key" (Some DefaultConfig) b w
     = Ret (inl ObjectNotExist,
            mkWorld 3 [HttpDo "HEAD" "https://bucket.s3.amazonaws.com/key";
                       HttpDo "HEAD" "https://bucket.s3.amazonaws.com/key";
                       HttpDo "HEAD" "https://bucket.s3.amazonaws.com/key"]).
Proof. vm_compute. repeat split. Qed.

End RequestFacts.

(** ** s3gof3r.go: the region of a regional endpoint *)

Module RegionFacts.
Import Regexp S3gof3r RegionSpec.

Lemma list_ascii_app (s t : string) :
  list_ascii_of_string (s ++ t) = list_ascii_of_string s ++ list_ascii_of_string t.
Proof.
  induction s as [|c s IH]; [reflexivity|].
  change (c :: list_ascii_of_string (s ++ t)
          = c :: (list_ascii_of_string s ++ list_ascii_of_string t)).
  now rewrite IH.
Qed.

Lemma first_down_Some {A : Type} (f : nat -> option A) (n : nat) (r : A) :
  f n = Some r -> first_down f n = Some r.
Proof. intros H. destruct n; cbn [first_down]; now rewrite H. Qed.

Lemma run_length_stops (a : atom) (r : list ascii) (c : ascii) (rest : list ascii) :
  Forall (fun x => atom_matches a x = true) r -> atom_matches a c = false ->
  run_length a (r ++ c :: rest) = length r.
Proof.
  intros Hr Hc. induction Hr as [|x r Hx Hr IH]; cbn [run_length app length].
  - now rewrite Hc.
  - now rewrite Hx, IH.
Qed.


Lemma match_regional (sep : ascii) (rl sl : list ascii) :
  (sep = "-"%char \/ sep = "."%char) -> rl <> [] ->
  Forall (fun x => region_char x = true) rl ->
  exists (e o2 e2 : nat),
    match_here RevB.regionMatcher
      ("s"%char :: "3"%char :: sep :: rl ++ list_ascii_of_string ".amazonaws.com" ++ sl)
      O [] []
    = Some (e, [(o2, e2); (3, 3 + length rl)]%nat).
Proof.
  intros Hsep Hne Hrl.
  assert (Es : (Ascii.eqb sep "-" || Ascii.eqb sep ".") = true).
  { destruct Hsep as [-> | ->]; reflexivity. }
  unfold RevB.regionMatcher.
  cbn [lit list_ascii_of_string map app match_here atom_matches].
  change (Ascii.eqb "s" "s") with true. change (Ascii.eqb "3" "3") with true.
  cbv beta iota. rewrite Es.
  rewrite run_length_stops; [|exact Hrl|reflexivity].
  do 3 eexists. apply first_down_Some.
  assert (E1 : (1 <=? length rl)%nat = true).
  { apply Nat.leb_le. destruct rl; [contradiction | cbn; lia]. }
  rewrite E1, drop_app_length.
  cbn [negb Ascii.eqb Bool.eqb andb].
  apply first_down_Some. reflexivity.
Qed.

(** X20.  Region reads the region off a regional endpoint.  For a Domain
    s3-<region>.amazonaws.com or s3.<region>.amazonaws.com, with anything
    behind (as in s3.cn-north-1.amazonaws.com.cn), where <region> is one
    or more characters of [a-z0-9-], Region returns <region>, whatever
    AWS_REGION holds; the two endpoints that Region knows by name,
    s3-external-1 and s3-accelerate, are the exceptions. *)
Theorem Region_of_a_regional_endpoint :
  forall (AWS_REGION : string) (sep : ascii) (region suffix : string),
    sep = "-"%char \/ sep = "."%char ->
    region <> ""%string ->
    forallb region_char (list_ascii_of_string region) = true ->
    regional_endpoint sep region suffix <> "s3-external-1.amazonaws.com"%string ->
    regional_endpoint sep region suffix <> "s3-accelerate.amazonaws.com"%string ->
    RevB.Region AWS_REGION (mkS3 (regional_endpoint sep region suffix)) = Ret region.
Proof.
  intros env sep region suffix Hsep Hne Hchars Hext Hacc.
  set (rl := list_ascii_of_string region).
  set (sl := list_ascii_of_string suffix).
  assert (Hl : list_ascii_of_string (regional_endpoint sep region suffix)
               = "s"%char :: "3"%char :: sep
                 :: rl ++ list_ascii_of_string ".amazonaws.com" ++ sl).
  { unfold regional_endpoint.
    change (list_ascii_of_string ("s3" ++ String sep (region ++ ".amazonaws.com" ++ suffix)))
      with ("s"%char :: "3"%char :: sep
            :: list_ascii_of_string (region ++ ".amazonaws.com" ++ suffix)).
    now rewrite !list_ascii_app. }
  assert (Hrl : rl <> []).
  { unfold rl. destruct region; [contradiction | discriminate]. }
  assert (Hus : regional_endpoint sep region suffix <> "s3.amazonaws.com"%string).
  { intros E. apply (f_equal list_ascii_of_string) in E. rewrite Hl in E.
    apply (f_equal (@length ascii)) in E. cbn [length] in E.
    rewrite !length_app in E. cbn [list_ascii_of_string length] in E.
    destruct rl; [contradiction | cbn [length] in E; lia]. }
  unfold RevB.Region. cbn [Domain].
  destruct (String.eqb_spec (regional_endpoint sep region suffix) "s3.amazonaws.com");
    [contradiction|].
  destruct (String.eqb_spec (regional_endpoint sep region suffix)
              "s3-external-1.amazonaws.com"); [contradiction|].
  destruct (String.eqb_spec (regional_endpoint sep region suffix)
              "s3-accelerate.amazonaws.com"); [contradiction|].
  cbn [orb]. unfold FindStringSubmatch. rewrite Hl.
  destruct (match_regional sep rl sl Hsep Hrl
              ltac:(apply Forall_forall; intros x Hx;
                    rewrite forallb_forall in Hchars; apply Hchars;
                    now apply list_elem_of_In)) as (e & o2 & e2 & Hm).
  assert (Hfind : forall whole,
    find_from RevB.regionMatcher whole
      ("s"%char :: "3"%char :: sep :: rl ++ list_ascii_of_string ".amazonaws.com" ++ sl) O
    = substring_of whole O e
        :: map (fun c => substring_of whole (fst c) (snd c)) (rev [(o2, e2); (3, 3 + length rl)]%nat)).
  { intros whole. cbn [find_from]. rewrite Hm. reflexivity. }
  rewrite Hfind. cbn [rev app map length fst snd Nat.ltb Nat.leb nth].
  f_equal. unfold substring_of.
  replace (3 + length rl - 3)%nat with (length rl) by lia.
  cbn [drop]. rewrite drop_0, take_app_length. apply string_of_list_ascii_of_string.
Qed.

Lemma Region_of_a_regional_endpoint_witness :
  RevB.Region "" (mkS3 (regional_endpoint "." "cn-north-1" ".cn")) = Ret "cn-north-1"%string.
Proof.
  apply (Region_of_a_regional_endpoint "" "." "cn-north-1" ".cn");
    [now right | discriminate | reflexivity | discriminate | discriminate].
Defined.

End RegionFacts.

(** ** util.go: the tracked readers, continued *)

Module WrapperFacts.
Import Int64 Int64Facts Util Wrappers.

Lemma wrap64_add_wrap (x y : Z) : wrap64 (wrap64 x + y) = wrap64 (x + y).
Proof.
  unfold wrap64.
  replace ((x + 2 ^ 63) mod 2 ^ 64 - 2 ^ 63 + y + 2 ^ 63)
    with ((x + 2 ^ 63) mod 2 ^ 64 + y) by lia.
  rewrite Zplus_mod_idemp_l. f_equal. f_equal. lia.
Qed.

Lemma rw_Reads_counts {R : Type} `{Reader R} (lens : list Z) :
  forall r : readerWrapper R,
    in_range (rw_bytesdone r) -> rw_closed r = false ->
    rw_bytesdone (fst (rw_Reads r lens))
    = wrap64 (rw_bytesdone r + Z.of_nat (length (concat (snd (rw_Reads r lens)))))
    /\ rw_closed (fst (rw_Reads r lens)) = false.
Proof.
  induction lens as [|lenp lens IH]; intros r Hr Hc.
  - cbn [rw_Reads concat length Z.of_nat fst snd]. rewrite Z.add_0_r.
    split; [symmetry; now apply wrap64_id | exact Hc].
  - cbn [rw_Reads]. unfold rw_Read. rewrite Hc.
    destruct (rd (rw_Reader r) lenp) as [[src bs] e].
    specialize (IH (mkReaderWrapper src false
                      (add64 (rw_bytesdone r) (Z.of_nat (length bs))))
                  (wrap64_range _) eq_refl).
    destruct (rw_Reads _ lens) as [r2 out]. cbn [fst snd rw_bytesdone rw_closed] in *.
    destruct IH as [IH1 IH2]. split; [|exact IH2].
    rewrite IH1. unfold add64. rewrite wrap64_add_wrap.
    cbn [concat]. rewrite length_app. f_equal. lia.
Qed.

(** X21.  BytesDone counts the bytes read.  Whatever the wrapped reader
    does, after any sequence of Reads on a wrapper made by
    newReaderWrapper, BytesDone is the number of bytes these Reads have
    delivered (as an int64: it wraps around past 2^63 - 1), their errors
    not counting; the wrapper is not closed by reading. *)
Theorem BytesDone_counts_the_bytes_read :
  forall (R : Type) (RR : Reader R) (src : R) (lens : list Z),
    let r' := fst (rw_Reads (newReaderWrapper src) lens) in
    let delivered := concat (snd (rw_Reads (newReaderWrapper src) lens)) in
    rw_BytesDone r' = wrap64 (Z.of_nat (length delivered))
    /\ (Z.of_nat (length delivered) <= max_int64 ->
        rw_BytesDone r' = Z.of_nat (length delivered))
    /\ rw_closed r' = false.
Proof.
  intros R RR src lens. cbv zeta. unfold rw_BytesDone.
  destruct (rw_Reads_counts lens (newReaderWrapper src)) as [H1 H2];
    [cbn; int64_lia | reflexivity|].
  cbn [newReaderWrapper rw_bytesdone] in H1. rewrite Z.add_0_l in H1.
  split; [exact H1|]. split; [|exact H2].
  intros Hfit. rewrite H1. apply wrap64_id. int64_lia.
Qed.

(** X22.  ForceClose stops the reads, and only the reads.  After
    ForceClose every Read of a readerWrapper or of a seekReaderWrapper
    returns 0 bytes and io.ErrUnexpectedEOF without calling the wrapped
    reader, so that BytesDone stays where it was; ForceClose itself leaves
    BytesDone and the wrapped reader alone, and a second ForceClose
    changes nothing.  Seek on a closed seekReaderWrapper is not refused:
    it seeks in the wrapped reader and moves BytesDone as before. *)
Theorem ForceClose_stops_the_reads :
  forall (R : Type) (RS : ReadSeeker R) (r : readerWrapper R) (s : seekReaderWrapper R)
         (lenp offset whence : Z) (lens : list Z),
    rw_Read (rw_ForceClose r) lenp = (rw_ForceClose r, [], Some ErrUnexpectedEOF)
    /\ rw_Reads (rw_ForceClose r) lens = (rw_ForceClose r, map (fun _ => []) lens)
    /\ rw_BytesDone (rw_ForceClose r) = rw_BytesDone r
    /\ rw_Reader (rw_ForceClose r) = rw_Reader r
    /\ rw_ForceClose (rw_ForceClose r) = rw_ForceClose r
    /\ srw_Read (srw_ForceClose s) lenp = (srw_ForceClose s, [], Some ErrUnexpectedEOF)
    /\ srw_BytesDone (srw_ForceClose s) = srw_BytesDone s
    /\ srw_ForceClose (srw_ForceClose s) = srw_ForceClose s
    /\ (let '(src, abs, err) := sk (srw_ReadSeeker s) offset whence in
        srw_Seek (srw_ForceClose s) offset whence = (mkSeekReaderWrapper src true abs, abs, err)).
Proof.
  intros R RS r s lenp offset whence lens.
  split; [reflexivity|]. split.
  { induction lens as [|l lens IH]; [reflexivity|].
    cbn [rw_Reads map]. change (rw_Read (rw_ForceClose r) l)
      with (rw_ForceClose r, @nil byte, Some ErrUnexpectedEOF).
    cbv beta iota. rewrite IH. reflexivity. }
  repeat (split; [reflexivity|]).
  unfold srw_Seek. cbn [srw_ForceClose srw_ReadSeeker srw_closed].
  destruct (sk (srw_ReadSeeker s) offset whence) as [[src abs] err]. reflexivity.
Qed.


Lemma srw_Read_tracks (r : seekReaderWrapper BytesReader) (lenp : Z) :
  Z.of_nat (length (br_s (srw_ReadSeeker r))) <= max_int64 -> tracks r ->
  tracks (fst (fst (srw_Read r lenp)))
  /\ br_s (srw_ReadSeeker (fst (fst (srw_Read r lenp)))) = br_s (srw_ReadSeeker r).
Proof.
  intros Hs [Hb Hi]. unfold srw_Read. destruct (srw_closed r); [now repeat split|].
  cbn [rd rs_Reader BytesReader_ReadSeeker BytesReader_Reader]. unfold BytesReader_Read.
  destruct (br_i (srw_ReadSeeker r) >=? Z.of_nat (length (br_s (srw_ReadSeeker r)))) eqn:E.
  - cbn [fst srw_bytesdone srw_ReadSeeker length Z.of_nat]. unfold tracks.
    cbn [srw_bytesdone srw_ReadSeeker]. rewrite add64_id by (rewrite Z.add_0_r, Hb; int64_lia).
    repeat split; lia.
  - assert (Hlt : br_i (srw_ReadSeeker r) < Z.of_nat (length (br_s (srw_ReadSeeker r)))).
    { unfold Z.geb in E. destruct (_ ?= _) eqn:Ec; try discriminate.
      now apply Z.compare_lt_iff in Ec. }
    cbn [fst srw_bytesdone srw_ReadSeeker br_i br_s]. unfold tracks.
    cbn [srw_bytesdone srw_ReadSeeker br_i br_s].
    set (bs := take (Z.to_nat lenp) (drop (Z.to_nat (br_i (srw_ReadSeeker r)))
                                       (br_s (srw_ReadSeeker r)))).
    assert (Hbs : Z.of_nat (length bs)
                  <= Z.of_nat (length (br_s (srw_ReadSeeker r))) - br_i (srw_ReadSeeker r)).
    { unfold bs. rewrite length_take, length_drop. lia. }
    rewrite add64_id by (rewrite Hb; int64_lia).
    repeat split; lia.
Qed.

Lemma srw_Seek_tracks (r : seekReaderWrapper BytesReader) (offset whence : Z) :
  tracks r -> in_range offset ->
  (snd (srw_Seek r offset whence) = None -> tracks (fst (fst (srw_Seek r offset whence))))
  /\ (snd (srw_Seek r offset whence) <> None ->
      srw_BytesDone (fst (fst (srw_Seek r offset whence))) = 0
      /\ srw_ReadSeeker (fst (fst (srw_Seek r offset whence))) = srw_ReadSeeker r)
  /\ br_s (srw_ReadSeeker (fst (fst (srw_Seek r offset whence)))) = br_s (srw_ReadSeeker r).
Proof.
  intros [Hb Hi] Ho. unfold srw_Seek.
  cbn [sk BytesReader_ReadSeeker]. unfold BytesReader_Seek.
  assert (Habs : forall abs : Z, in_range abs ->
    let res := (if abs <? 0
                then (srw_ReadSeeker r, 0,
                      Some (ErrorString "bytes.Reader.Seek: negative position"))
                else (mkBytesReader (br_s (srw_ReadSeeker r)) abs, abs, None)) in
    (snd res = None ->
       tracks (mkSeekReaderWrapper (fst (fst res)) (srw_closed r) (snd (fst res))))
    /\ (snd res <> None -> snd (fst res) = 0 /\ fst (fst res) = srw_ReadSeeker r)
    /\ br_s (fst (fst res)) = br_s (srw_ReadSeeker r)).
  { intros abs Ha. cbv zeta. destruct (Z.ltb_spec abs 0); cbn [fst snd].
    - repeat split; try discriminate; try reflexivity.
    - split; [|split; [intros Hn; now contradiction Hn | reflexivity]].
      intros _. unfold tracks. cbn. split; [reflexivity | int64_lia]. }
  destruct (whence =? 0); [|destruct (whence =? 1); [|destruct (whence =? 2)]].
  - specialize (Habs offset Ho). cbv zeta in Habs.
    destruct (offset <? 0); cbn [fst snd] in *; exact Habs.
  - specialize (Habs _ (wrap64_range (br_i (srw_ReadSeeker r) + offset))). cbv zeta in Habs.
    unfold add64. destruct (wrap64 _ <? 0); cbn [fst snd] in *; exact Habs.
  - specialize (Habs _ (wrap64_range
                          (Z.of_nat (length (br_s (srw_ReadSeeker r))) + offset))).
    cbv zeta in Habs.
    unfold add64. destruct (wrap64 _ <? 0); cbn [fst snd] in *; exact Habs.
  - cbn [fst snd]. split; [discriminate|]. split; [|reflexivity]. intros _. now split.
Qed.

Lemma srw_run_tracks (s : list byte) (ops : list srw_op) :
  Z.of_nat (length s) <= max_int64 ->
  forall r : seekReaderWrapper BytesReader,
    tracks r -> br_s (srw_ReadSeeker r) = s ->
    Forall2 seek_succeeded ops (snd (srw_run ops r)) ->
    tracks (fst (srw_run ops r)) /\ br_s (srw_ReadSeeker (fst (srw_run ops r))) = s.
Proof.
  intros Hs. induction ops as [|op ops IH]; intros r Ht Hsrc Hok.
  - now split.
  - cbn [srw_run] in *. destruct op as [lenp|offset whence]; cbn [srw_step] in *.
    + destruct (srw_Read_tracks r lenp ltac:(now rewrite Hsrc) Ht) as [Ht1 Hs1].
      destruct (srw_Read r lenp) as [[r1 bs] e]. cbn [fst] in *.
      specialize (IH r1 Ht1 ltac:(congruence)).
      destruct (srw_run ops r1) as [r2 es]. cbn [fst snd] in *.
      apply Forall2_cons in Hok. destruct Hok as [_ Hok]. exact (IH Hok).
    + pose proof (srw_Seek_tracks r offset whence Ht) as Hseek.
      destruct (srw_Seek r offset whence) as [[r1 abs] e]. cbn [fst snd] in *.
      destruct (srw_run ops r1) as [r2 es] eqn:Hrun. cbn [fst snd] in *.
      apply Forall2_cons in Hok. destruct Hok as [[Ho ->] Hok].
      destruct (Hseek Ho) as (Ht1 & _ & Hs1).
      specialize (IH r1 (Ht1 eq_refl) ltac:(congruence)). rewrite Hrun in IH.
      exact (IH Hok).
Qed.

(** X23.  A seekReaderWrapper follows its bytes.Reader.  For a wrapper
    made by newSeekReaderWrapper over a bytes.Reader, after any sequence
    of Reads and of Seeks that returned no error, BytesDone is the
    position of the bytes.Reader: the bytes before it are the bytes the
    next Read will not deliver again.  A Seek that fails leaves the
    bytes.Reader where it was and sets BytesDone to 0. *)
Theorem BytesDone_follows_the_position :
  forall (s : list byte) (ops : list srw_op),
    Z.of_nat (length s) <= max_int64 ->
    Forall2 seek_succeeded ops
      (snd (srw_run ops (newSeekReaderWrapper (mkBytesReader s 0)))) ->
    let r := fst (srw_run ops (newSeekReaderWrapper (mkBytesReader s 0))) in
    srw_BytesDone r = br_i (srw_ReadSeeker r)
    /\ 0 <= srw_BytesDone r
    /\ br_s (srw_ReadSeeker r) = s
    /\ (forall (offset whence : Z) (e : error),
          in_range offset ->
          snd (srw_Seek r offset whence) = Some e ->
          srw_BytesDone (fst (fst (srw_Seek r offset whence))) = 0
          /\ srw_ReadSeeker (fst (fst (srw_Seek r offset whence))) = srw_ReadSeeker r).
Proof.
  intros s ops Hs Hok. cbv zeta.
  destruct (srw_run_tracks s ops Hs (newSeekReaderWrapper (mkBytesReader s 0))
              ltac:(split; [reflexivity | cbn; int64_lia]) eq_refl Hok) as [[Hb Hi] Hsrc].
  unfold srw_BytesDone. split; [exact Hb|]. split; [lia|]. split; [exact Hsrc|].
  intros offset whence e Ho He.
  destruct (srw_Seek_tracks _ offset whence (conj Hb Hi) Ho) as (_ & Hfail & _).
  apply Hfail. rewrite He. discriminate.
Qed.

Lemma BytesDone_follows_the_position_witness :
  let s := [x61; x62; x63; x64; x65]%byte in
  let ops := [OpRead 2; OpRead 2; OpSeek 0 0; OpRead 4; OpSeek (-1) 2] in
  let r := fst (srw_run ops (newSeekReaderWrapper (mkBytesReader s 0))) in
  srw_BytesDone r = br_i (srw_ReadSeeker r)
  /\ 0 <= srw_BytesDone r
  /\ br_s (srw_ReadSeeker r) = s
  /\ (forall (offset whence : Z) (e : error),
        in_range offset ->
        snd (srw_Seek r offset whence) = Some e ->
        srw_BytesDone (fst (fst (srw_Seek r offset whence))) = 0
        /\ srw_ReadSeeker (fst (fst (srw_Seek r offset whence))) = srw_ReadSeeker r).
Proof.
  apply (BytesDone_follows_the_position [x61; x62; x63; x64; x65]%byte
           [OpRead 2; OpRead 2; OpSeek 0 0; OpRead 4; OpSeek (-1) 2]).
  - cbn. int64_lia.
  - repeat constructor; cbn; int64_lia.
Defined.

(* in that run the wrapper ends at offset 4; a seek before the start is
   refused and resets the count *)
Example seek_before_the_start :
  let s := [x61; x62; x63; x64; x65]%byte in
  let ops := [OpRead 2; OpRead 2; OpSeek 0 0; OpRead 4; OpSeek (-1) 2] in
  let r := fst (srw_run ops (newSeekReaderWrapper (mkBytesReader s 0))) in
  srw_BytesDone r = 4
  /\ srw_Seek r (-5) 1
     = (mkSeekReaderWrapper (mkBytesReader s 4) false 0, 0,
        Some (ErrorString "bytes.Reader.Seek: negative position")).
Proof. vm_compute. split; reflexivity. Qed.

End WrapperFacts.
